(** * Camera-overlay effect simulators: snow field, frost mask, firework colours

    A shallow embedding of the per-frame simulation code of the overlay
    components, followed by the properties stated about them.

    Conventions of the embedding.
    - A JavaScript [number] is an exact rational ([Q]); decimal literals are
      the source's ([0.4] is [4 # 10]).  Rounding of doubles and of the
      [Float32Array] cells, [NaN] and infinities are outside the model.
    - Comparisons are boolean ([Qgtb], [Qltb], [Qgeb]); a read outside a typed
      array is [None], and a comparison against it is false, as in JavaScript.
    - [Math.sin], [Math.exp] and the successive results of [Math.random] are
      supplied by a [Host] record; every theorem quantifies over the host.
    - A ref ([useRef]) is a field of the simulator's state; a frame is a
      function from state to state; canvas calls are logged as draw operations
      in the order they are issued. *)

From Stdlib Require Import QArith Qround Qabs Qpower Lqa ZArith Lia List Bool String.
From stdpp Require Import base list.

(** ** Numbers *)

Module Num.
Local Open Scope Q_scope.

(** [a > b], [a < b], [a >= b] on numbers. *)
Definition Qgtb (a b : Q) : bool := negb (Qle_bool a b).
Definition Qltb (a b : Q) : bool := negb (Qle_bool b a).
Definition Qgeb (a b : Q) : bool := Qle_bool b a.

(** [Math.max], [Math.min], [Math.round] (half rounds up), [Math.floor]. *)
Definition Math_max (a b : Q) : Q := if Qltb a b then b else a.
Definition Math_min (a b : Q) : Q := if Qltb b a then b else a.
Definition Math_round (a : Q) : Z := Qfloor (a + 0.5).
Definition Math_floor (a : Q) : Z := Qfloor a.

(** Sum of the cells of an array. *)
Definition sumQ (l : list Q) : Q := foldr Qplus 0 l.

(** Loop indices [i = 0; i < bound; i += step]. *)
Definition stride (step bound : nat) : list nat :=
  List.filter (fun i => Nat.eqb (i mod step) 0) (seq 0 bound).

(** Typed-array read at an integer index: [None] stands for [undefined]. *)
Definition readZ (h : list Q) (i : Z) : option Q :=
  if (0 <=? i)%Z then h !! Z.to_nat i else None.

End Num.
Import Num.

(** ** Pools stepped from the end

    The simulators walk a pool from the last index to the first; the body
    either rewrites the entry in place or splices it out. *)

Module Loops.

(** Body of such a loop at index [i], for a body that makes [f a] of the
    entry [a]: [Some a'] is written back, [None] is spliced out. *)
Definition spliceStep {A : Type} (f : A -> option A) (l : list A) (i : nat)
  : list A :=
  match l !! i with
  | Some a => match f a with
              | Some a' => <[ i := a' ]> l
              | None => delete i l
              end
  | None => l
  end.

(** [for (i = length - 1; i >= 0; i--)]. *)
Definition reverseLoop {A : Type} (f : A -> option A) (l : list A) : list A :=
  foldl (spliceStep f) l (rev (seq 0 (length l))).

End Loops.

(** ** types.ts *)

Module Types.
Record Point := { x : Q; y : Q }.
End Types.

(** ** Firework burst simulator: palettes and colour aging *)

Module Fireworks.
Local Open Scope Q_scope.

Record ColorRGB := { r : Z; g : Z; b : Z }.

Inductive Layer := core_layer | mid_layer | outer_layer.

Record Palette := { core : ColorRGB; mid : ColorRGB; outer : ColorRGB }.

Record FireworkParticle := {
  x : Q; y : Q; vx : Q; vy : Q;
  history : list Types.Point;
  life : Q; maxLife : Q; size : Q;
  layer : Layer;
  palette : Palette
}.

Definition PALETTES : list Palette :=
  [ {| core := {| r := 157; g := 0; b := 255 |};
       mid := {| r := 123; g := 131; b := 255 |};
       outer := {| r := 255; g := 215; b := 0 |} |};
    {| core := {| r := 255; g := 0; b := 100 |};
       mid := {| r := 0; g := 255; b := 255 |};
       outer := {| r := 255; g := 255; b := 255 |} |};
    {| core := {| r := 0; g := 50; b := 255 |};
       mid := {| r := 0; g := 255; b := 100 |};
       outer := {| r := 255; g := 200; b := 100 |} |} ].

(** One channel of the blend: [Math.round(c1 + (c2 - c1) * ratio)]. *)
Definition blend (c1 c2 : Z) (ratio : Q) : Z :=
  Math_round (inject_Z c1 + (inject_Z c2 - inject_Z c1) * ratio).

(** [getColor(p, progress)].  The source formats the three rounded channels
    as the string [rgb(r, g, b)]; the embedding returns the channels. *)
Definition getColor (p : FireworkParticle) (progress : Q) : ColorRGB :=
  let '(c1, c2, ratio) :=
    if Qgtb progress 0.6
    then (mid (palette p), core (palette p), (progress - 0.6) / 0.4)
    else (outer (palette p), mid (palette p), progress / 0.6) in
  let ratio := Math_max 0 (Math_min 1 ratio) in
  {| r := blend (r c1) (r c2) ratio;
     g := blend (g c1) (g c2) ratio;
     b := blend (b c1) (b c2) ratio |}.

End Fireworks.

(** ** Firework burst simulator: emission, aging and drawing *)

Module FireworksLoop.
Local Open Scope Q_scope.
Import Fireworks.

(** What the host provides to the burst simulator. *)
Record Host := {
  cos : Q -> Q;
  sin : Q -> Q;
  PI : Q;
  random : nat -> Q
}.

(** Canvas calls of a frame: the centre glow of an emission, and per
    particle a trail (moveTo / lineTo path, stroked), a halo and a head
    (arcs, filled), with the colour and [globalAlpha] in force. *)
Inductive DrawOp :=
| glow (cx cy radius : Q)
| trail (path : list Types.Point) (color : ColorRGB) (a lineWidth : Q)
| disc (cx cy radius : Q) (color : ColorRGB) (a : Q).

Record World := {
  particlesRef : list FireworkParticle;
  lastEmitPosRef : option Types.Point;
  frameCountRef : nat;
  targetPosRef : option Types.Point;
  isActiveRef : bool;
  randomCalls : nat;
  canvas : list DrawOp
}.

(** The effect that mirrors the latest props into refs. *)
Definition syncProps (targetPosition : option Types.Point) (isActive : bool)
  (w : World) : World :=
  {| particlesRef := particlesRef w;
     lastEmitPosRef := lastEmitPosRef w;
     frameCountRef := frameCountRef w;
     targetPosRef := targetPosition;
     isActiveRef := isActive;
     randomCalls := randomCalls w;
     canvas := canvas w |}.

Definition groupSize : nat := 18.

(** [PALETTES[Math.floor(Math.random() * PALETTES.length)]].  A draw in
    [0, 1) always hits one of the three palettes; for any other number the
    source would pick [undefined], which the embedding replaces by the
    first palette. *)
Definition selectPalette (r : Q) : Palette :=
  let i := Math_floor (r * inject_Z (Z.of_nat (length PALETTES))) in
  match (if (0 <=? i)%Z then PALETTES !! Z.to_nat i else None) with
  | Some pal => pal
  | None => {| core := {| r := 157; g := 0; b := 255 |};
               mid := {| r := 123; g := 131; b := 255 |};
               outer := {| r := 255; g := 215; b := 0 |} |}
  end.

(** One turn of the loop of [createGroup]: five draws, in the order
    [rand], [speed], [size], [life], [angle]. *)
Definition spawn (H : Host) (n : nat) (origin : Types.Point) (pal : Palette)
  : FireworkParticle :=
  let rand := random H n in
  let r1 := random H (n + 1) in
  let r2 := random H (n + 2) in
  let r3 := random H (n + 3) in
  let '(lay, speed, sz, lf) :=
    if Qltb rand 0.2
    then (core_layer, 5 + r1 * 3, 1 + r2, 30 + r3 * 20)
    else if Qltb rand 0.6
    then (mid_layer, 8 + r1 * 4, 2 + r2 * 2, 40 + r3 * 30)
    else (outer_layer, 12 + r1 * 6, 3 + r2 * 2, 50 + r3 * 30) in
  let angle := random H (n + 4) * PI H * 2 in
  {| x := Types.x origin;
     y := Types.y origin;
     vx := cos H angle * speed;
     vy := sin H angle * speed;
     history := [];
     life := lf;
     maxLife := lf;
     size := sz;
     layer := lay;
     palette := pal |}.

(** [createGroup(origin)]: one draw for the palette, then 18 particles. *)
Definition createGroup (H : Host) (origin : Types.Point) (w : World) : World :=
  let pal := selectPalette (random H (randomCalls w)) in
  let n0 := S (randomCalls w) in
  {| particlesRef :=
       particlesRef w
       ++ map (fun i => spawn H (n0 + 5 * i) origin pal) (seq 0 groupSize);
     lastEmitPosRef := lastEmitPosRef w;
     frameCountRef := frameCountRef w;
     targetPosRef := targetPosRef w;
     isActiveRef := isActiveRef w;
     randomCalls := (n0 + 5 * groupSize)%nat;
     canvas := canvas w |}.

(** The emission point of a frame: the target itself when the tracker is
    empty, otherwise halfway from the last emission point to the target. *)
Definition emitPosition (last : option Types.Point) (target : Types.Point)
  : Types.Point :=
  match last with
  | Some l =>
      {| Types.x := Types.x l + (Types.x target - Types.x l) * 0.5;
         Types.y := Types.y l + (Types.y target - Types.y l) * 0.5 |}
  | None => target
  end.

Definition glowRadius : Q := 25.

(** Step 2 of [update], after the frame counter was incremented. *)
Definition generation (H : Host) (w : World) : World :=
  match isActiveRef w, targetPosRef w with
  | true, Some currentTarget =>
      let emitPos := emitPosition (lastEmitPosRef w) currentTarget in
      let w1 := {| particlesRef := particlesRef w;
                   lastEmitPosRef := Some emitPos;
                   frameCountRef := frameCountRef w;
                   targetPosRef := targetPosRef w;
                   isActiveRef := isActiveRef w;
                   randomCalls := randomCalls w;
                   canvas := canvas w |} in
      if Nat.eqb (frameCountRef w mod 4) 0
      then let w2 := createGroup H emitPos w1 in
           {| particlesRef := particlesRef w2;
              lastEmitPosRef := lastEmitPosRef w2;
              frameCountRef := frameCountRef w2;
              targetPosRef := targetPosRef w2;
              isActiveRef := isActiveRef w2;
              randomCalls := randomCalls w2;
              canvas := canvas w2
                        ++ [glow (Types.x emitPos) (Types.y emitPos) glowRadius] |}
      else w1
  | _, _ =>
      {| particlesRef := particlesRef w;
         lastEmitPosRef := None;
         frameCountRef := frameCountRef w;
         targetPosRef := targetPosRef w;
         isActiveRef := isActiveRef w;
         randomCalls := randomCalls w;
         canvas := canvas w |}
  end.

(** [p.history.push({x, y}); if (p.history.length > 8) p.history.shift()]. *)
Definition pushHistory (hist : list Types.Point) (pt : Types.Point)
  : list Types.Point :=
  let hist' := hist ++ [pt] in
  if Nat.ltb 8 (length hist') then tail hist' else hist'.

(** The physics of one particle in one frame, up to [p.life--]. *)
Definition age (p : FireworkParticle) : FireworkParticle :=
  let hist := pushHistory (history p) {| Types.x := x p; Types.y := y p |} in
  let x1 := x p + vx p in
  let y1 := y p + vy p in
  let '(vx1, vy1) :=
    match layer p with
    | core_layer => (vx p, vy p)
    | mid_layer => (vx p, vy p + 0.15)
    | outer_layer => (vx p * 0.92, vy p * 0.92 + 0.1)
    end in
  {| x := x1; y := y1; vx := vx1; vy := vy1;
     history := hist;
     life := life p - 1;
     maxLife := maxLife p;
     size := size p;
     layer := layer p;
     palette := palette p |}.

(** [if (p.life <= 0)]: the particle is spliced out. *)
Definition dead (p : FireworkParticle) : bool := Qle_bool (life p) 0.

(** What is drawn for a living particle: the trail when the history holds
    more than one point, then the halo and the head. *)
Definition drawParticle (p : FireworkParticle) : list DrawOp :=
  let progress := life p / maxLife p in
  let color := getColor p progress in
  let a := Math_max progress 0.1 in
  (if Nat.ltb 1 (length (history p))
   then [trail (history p ++ [{| Types.x := x p; Types.y := y p |}])
           color (0.3 * a) (size p)]
   else [])
  ++ [disc (x p) (y p) (size p * 3) color (0.2 * a);
      disc (x p) (y p) (size p) color a].

(** Body of the particle loop at index [i]. *)
Definition stepParticle (w : World) (i : nat) : World :=
  match particlesRef w !! i with
  | None => w
  | Some p0 =>
      let p := age p0 in
      {| particlesRef := if dead p then delete i (particlesRef w)
                         else <[ i := p ]> (particlesRef w);
         lastEmitPosRef := lastEmitPosRef w;
         frameCountRef := frameCountRef w;
         targetPosRef := targetPosRef w;
         isActiveRef := isActiveRef w;
         randomCalls := randomCalls w;
         canvas := if dead p then canvas w else canvas w ++ drawParticle p |}
  end.

Definition stepParticles (w : World) : World :=
  foldl stepParticle w (rev (seq 0 (length (particlesRef w)))).

(** One frame. *)
Definition update (H : Host) (w : World) : World :=
  let w0 := {| particlesRef := particlesRef w;
               lastEmitPosRef := lastEmitPosRef w;
               frameCountRef := S (frameCountRef w);
               targetPosRef := targetPosRef w;
               isActiveRef := isActiveRef w;
               randomCalls := randomCalls w;
               canvas := [] |} in
  stepParticles (generation H w0).

(** What one frame makes of a particle: its aged self, or nothing. *)
Definition survive (p : FireworkParticle) : option FireworkParticle :=
  if dead (age p) then None else Some (age p).

(** [n] frames in a row. *)
Definition frames (H : Host) (n : nat) (w : World) : World :=
  Nat.iter n (update H) w.

(** *** Predicates used in the statements about the burst simulator *)

(** The frame about to run emits a group: the effect is active, a target
    is known, and the incremented frame counter is a multiple of 4. *)
Definition emits (w : World) : bool :=
  isActiveRef w
  && match targetPosRef w with Some _ => true | None => false end
  && Nat.eqb (S (frameCountRef w) mod 4) 0.

(** A particle as the loop leaves it: alive, not older than its span, with
    a trail of at most 8 points. *)
Definition wellAged (p : FireworkParticle) : Prop :=
  0 < life p /\ life p <= maxLife p /\ (length (history p) <= 8)%nat.

(** A particle just spawned at [origin] with palette [pal]. *)
Definition spawnedAt (origin : Types.Point) (pal : Palette)
  (p : FireworkParticle) : Prop :=
  x p = Types.x origin /\ y p = Types.y origin /\
  history p = [] /\ life p = maxLife p /\ palette p = pal /\
  match layer p with
  | core_layer => 30 <= life p /\ life p < 50 /\ 1 <= size p /\ size p < 2
  | mid_layer => 40 <= life p /\ life p < 70 /\ 2 <= size p /\ size p < 4
  | outer_layer => 50 <= life p /\ life p < 80 /\ 3 <= size p /\ size p < 5
  end.

End FireworksLoop.

(** ** Snow field simulator: height field, relaxation, particles *)

Module Snow.
Local Open Scope Q_scope.

Record SnowParticle := {
  x : Q; y : Q; vx : Q; vy : Q; size : Q; alpha : Q
}.

Record SnowOverlayProps := {
  isActive : bool;
  width : nat;
  height : Q;
  motionScore : Q
}.

(** What the host provides: [Math.sin], [Math.exp], and [random n], the
    result of the [n]-th call of [Math.random] since the page loaded. *)
Record Host := {
  sin : Q -> Q;
  exp : Q -> Q;
  random : nat -> Q
}.

(** Canvas calls of the overlay's own context, in issue order. *)
Inductive DrawOp :=
| beginPath
| moveTo (px py : Q)
| lineTo (px py : Q)
| closePath
| fillGradient (y0 y1 : Q)
| fillCircle (cx cy radius a : Q).

(** The refs of the component and the calls made since the last
    [clearRect]. *)
Record World := {
  heightMapRef : option (list Q);
  particlesRef : list SnowParticle;
  randomCalls : nat;
  canvas : list DrawOp
}.

(** [createParticle(w, h, startY)]; [n] is the number of [Math.random] calls
    made so far, the object literal makes five more, in field order. *)
Definition createParticle (H : Host) (n : nat) (w : nat) (h : Q) (startY : Q)
  : SnowParticle :=
  {| x := random H n * inject_Z (Z.of_nat w);
     y := startY;
     vx := (random H (n + 1) - 0.5) * 0.5;
     vy := 0.8 + random H (n + 2) * 1.5;
     size := random H (n + 3) * 2 + 1.5;
     alpha := 0.6 + random H (n + 4) * 0.4 |}.

Definition defaultStartY : Q := -10.

(** [particlesRef.current.push(createParticle(width, height))]. *)
Definition pushFresh (H : Host) (P : SnowOverlayProps) (w : World) : World :=
  {| heightMapRef := heightMapRef w;
     particlesRef := particlesRef w ++
       [createParticle H (randomCalls w) (width P) (height P) defaultStartY];
     randomCalls := (randomCalls w + 5)%nat;
     canvas := canvas w |}.

(** One turn of the initial fill: the argument [Math.random() * height] is
    evaluated before the call. *)
Definition pushInitial (H : Host) (P : SnowOverlayProps) (w : World) : World :=
  let startY := random H (randomCalls w) * height P in
  {| heightMapRef := heightMapRef w;
     particlesRef := particlesRef w ++
       [createParticle H (randomCalls w + 1) (width P) (height P) startY];
     randomCalls := (randomCalls w + 6)%nat;
     canvas := canvas w |}.

(** The fill at the head of the main effect. *)
Definition initParticles (H : Host) (P : SnowOverlayProps) (w : World) : World :=
  if Nat.eqb (length (particlesRef w)) 0
  then Nat.iter 300 (pushInitial H P) w
  else w.

(** *** 1. Compaction and melting *)

Definition decayAt (h : list Q) (i : nat) : list Q :=
  match h !! i with
  | Some v =>
      if Qgtb v 0.1
      then let v' := v - 0.02 in
           <[ i := if Qltb v' 0 then 0 else v' ]> h
      else h
  | None => h
  end.

Definition decay (width : nat) (h : list Q) : list Q :=
  foldl decayAt h (stride 4 width).

(** *** 2. Smoothing (avalanche) *)

Definition threshold : Q := 1.0.
Definition settleAmount : Q := 0.4.
Definition passes : nat := 3.

(** Body of the left-to-right loop at index [i]. *)
Definition settleRight (h : list Q) (i : nat) : list Q :=
  match h !! i, h !! (i + 1)%nat with
  | Some me, Some right_ =>
      if Qgtb me (right_ + threshold)
      then alter (fun v => v + settleAmount) (i + 1)%nat
             (alter (fun v => v - settleAmount) i h)
      else h
  | _, _ => h
  end.

(** Body of the right-to-left loop at index [i] (always [i >= 1]). *)
Definition settleLeft (h : list Q) (i : nat) : list Q :=
  match h !! i, h !! (i - 1)%nat with
  | Some me, Some left_ =>
      if Qgtb me (left_ + threshold)
      then alter (fun v => v + settleAmount) (i - 1)%nat
             (alter (fun v => v - settleAmount) i h)
      else h
  | _, _ => h
  end.

(** [for (i = 1; i < width - 1; i++)] and [for (i = width - 2; i > 0; i--)]. *)
Definition sweepRight (width : nat) (h : list Q) : list Q :=
  foldl settleRight h (seq 1 (width - 2)).

Definition sweepLeft (width : nat) (h : list Q) : list Q :=
  foldl settleLeft h (rev (seq 1 (width - 2))).

Definition smoothPass (width : nat) (h : list Q) : list Q :=
  sweepLeft width (sweepRight width h).

Definition smooth (width : nat) (h : list Q) : list Q :=
  Nat.iter passes (smoothPass width) h.

(** *** 3. Overflow check (every 20th column, stops at the first hit) *)

Definition checkOverflow (width : nat) (height : Q) (h : list Q) : bool :=
  existsb (fun i => match h !! i with
                    | Some v => Qgeb v (height - 10)
                    | None => false
                    end)
          (stride 20 width).

(** *** 4. The pile as a filled profile path *)

Definition profilePoint (height : Q) (h : list Q) (px : nat) : DrawOp :=
  match h !! px with
  | Some v => if Qgtb v 0.5
              then lineTo (inject_Z (Z.of_nat px)) (height - v)
              else lineTo (inject_Z (Z.of_nat px)) height
  | None => lineTo (inject_Z (Z.of_nat px)) height
  end.

Definition renderPile (width : nat) (height : Q) (h : list Q) : list DrawOp :=
  [beginPath; moveTo 0 height]
  ++ map (profilePoint height h) (stride 2 width)
  ++ [lineTo (inject_Z (Z.of_nat width)) height; closePath;
      fillGradient (height - 150) height].

(** *** 5. Shake / clear *)

Definition fill0 (h : list Q) : list Q := map (fun _ => 0) h.

Definition shouldReset (P : SnowOverlayProps) (shouldClearPile : bool) : bool :=
  Qgtb (motionScore P) 0.3 || shouldClearPile.

(** Steps 1 to 3 on an existing field: the relaxed field and the overflow
    signal. *)
Definition relaxField (P : SnowOverlayProps) (h : list Q) : list Q :=
  smooth (width P) (decay (width P) h).


(** Steps 1 to 5 of [update]: everything before the particles are touched. *)
Definition fieldPhase (P : SnowOverlayProps) (w : World) : World :=
  match heightMapRef w with
  | Some h =>
      let h' := relaxField P h in
      let shouldClearPile := checkOverflow (width P) (height P) h' in
      {| heightMapRef :=
           Some (if shouldReset P shouldClearPile then fill0 h' else h');
         particlesRef := particlesRef w;
         randomCalls := randomCalls w;
         canvas := renderPile (width P) (height P) h' |}
  | None =>
      {| heightMapRef := None;
         particlesRef := particlesRef w;
         randomCalls := randomCalls w;
         canvas := [] |}
  end.

(** *** 6. Falling particles *)

Definition radius : Z := 8.

(** [Math.exp(-(dist * dist) / (2 * (radius/2) * (radius/2)))]. *)
Definition falloff (H : Host) (k : Z) : Q :=
  let dist := inject_Z (Z.abs k) in
  exp H (- (dist * dist) / (2 * (inject_Z radius / 2) * (inject_Z radius / 2))).

(** Body of the deposit loop for one offset [k]. *)
Definition depositAt (H : Host) (width : nat) (pX : Z) (sz : Q)
  (h : list Q) (k : Z) : list Q :=
  let nx := (pX + k)%Z in
  if (0 <=? nx)%Z && (nx <? Z.of_nat width)%Z
  then alter (fun v => v + sz * 0.5 * falloff H k) (Z.to_nat nx) h
  else h.

(** [for (k = -radius; k <= radius; k++)]. *)
Definition offsets : list Z :=
  map (fun j => (Z.of_nat j - radius)%Z) (seq 0 (Z.to_nat (2 * radius + 1))).

Definition deposit (H : Host) (width : nat) (pX : Z) (sz : Q) (h : list Q)
  : list Q :=
  foldl (depositAt H width pX sz) h offsets.

(** The particle after integration, drift and horizontal wrap. *)
Definition moved (H : Host) (P : SnowOverlayProps) (p : SnowParticle)
  : SnowParticle :=
  let x1 := x p + vx p in
  let y1 := y p + vy p in
  let x2 := x1 + sin H (y1 * 0.02) * 0.5 in
  let x3 := if Qltb x2 0 then inject_Z (Z.of_nat (width P)) else x2 in
  let x4 := if Qgtb x3 (inject_Z (Z.of_nat (width P))) then 0 else x3 in
  {| x := x4; y := y1; vx := vx p; vy := vy p; size := size p;
     alpha := alpha p |}.

(** The collision test: the field exists, the column is inside it, and the
    particle is at least two units below the local surface. *)
Definition collides (P : SnowOverlayProps) (hm : option (list Q))
  (p : SnowParticle) : option (list Q) :=
  let pX := Math_floor (x p) in
  match hm with
  | Some h =>
      if (0 <=? pX)%Z && (pX <? Z.of_nat (width P))%Z
      then match readZ h pX with
           | Some pileHeight =>
               if Qgeb (y p) (height P - pileHeight + 2) then Some h else None
           | None => None
           end
      else None
  | None => None
  end.

(** [(hMap && hMap[pX]) ? hMap[pX] : 0]. *)
Definition currentGroundH (hm : option (list Q)) (pX : Z) : Q :=
  match hm with
  | Some h => match readZ h pX with Some v => v | None => 0 end
  | None => 0
  end.

(** Body of the particle loop at index [i]. *)
Definition stepParticle (H : Host) (P : SnowOverlayProps) (w : World) (i : nat)
  : World :=
  match particlesRef w !! i with
  | None => w
  | Some p0 =>
      let p := moved H P p0 in
      let pX := Math_floor (x p) in
      match collides P (heightMapRef w) p with
      | Some h =>
          (* deposit, recycle in place, [continue] *)
          {| heightMapRef := Some (deposit H (width P) pX (size p) h);
             particlesRef :=
               <[ i := createParticle H (randomCalls w) (width P) (height P)
                         defaultStartY ]> (particlesRef w);
             randomCalls := (randomCalls w + 5)%nat;
             canvas := canvas w |}
      | None =>
          let past := Qgtb (y p) (height P) in
          let p' := if past
                    then createParticle H (randomCalls w) (width P) (height P)
                           defaultStartY
                    else p in
          let n' := if past then (randomCalls w + 5)%nat else randomCalls w in
          {| heightMapRef := heightMapRef w;
             particlesRef := <[ i := p' ]> (particlesRef w);
             randomCalls := n';
             canvas :=
               if Qltb (y p') (height P - currentGroundH (heightMapRef w) pX)
               then canvas w ++ [fillCircle (x p') (y p') (size p') (alpha p')]
               else canvas w |}
      end
  end.

(** [for (i = length - 1; i >= 0; i--)]. *)
Definition stepParticles (H : Host) (P : SnowOverlayProps) (w : World) : World :=
  foldl (stepParticle H P) w (rev (seq 0 (length (particlesRef w)))).

(** Replenish: at most one new particle in a frame. *)
Definition replenish (H : Host) (P : SnowOverlayProps) (w : World) : World :=
  if isActive P && Nat.ltb (length (particlesRef w)) 400
  then pushFresh H P w
  else w.

(** One frame. *)
Definition update (H : Host) (P : SnowOverlayProps) (w : World) : World :=
  let w1 := fieldPhase P w in
  if negb (isActive P) && Nat.eqb (length (particlesRef w1)) 0
  then w1
  else stepParticles H P (replenish H P w1).

(** *** The component: renders, effects and animation frames *)

Record Component := {
  props : option SnowOverlayProps;   (* the props the running loop closed over *)
  world : World
}.

Definition mounting : Component :=
  {| props := None;
     world := {| heightMapRef := None; particlesRef := [];
                 randomCalls := 0; canvas := [] |} |}.

Definition sameSize (P P' : SnowOverlayProps) : bool :=
  Nat.eqb (width P) (width P') && Qeq_bool (height P) (height P').

Definition sameProps (P P' : SnowOverlayProps) : bool :=
  Bool.eqb (isActive P) (isActive P') && sameSize P P'
  && Qeq_bool (motionScore P) (motionScore P').

(** The height-map effect: a fresh all-zero array of [width] cells. *)
Definition resetHeightMap (P : SnowOverlayProps) (w : World) : World :=
  {| heightMapRef := Some (replicate (width P) 0);
     particlesRef := particlesRef w;
     randomCalls := randomCalls w;
     canvas := canvas w |}.

(** The main effect: the fill, then the first [update()] of the new loop. *)
Definition mainEffect (H : Host) (P : SnowOverlayProps) (w : World) : World :=
  update H P (initParticles H P w).

(** A render with props [P']: an effect runs on mount and whenever one of
    its dependencies changed, the height-map effect before the main one. *)
Definition render (H : Host) (P' : SnowOverlayProps) (c : Component) : Component :=
  match props c with
  | None =>
      {| props := Some P';
         world := mainEffect H P' (resetHeightMap P' (world c)) |}
  | Some P =>
      if sameProps P P' then c
      else
        let w1 := if sameSize P P' then world c
                  else resetHeightMap P' (world c) in
        {| props := Some P'; world := mainEffect H P' w1 |}
  end.

(** An animation frame of the running loop. *)
Definition frame (H : Host) (c : Component) : Component :=
  match props c with
  | None => c
  | Some P => {| props := Some P; world := update H P (world c) |}
  end.

Inductive Event := Render (P : SnowOverlayProps) | Frame.

Definition react (H : Host) (c : Component) (e : Event) : Component :=
  match e with
  | Render P => render H P c
  | Frame => frame H c
  end.

Definition run (H : Host) (es : list Event) : Component :=
  foldl (react H) mounting es.

(** *** Predicates used in the statements about the simulator *)

(** [transfers a src dst h h']: [h'] is [h] with [a] moved from cell [src]
    to cell [dst], every other cell untouched. *)
Definition transfers (a : Q) (src dst : nat) (h h' : list Q) : Prop :=
  exists u v : Q,
    h !! src = Some u /\ h !! dst = Some v /\
    h' !! src = Some (u - a) /\ h' !! dst = Some (v + a) /\
    forall j : nat, j <> src -> j <> dst -> h' !! j = h !! j.

Definition nonneg (h : list Q) : Prop := Forall (fun v => 0 <= v) h.

Definition cellsNonneg (w : World) : Prop :=
  match heightMapRef w with
  | Some h => nonneg h
  | None => True
  end.

Definition sizesNonneg (w : World) : Prop :=
  Forall (fun p => 0 <= size p) (particlesRef w).


(** The particle is a fresh spawn at the top. *)
Definition fresh (H : Host) (P : SnowOverlayProps) (p : SnowParticle) : Prop :=
  exists n : nat, p = createParticle H n (width P) (height P) defaultStartY.


Definition poolSize (c : Component) : nat := length (particlesRef (world c)).

(** Before the first render the pool is empty; from then on it holds
    between 300 and 400 particles. *)
Definition poolOk (c : Component) : Prop :=
  match props c with
  | None => poolSize c = 0%nat
  | Some _ => (300 <= poolSize c <= 400)%nat
  end.

(** The cells of the field and the sizes of the particles are
    non-negative. *)
Definition healthy (w : World) : Prop := cellsNonneg w /\ sizesNonneg w.

End Snow.

(** ** Snow overlay of src/components/SnowOverlay.tsx

    The variant that freezes landed flakes on an off-screen canvas.  It
    shares the particle and props records with the simulator above; its
    particles fall more slowly, it has no decay or smoothing, it clears
    before it draws, and it empties the pool when the effect is inactive. *)

Module SnowAccumulated.
Local Open Scope Q_scope.
Import Snow.

Inductive DrawOp :=
| drawAccumulated                        (* ctx.drawImage(accumulatedCanvas, 0, 0) *)
| fillCircle (cx cy radius a : Q).

Record World := {
  accumulatedCanvasRef : option (list DrawOp);   (* flakes frozen so far *)
  heightMapRef : option (list Q);
  particlesRef : list SnowParticle;
  randomCalls : nat;
  canvas : list DrawOp
}.

Definition createParticle (H : Host) (n : nat) (w : nat) (h : Q) (startY : Q)
  : SnowParticle :=
  {| x := random H n * inject_Z (Z.of_nat w);
     y := startY;
     vx := (random H (n + 1) - 0.5) * 0.5;
     vy := 0.4 + random H (n + 2) * 1.2;
     size := random H (n + 3) * 2 + 1.5;
     alpha := 0.8 + random H (n + 4) * 0.2 |}.

(** Overflow: every 10th column, margin 20. *)
Definition checkOverflow (width : nat) (height : Q) (h : list Q) : bool :=
  existsb (fun i => match h !! i with
                    | Some v => Qgeb v (height - 20)
                    | None => false
                    end)
          (stride 10 width).

(** The head of [update]: overflow check, shake / clear, draw the frozen
    layer. *)
Definition clearPhase (P : SnowOverlayProps) (w : World) : World :=
  let shouldClearPile :=
    match heightMapRef w with
    | Some h => checkOverflow (width P) (height P) h
    | None => false
    end in
  let clear := Qgtb (motionScore P) 0.3 || shouldClearPile in
  let acc := if clear then (fun _ => []) <$> accumulatedCanvasRef w
             else accumulatedCanvasRef w in
  {| accumulatedCanvasRef := acc;
     heightMapRef := if clear then fill0 <$> heightMapRef w
                     else heightMapRef w;
     particlesRef := particlesRef w;
     randomCalls := randomCalls w;
     canvas := match acc with Some _ => [drawAccumulated] | None => [] end |}.

Definition radius : Z := 2.

Definition depositAt (width : nat) (pX : Z) (sz : Q) (h : list Q) (k : Z)
  : list Q :=
  let nx := (pX + k)%Z in
  if (0 <=? nx)%Z && (nx <? Z.of_nat width)%Z
  then alter (fun v => v + sz * 0.5) (Z.to_nat nx) h
  else h.

Definition offsets : list Z :=
  map (fun j => (Z.of_nat j - radius)%Z) (seq 0 (Z.to_nat (2 * radius + 1))).

Definition deposit (width : nat) (pX : Z) (sz : Q) (h : list Q) : list Q :=
  foldl (depositAt width pX sz) h offsets.

(** The particle touches the pile: [p.y >= groundY - p.size]. *)
Definition collides (P : SnowOverlayProps) (hm : option (list Q))
  (p : SnowParticle) : option (list Q) :=
  let pX := Math_floor (x p) in
  match hm with
  | Some h =>
      if (0 <=? pX)%Z && (pX <? Z.of_nat (width P))%Z
      then match readZ h pX with
           | Some pileHeight =>
               if Qgeb (y p) (height P - pileHeight - size p)
               then Some h else None
           | None => None
           end
      else None
  | None => None
  end.

Definition stepParticle (H : Host) (P : SnowOverlayProps) (w : World) (i : nat)
  : World :=
  match particlesRef w !! i with
  | None => w
  | Some p0 =>
      let p := moved H P p0 in
      let pX := Math_floor (x p) in
      match collides P (heightMapRef w) p with
      | Some h =>
          {| accumulatedCanvasRef :=
               (fun ops => ops ++ [fillCircle (x p) (y p) (size p) (alpha p)])
               <$> accumulatedCanvasRef w;
             heightMapRef := Some (deposit (width P) pX (size p) h);
             particlesRef :=
               <[ i := createParticle H (randomCalls w) (width P) (height P)
                         defaultStartY ]> (particlesRef w);
             randomCalls := (randomCalls w + 5)%nat;
             canvas := canvas w |}
      | None =>
          let past := Qgtb (y p) (height P) in
          let p' := if past
                    then createParticle H (randomCalls w) (width P) (height P)
                           defaultStartY
                    else p in
          {| accumulatedCanvasRef := accumulatedCanvasRef w;
             heightMapRef := heightMapRef w;
             particlesRef := <[ i := p' ]> (particlesRef w);
             randomCalls := if past then (randomCalls w + 5)%nat
                            else randomCalls w;
             canvas := canvas w
                       ++ [fillCircle (x p') (y p') (size p') (alpha p')] |}
      end
  end.

Definition stepParticles (H : Host) (P : SnowOverlayProps) (w : World) : World :=
  foldl (stepParticle H P) w (rev (seq 0 (length (particlesRef w)))).

Definition replenish (H : Host) (P : SnowOverlayProps) (w : World) : World :=
  if Nat.ltb (length (particlesRef w)) 400
  then {| accumulatedCanvasRef := accumulatedCanvasRef w;
          heightMapRef := heightMapRef w;
          particlesRef := particlesRef w ++
            [createParticle H (randomCalls w) (width P) (height P)
               defaultStartY];
          randomCalls := (randomCalls w + 5)%nat;
          canvas := canvas w |}
  else w.

(** One frame. *)
Definition update (H : Host) (P : SnowOverlayProps) (w : World) : World :=
  let w1 := clearPhase P w in
  if negb (isActive P)
  then {| accumulatedCanvasRef := accumulatedCanvasRef w1;
          heightMapRef := heightMapRef w1;
          particlesRef := [];
          randomCalls := randomCalls w1;
          canvas := canvas w1 |}
  else stepParticles H P (replenish H P w1).

End SnowAccumulated.

(** ** The frozen layer of the overlay of src/components/SnowOverlay.tsx *)

Module SnowLayer.
Local Open Scope Q_scope.
Import Snow SnowAccumulated.

(** The frame clears the frozen layer and the field: the motion score is
    above 0.3 or a sampled column reached the top margin. *)
Definition clears (P : SnowOverlayProps) (w : World) : bool :=
  Qgtb (motionScore P) 0.3
  || match heightMapRef w with
     | Some h => checkOverflow (width P) (height P) h
     | None => false
     end.

(** A flake frozen on the layer. *)
Definition isFlake (op : DrawOp) : Prop :=
  exists cx cy r a : Q, op = fillCircle cx cy r a.

(** The flake a landing particle leaves on the frozen layer. *)
Definition flake (p : SnowParticle) : DrawOp :=
  fillCircle (x p) (y p) (size p) (alpha p).

(** The particle touches the pile of the field [hm]. *)
Definition lands (P : SnowOverlayProps) (hm : option (list Q))
  (p : SnowParticle) : bool :=
  match collides P hm p with Some _ => true | None => false end.

(** No height without a frozen flake: while nothing is painted on the
    frozen layer, the field is zero in every column. *)
Definition flat (w : World) : Prop :=
  accumulatedCanvasRef w = Some [] ->
  match heightMapRef w with
  | Some h => Forall (fun v => v = 0) h
  | None => True
  end.

End SnowLayer.

(** ** Further predicates on the snow simulator *)

Module SnowShapes.
Local Open Scope Q_scope.
Import Snow.

(** What the decay makes of a sampled cell. *)
Definition decayed (v : Q) : Q := if Qgtb v 0.1 then v - 0.02 else v.

(** The field exists and has one cell per column of the surface. *)
Definition fieldFits (P : SnowOverlayProps) (w : World) : Prop :=
  exists h : list Q, heightMapRef w = Some h /\ length h = width P.

(** The same of a component, once it has rendered. *)
Definition fitted (c : Component) : Prop :=
  match props c with
  | Some P => fieldFits P (world c)
  | None => True
  end.

(** The particle is inside the surface horizontally and not below its
    bottom edge. *)
Definition onScreen (P : SnowOverlayProps) (p : SnowParticle) : Prop :=
  0 <= x p /\ x p <= inject_Z (Z.of_nat (width P)) /\ y p <= height P.

(** The loop body recycles the particle it has just moved: the particle
    touches the pile, or it is past the bottom edge. *)
Definition recycles (P : SnowOverlayProps) (hm : option (list Q))
  (p : SnowParticle) : bool :=
  match collides P hm p with Some _ => true | None => false end
  || Qgtb (y p) (height P).

(** No cell exceeds a neighbour by more than the slope threshold. *)
Definition settled (h : list Q) : Prop :=
  forall (i j : nat) (u v : Q),
    (j = i + 1 \/ i = j + 1)%nat ->
    h !! i = Some u -> h !! j = Some v -> u <= v + threshold.

End SnowShapes.

(** ** Frost mask simulator: strokes, drips and the mask canvas *)

Module Frost.
Local Open Scope Q_scope.

Record Drip := {
  x : Q; y : Q;
  vx : Q; vy : Q;
  size : Q;
  life : Q
}.

(** Drawing calls made on the mask canvas's context, with the alpha of the
    [strokeStyle] / [fillStyle] in force when the call is made. *)
Inductive MaskOp :=
| stroke (from to : Types.Point) (lineWidth : Q) (a : Q)   (* round caps and joins *)
| fillArc (cx cy radius : Q) (a : Q).

(** The refs of the component.  [maskCanvas] is the list of calls made on
    the mask since it was last cleared, oldest first. *)
Record State := {
  maskCanvas : list MaskOp;
  dripsRef : list Drip;
  lastPointRef : option Types.Point;
  randomCalls : nat
}.

Definition brushSize : Q := 12.

(** Effect 2: (re)initialise the mask on mount, resize or [resetKey] change. *)
Definition resetEffect (s : State) : State :=
  {| maskCanvas := [];
     dripsRef := [];
     lastPointRef := None;
     randomCalls := randomCalls s |}.

(** The drip pushed when a stroke ends; [n] random calls were made before
    the object literal is evaluated. *)
Definition newDrip (random : nat -> Q) (n : nat) (last : Types.Point) : Drip :=
  {| x := Types.x last + (random n - 0.5) * brushSize;
     y := Types.y last;
     vx := 0;
     vy := 0.5 + random (n + 1)%nat * 1.5;
     size := 1.0 + random (n + 2)%nat * 1.5;
     life := 20 + random (n + 3)%nat * 30 |}.

(** Effect 4: runs whenever [drawingPoint] changes. *)
Definition drawingEffect (random : nat -> Q) (drawingPoint : option Types.Point)
  (s : State) : State :=
  match drawingPoint with
  | Some pt =>
      let op := match lastPointRef s with
                | Some lp => stroke lp pt (brushSize * 2) 1
                | None => fillArc (Types.x pt) (Types.y pt) brushSize 1
                end in
      {| maskCanvas := maskCanvas s ++ [op];
         dripsRef := dripsRef s;
         lastPointRef := Some pt;
         randomCalls := randomCalls s |}
  | None =>
      match lastPointRef s with
      | Some lp =>
          if Qltb (random (randomCalls s)) 0.4
          then {| maskCanvas := maskCanvas s;
                  dripsRef := dripsRef s
                              ++ [newDrip random (randomCalls s + 1)%nat lp];
                  lastPointRef := None;
                  randomCalls := (randomCalls s + 5)%nat |}
          else {| maskCanvas := maskCanvas s;
                  dripsRef := dripsRef s;
                  lastPointRef := None;
                  randomCalls := (randomCalls s + 1)%nat |}
      | None =>
          {| maskCanvas := maskCanvas s;
             dripsRef := dripsRef s;
             lastPointRef := None;
             randomCalls := randomCalls s |}
      end
  end.

(** Body of the drip loop of [render] at index [i]: move, wiggle, stamp the
    trail on the mask, age, and splice the drip out when it is done. *)
Definition stepDrip (random : nat -> Q) (height : Q) (s : State) (i : nat)
  : State :=
  match dripsRef s !! i with
  | None => s
  | Some d =>
      let x1 := x d + vx d in
      let y1 := y d + vy d in
      let wiggle := Qltb (random (randomCalls s)) 0.1 in
      let vx1 := if wiggle
                 then (random (randomCalls s + 1)%nat - 0.5) * 0.5
                 else vx d in
      let n1 := if wiggle then (randomCalls s + 2)%nat
                else (randomCalls s + 1)%nat in
      let life1 := life d - 1 in
      let d1 := {| x := x1; y := y1; vx := vx1; vy := vy d;
                   size := size d; life := life1 |} in
      {| maskCanvas := maskCanvas s ++ [fillArc x1 y1 (size d) 0.8];
         dripsRef := if Qle_bool life1 0 || Qgtb y1 height
                     then delete i (dripsRef s)
                     else <[ i := d1 ]> (dripsRef s);
         lastPointRef := lastPointRef s;
         randomCalls := n1 |}
  end.

(** Part A of [render] (an animation frame); part B only reads the mask,
    cutting it out of the freshly drawn fog. *)
Definition render (random : nat -> Q) (height : Q) (s : State) : State :=
  foldl (stepDrip random height) s (rev (seq 0 (length (dripsRef s)))).

Inductive Event :=
| Reset                                   (* mount, resize, resetKey *)
| Draw (drawingPoint : option Types.Point)      (* drawingPoint changed *)
| Frame.                                  (* animation frame *)

Definition react (random : nat -> Q) (height : Q) (s : State) (e : Event)
  : State :=
  match e with
  | Reset => resetEffect s
  | Draw dp => drawingEffect random dp s
  | Frame => render random height s
  end.

Definition initial : State :=
  {| maskCanvas := []; dripsRef := []; lastPointRef := None;
     randomCalls := 0 |}.

(** *** What the mask canvas holds

    The mask context keeps the default compositing mode, source-over: a
    draw of alpha [src] over a pixel of alpha [dst] leaves
    [src + dst * (1 - src)].  The alpha a call offers to a pixel is its
    style's alpha times the share of the pixel the shape covers, which the
    rasteriser decides. *)

Definition Pixel : Type := (Z * Z)%type.

Definition opAlpha (op : MaskOp) : Q :=
  match op with
  | stroke _ _ _ a => a
  | fillArc _ _ _ a => a
  end.

Definition sourceOver (dst src : Q) : Q := src + dst * (1 - src).

Definition paint (coverage : MaskOp -> Pixel -> Q) (px : Pixel)
  (dst : Q) (op : MaskOp) : Q :=
  sourceOver dst (coverage op px * opAlpha op).

(** Accumulated erasure opacity of a pixel of the mask. *)
Definition erasure (coverage : MaskOp -> Pixel -> Q) (ops : list MaskOp)
  (px : Pixel) : Q :=
  foldl (paint coverage px) 0 ops.

(** A rasteriser without anti-aliasing: a pixel is covered when its centre
    lies in the shape (a disc, or a segment thickened to [lineWidth] with
    round caps). *)
Definition sq (a : Q) : Q := a * a.

Definition inDisc (cx cy radius : Q) (px : Pixel) : bool :=
  Qle_bool (sq (inject_Z (fst px) + 0.5 - cx) + sq (inject_Z (snd px) + 0.5 - cy))
           (sq radius).

Definition hardCoverage (op : MaskOp) (px : Pixel) : Q :=
  match op with
  | fillArc cx cy radius _ => if inDisc cx cy radius px then 1 else 0
  | stroke a b lineWidth _ =>
      let ux := Types.x b - Types.x a in
      let uy := Types.y b - Types.y a in
      let len2 := sq ux + sq uy in
      let t := if Qeq_bool len2 0 then 0
               else Math_max 0 (Math_min 1
                      (((inject_Z (fst px) + 0.5 - Types.x a) * ux
                        + (inject_Z (snd px) + 0.5 - Types.y a) * uy) / len2)) in
      if inDisc (Types.x a + t * ux) (Types.y a + t * uy) (lineWidth / 2) px
      then 1 else 0
  end.

(** *** Predicates used in the statements about the mask *)

(** Every call the simulator makes on the mask uses an alpha in [0, 1]
    (1 for strokes and dots, 0.8 for drip trails). *)
Definition alphaOk (op : MaskOp) : Prop := 0 <= opAlpha op /\ opAlpha op <= 1.

(** The state after a sequence of events, from the initial state. *)
Definition run (random : nat -> Q) (height : Q) (es : list Event) : State :=
  foldl (react random height) initial es.

(** The calls a gesture through the points [p], [rest] makes on the mask:
    the start-of-stroke dot, then one stroke per further point, from the
    point before it. *)
Fixpoint strokes (p : Types.Point) (rest : list Types.Point) : list MaskOp :=
  match rest with
  | [] => []
  | q :: rest' => stroke p q (brushSize * 2) 1 :: strokes q rest'
  end.

Definition strokeChain (p : Types.Point) (rest : list Types.Point)
  : list MaskOp :=
  fillArc (Types.x p) (Types.y p) brushSize 1 :: strokes p rest.

(** The trail stamp a drip leaves in a frame: at its position after the
    move. *)
Definition stamp (d : Drip) : MaskOp :=
  fillArc (x d + vx d) (y d + vy d) (size d) 0.8.

(** [d'] is what a frame made of the drip [d]: moved by its velocity, one
    unit of life older; the horizontal velocity may have been redrawn. *)
Definition steppedFrom (d d' : Drip) : Prop :=
  x d' = x d + vx d /\ y d' = y d + vy d /\ vy d' = vy d /\
  size d' = size d /\ life d' = life d - 1.

(** The drips a frame leaves, seen from the drips it found. *)
Definition aged (height : Q) (before after : list Drip) : Prop :=
  (length after <= length before)%nat /\
  Forall (fun d' => (exists d, d ∈ before /\ steppedFrom d d') /\
                    0 < life d' /\ y d' <= height) after.

End Frost.

(** ** Sparkler overlay (second component of src/components/SnowOverlay.tsx) *)

Module Sparkler.
Local Open Scope Q_scope.
Import FireworksLoop.

(** The colour string [hsl(h, s%, l%)] of a particle, as its three
    numbers. *)
Inductive Color := hsl (hue saturation lightness : Q).

(** [Particle] of types.ts. *)
Record Particle := {
  x : Q; y : Q; vx : Q; vy : Q;
  life : Q; maxLife : Q;
  color : Color;
  size : Q
}.

Inductive DrawOp :=
| coreGlow (cx cy radius flickerScale : Q)
| spark (cx cy radius : Q) (c : Color) (a : Q).

Record World := {
  particlesRef : list Particle;
  randomCalls : nat;
  canvas : list DrawOp
}.

(** [createParticle(x, y)] after [n] draws: the particle and the number of
    draws made when it returns (white sparks draw no colour numbers). *)
Definition createParticle (H : Host) (n : nat) (px py : Q) : Particle * nat :=
  let angle := random H n * PI H * 2 in
  let speed := random H (n + 1) * 4 + 1 in
  let lf := random H (n + 2) * 30 + 20 in
  let rand := random H (n + 3) in
  let '(col, n') :=
    if Qgtb rand 0.9
    then (hsl 0 0 100, (n + 4)%nat)
    else if Qgtb rand 0.3
    then (hsl (40 + random H (n + 4) * 15) 100 (60 + random H (n + 5) * 30),
          (n + 6)%nat)
    else (hsl (20 + random H (n + 4) * 20) 100 (50 + random H (n + 5) * 20),
          (n + 6)%nat) in
  ({| x := px; y := py;
      vx := cos H angle * speed;
      vy := sin H angle * speed - 1;
      life := lf; maxLife := lf;
      color := col;
      size := random H n' * 3.5 + 0.5 |},
   S n').

Definition particlesToEmit : nat := 12.

(** One turn of the emitter loop. *)
Definition emitOne (H : Host) (target : Types.Point) (w : World) : World :=
  let offsetX := (random H (randomCalls w) - 0.5) * 1.5 in
  let offsetY := (random H (randomCalls w + 1) - 0.5) * 1.5 in
  let '(p, n') := createParticle H (randomCalls w + 2)
                    (Types.x target + offsetX) (Types.y target + offsetY) in
  {| particlesRef := particlesRef w ++ [p];
     randomCalls := n';
     canvas := canvas w |}.

(** The emitter and the flickering core glow. *)
Definition emit (H : Host) (isActive : bool) (targetPosition : option Types.Point)
  (w : World) : World :=
  match isActive, targetPosition with
  | true, Some currentEmitPos =>
      let w1 := Nat.iter particlesToEmit (emitOne H currentEmitPos) w in
      let flickerScale := 0.8 + random H (randomCalls w1) * 0.4 in
      {| particlesRef := particlesRef w1;
         randomCalls := S (randomCalls w1);
         canvas := canvas w1
                   ++ [coreGlow (Types.x currentEmitPos) (Types.y currentEmitPos)
                         (25 * flickerScale) flickerScale] |}
  | _, _ => w
  end.

(** The physics of one particle in one frame, up to [p.life--]. *)
Definition age (p : Particle) : Particle :=
  {| x := x p + vx p;
     y := y p + vy p;
     vx := vx p * 0.92;
     vy := (vy p + 0.15) * 0.92;
     life := life p - 1;
     maxLife := maxLife p;
     color := color p;
     size := size p |}.

Definition dead (p : Particle) : bool := Qle_bool (life p) 0.

Definition drawParticle (p : Particle) : DrawOp :=
  spark (x p) (y p) (size p) (color p) (life p / maxLife p).

Definition stepParticle (w : World) (i : nat) : World :=
  match particlesRef w !! i with
  | None => w
  | Some p0 =>
      let p := age p0 in
      {| particlesRef := if dead p then delete i (particlesRef w)
                         else <[ i := p ]> (particlesRef w);
         randomCalls := randomCalls w;
         canvas := if dead p then canvas w else canvas w ++ [drawParticle p] |}
  end.

Definition stepParticles (w : World) : World :=
  foldl stepParticle w (rev (seq 0 (length (particlesRef w)))).

(** One frame, for the props the running loop closed over. *)
Definition update (H : Host) (isActive : bool)
  (targetPosition : option Types.Point) (w : World) : World :=
  stepParticles
    (emit H isActive targetPosition
       {| particlesRef := particlesRef w;
          randomCalls := randomCalls w;
          canvas := [] |}).

Definition survive (p : Particle) : option Particle :=
  if dead (age p) then None else Some (age p).

(** A spark just emitted around [target]. *)
Definition emittedAt (target : Types.Point) (p : Particle) : Prop :=
  Types.x target - 0.75 <= x p /\ x p < Types.x target + 0.75 /\
  Types.y target - 0.75 <= y p /\ y p < Types.y target + 0.75 /\
  life p = maxLife p /\ 20 <= life p /\ life p < 50 /\
  0.5 <= size p /\ size p < 4.

End Sparkler.

(** ** The application shell: motion score and pointer handlers *)

Module App.
Local Open Scope Q_scope.

(** A number that may be [NaN]. *)
Inductive Number := num (q : Q) | NaN.

(** *** Motion detection in [captureAndAnalyze]

    A frame is the byte array of [getImageData] (values 0 to 255). *)

(** [Math.abs(data[i] - prev[i])] for [i = 0, 32, 64, ...]. *)
Definition sampleDiff (data prev : list Z) (i : nat) : Z :=
  match data !! i, prev !! i with
  | Some a, Some b => Z.abs (a - b)
  | _, _ => 0%Z
  end.

Definition diffSum (data prev : list Z) : Z :=
  foldl (fun acc i => (acc + sampleDiff data prev i)%Z) 0%Z
        (stride 32 (length data)).

(** [Math.min(avgDiff / 30, 1.0)], with [avgDiff = diffSum / (length / 32)];
    an empty frame divides zero by zero. *)
Definition scoreOf (data prev : list Z) : Number :=
  if Nat.eqb (length data) 0 then NaN
  else
    let pixelCount := inject_Z (Z.of_nat (length data)) / 32 in
    let avgDiff := inject_Z (diffSum data prev) / pixelCount in
    num (Math_min (avgDiff / 30) 1.0).

(** The motion part of one analysis: the score passed to [setMotionScore],
    if any, and the new value of [prevFrameDataRef]. *)
Definition analyzeMotion (prevFrameDataRef : option (list Z)) (data : list Z)
  : option Number * option (list Z) :=
  let update :=
    match prevFrameDataRef with
    | Some prev => if Nat.eqb (length prev) (length data)
                   then Some (scoreOf data prev) else None
    | None => None
    end in
  (update, Some data).

(** *** Pointer handlers *)

Record Pointer := {
  isFrosty : bool;
  isDrawing : bool;
  drawingPoint : option Types.Point
}.

Definition initialPointer : Pointer :=
  {| isFrosty := false; isDrawing := false; drawingPoint := None |}.

Definition handleStart (clientX clientY : Q) (s : Pointer) : Pointer :=
  if negb (isFrosty s) then s
  else {| isFrosty := isFrosty s; isDrawing := true;
          drawingPoint := Some {| Types.x := clientX; Types.y := clientY |} |}.

Definition handleMove (clientX clientY : Q) (s : Pointer) : Pointer :=
  if negb (isFrosty s) || negb (isDrawing s) then s
  else {| isFrosty := isFrosty s; isDrawing := isDrawing s;
          drawingPoint := Some {| Types.x := clientX; Types.y := clientY |} |}.

Definition handleEnd (s : Pointer) : Pointer :=
  {| isFrosty := isFrosty s; isDrawing := false; drawingPoint := None |}.

(** The frost button: [setIsFrosty(!isFrosty); setDrawingPoint(null)]. *)
Definition toggleFrost (s : Pointer) : Pointer :=
  {| isFrosty := negb (isFrosty s); isDrawing := isDrawing s;
     drawingPoint := None |}.

Inductive PointerInput :=
| Start (clientX clientY : Q)      (* mouse down, touch start *)
| Move (clientX clientY : Q)       (* mouse move, touch move *)
| End_.                            (* mouse up or leave, touch end *)

Inductive Input :=
| pointer (i : PointerInput)
| ToggleFrost.

Definition handlePointer (s : Pointer) (i : PointerInput) : Pointer :=
  match i with
  | Start cx cy => handleStart cx cy s
  | Move cx cy => handleMove cx cy s
  | End_ => handleEnd s
  end.

Definition handle (s : Pointer) (i : Input) : Pointer :=
  match i with
  | pointer i' => handlePointer s i'
  | ToggleFrost => toggleFrost s
  end.

(** The frost overlay under the shell, between two presses of the frost
    button (the overlay is mounted while [isFrosty] holds and keeps its
    refs until the button unmounts it).  After a pointer input is handled,
    the overlay's drawing effect runs when [drawingPoint] changed, that is
    when a handler stored a new point object, or stored [null] over a
    point. *)
Definition pointChanged (before after : Pointer) (i : PointerInput) : bool :=
  match drawingPoint after with
  | Some _ => match i with
              | Start _ _ => isFrosty before
              | Move _ _ => isFrosty before && isDrawing before
              | End_ => false
              end
  | None => match drawingPoint before with Some _ => true | None => false end
  end.

Definition drive (random : nat -> Q) (st : Pointer * Frost.State)
  (i : PointerInput) : Pointer * Frost.State :=
  let s' := handlePointer (fst st) i in
  (s', if pointChanged (fst st) s' i
       then Frost.drawingEffect random (drawingPoint s') (snd st)
       else snd st).

(** The inputs of one gesture: press at [p], move through [rest],
    release. *)
Definition gesture (p : Types.Point) (rest : list Types.Point)
  : list PointerInput :=
  Start (Types.x p) (Types.y p)
  :: map (fun q => Move (Types.x q) (Types.y q)) rest ++ [End_].

End App.

(** ** The recognition service: choosing among the detections *)

Module Gemini.
Local Open Scope Q_scope.

(** A detection as the response schema types it; any property may be
    missing. *)
Record TopPoint := { x : option Q; y : option Q }.

Record Detection := {
  label : option string;
  confidence : option Q;
  top_point : option TopPoint;
  effect : option string
}.

(** What came back: no text, text that does not parse (or a failed call),
    JSON that is not an array, or an array of detections. *)
Inductive Response :=
| noText
| failure
| notArray
| detections (data : list Detection).

(** The filter of [analyzeFrame]: the tip is there and both coordinates
    are numbers. *)
Definition valid (item : Detection) : bool :=
  match top_point item with
  | Some tp => match x tp, y tp with
               | Some _, Some _ => true
               | _, _ => false
               end
  | None => false
  end.

(** [prev.confidence > current.confidence]; a missing confidence compares
    as false. *)
Definition moreConfident (prev current : Detection) : bool :=
  match confidence prev, confidence current with
  | Some a, Some b => Qgtb a b
  | _, _ => false
  end.

(** The callback of the reduction. *)
Definition choose (prev current : Detection) : Detection :=
  if moreConfident prev current then prev else current.

(** [validItems.reduce((prev, current) => ... ? prev : current)]. *)
Definition pick (validItems : list Detection) : option Detection :=
  match validItems with
  | [] => None
  | first :: others => Some (foldl choose first others)
  end.

Definition analyzeFrame (response : Response) : option Detection :=
  match response with
  | detections data =>
      if Nat.ltb 0 (length data)
      then pick (List.filter valid data)
      else None
  | _ => None
  end.

End Gemini.

(** ** Sample inputs used by the examples below *)

Module Samples.
Local Open Scope Q_scope.

(** A firework particle of the first palette, just spawned. *)
Definition spark : Fireworks.FireworkParticle :=
  {| Fireworks.x := 320; Fireworks.y := 240;
     Fireworks.vx := 3; Fireworks.vy := -4;
     Fireworks.history := [];
     Fireworks.life := 50; Fireworks.maxLife := 50;
     Fireworks.size := 2;
     Fireworks.layer := Fireworks.mid_layer;
     Fireworks.palette :=
       {| Fireworks.core := {| Fireworks.r := 157; Fireworks.g := 0; Fireworks.b := 255 |};
          Fireworks.mid := {| Fireworks.r := 123; Fireworks.g := 131; Fireworks.b := 255 |};
          Fireworks.outer := {| Fireworks.r := 255; Fireworks.g := 215; Fireworks.b := 0 |} |} |}.

(** Rational stand-ins for the host's functions, used to evaluate frames on
    concrete inputs.  [sampleSin] is Bhaskara's approximation of the sine
    after reduction to one period (with 355/113 for pi), clamped to
    [-1, 1]; [sampleExp] is the degree-6 Taylor polynomial of the
    exponential, inverted for negative arguments. *)
Definition samplePi : Q := 355 # 113.

Definition sampleSin (q : Q) : Q :=
  let period := 2 * samplePi in
  let t := q - period * inject_Z (Qfloor (q / period)) in
  let bhaskara (u : Q) : Q :=
    16 * u * (samplePi - u)
    / (5 * samplePi * samplePi - 4 * u * (samplePi - u)) in
  Math_max (-1) (Math_min 1
    (if Qle_bool t samplePi then bhaskara t else - bhaskara (t - samplePi))).

Definition taylorExp (t : Q) : Q :=
  1 + t * (1 + t * (1 # 2) * (1 + t * (1 # 3) * (1 + t * (1 # 4)
      * (1 + t * (1 # 5) * (1 + t * (1 # 6)))))).

Definition sampleExp (q : Q) : Q :=
  if Qle_bool q 0 then / taylorExp (- q) else taylorExp q.

(** A random source that replays a finite list of draws in a cycle. *)
Definition randomOf (draws : list Q) (n : nat) : Q :=
  match draws !! (n mod length draws)%nat with
  | Some v => v
  | None => 0.5
  end.

Definition sampleDraws : list Q :=
  [0.5; 0.25; 0.75; 0.1; 0.9; 0.3; 0.6; 0.05; 0.95; 0.4; 0.8].

Definition sampleHost : Snow.Host :=
  {| Snow.sin := sampleSin; Snow.exp := sampleExp;
     Snow.random := randomOf sampleDraws |}.

(** Props and worlds of the snow overlay. *)
Definition calmProps : Snow.SnowOverlayProps :=
  {| Snow.isActive := true; Snow.width := 100; Snow.height := 600;
     Snow.motionScore := 0 |}.


(** A random source that starts with the draws of [prefix] and goes on
    with the cycle of [draws]. *)
Definition randomWith (prefix draws : list Q) (n : nat) : Q :=
  match prefix !! n with
  | Some v => v
  | None => randomOf draws n
  end.

(** A random source whose first draws place the first particle of the
    initial fill just above the bottom edge (y = 599.94 of 600), in column
    50, with a fast fall (vy = 2.225). *)
Definition shakyDraws : list Q := [0.9999; 0.5; 0.5; 0.95; 0.3; 0.7].

Definition shakyHost : Snow.Host :=
  {| Snow.sin := sampleSin; Snow.exp := sampleExp;
     Snow.random := randomWith shakyDraws sampleDraws |}.

(** A 40-column field holding a level pile 20 units deep, two particles in
    mid-air, and a motion score above the reset threshold. *)
Definition plateauProps : Snow.SnowOverlayProps :=
  {| Snow.isActive := true; Snow.width := 40; Snow.height := 600;
     Snow.motionScore := 0.5 |}.

Definition plateauWorld : Snow.World :=
  {| Snow.heightMapRef := Some (replicate 40 20);
     Snow.particlesRef :=
       [ {| Snow.x := 10; Snow.y := 100; Snow.vx := 0.1; Snow.vy := 1;
            Snow.size := 2; Snow.alpha := 0.8 |};
         {| Snow.x := 30; Snow.y := 250; Snow.vx := -0.1; Snow.vy := 2;
            Snow.size := 3; Snow.alpha := 0.9 |} ];
     Snow.randomCalls := 0;
     Snow.canvas := [] |}.

(** A world of the overlay of src/components/SnowOverlay.tsx just after
    mount: nothing frozen, a flat field, two particles, one of them about
    to land. *)
Definition freshLayerWorld : SnowAccumulated.World :=
  {| SnowAccumulated.accumulatedCanvasRef := Some [];
     SnowAccumulated.heightMapRef := Some (replicate 100 0);
     SnowAccumulated.particlesRef :=
       [ {| Snow.x := 10; Snow.y := 100; Snow.vx := 0.1; Snow.vy := 1;
            Snow.size := 2; Snow.alpha := 0.8 |};
         {| Snow.x := 30; Snow.y := 598; Snow.vx := -0.1; Snow.vy := 2;
            Snow.size := 3; Snow.alpha := 0.9 |} ];
     SnowAccumulated.randomCalls := 0;
     SnowAccumulated.canvas := [] |}.

(** A host for the burst simulator and the sparkler: the cosine is the
    sine stand-in shifted by a quarter period. *)
Definition sparkHost : FireworksLoop.Host :=
  {| FireworksLoop.cos := fun q => sampleSin (q + samplePi * 0.5);
     FireworksLoop.sin := sampleSin;
     FireworksLoop.PI := samplePi;
     FireworksLoop.random := randomOf sampleDraws |}.

(** The burst simulator with one particle in flight, the effect active, a
    target at (100, 100) and the frame counter one short of an emission. *)
Definition burstTarget : Types.Point := {| Types.x := 100; Types.y := 100 |}.

Definition burstWorld : FireworksLoop.World :=
  {| FireworksLoop.particlesRef := [spark];
     FireworksLoop.lastEmitPosRef := Some {| Types.x := 60; Types.y := 140 |};
     FireworksLoop.frameCountRef := 3;
     FireworksLoop.targetPosRef := Some burstTarget;
     FireworksLoop.isActiveRef := true;
     FireworksLoop.randomCalls := 0;
     FireworksLoop.canvas := [] |}.

(** The same pool once the effect was switched off. *)
Definition idleWorld : FireworksLoop.World :=
  {| FireworksLoop.particlesRef := [spark];
     FireworksLoop.lastEmitPosRef := None;
     FireworksLoop.frameCountRef := 3;
     FireworksLoop.targetPosRef := Some burstTarget;
     FireworksLoop.isActiveRef := false;
     FireworksLoop.randomCalls := 0;
     FireworksLoop.canvas := [] |}.

(** The sparkler with an empty pool. *)
Definition sparklerWorld : Sparkler.World :=
  {| Sparkler.particlesRef := [];
     Sparkler.randomCalls := 0;
     Sparkler.canvas := [] |}.

(** Points of a gesture on the frost. *)
Definition pointA : Types.Point := {| Types.x := 10; Types.y := 10 |}.
Definition pointB : Types.Point := {| Types.x := 20; Types.y := 10 |}.
Definition pointC : Types.Point := {| Types.x := 30; Types.y := 15 |}.

(** A frost overlay with one drip that has three frames to live. *)
Definition drippingFrost : Frost.State :=
  {| Frost.maskCanvas := [];
     Frost.dripsRef :=
       [ {| Frost.x := 20; Frost.y := 10; Frost.vx := 0; Frost.vy := 1;
            Frost.size := 2; Frost.life := 3 |} ];
     Frost.lastPointRef := None;
     Frost.randomCalls := 0 |}.

(** A field with a pile on column 0 and a sliver on column 4, and a gentle
    ramp. *)
Definition pileField : list Q := [5; 5; 5; 5; 0.05; 5; 5; 5].
Definition rampField : list Q := [1; 1.5; 2; 2.5].

(** Two video frames of 64 bytes. *)
Definition darkFrame : list Z := replicate 64 10%Z.
Definition brightFrame : list Z := replicate 64 200%Z.

(** The shell with the frost on and no press in progress. *)
Definition frostyPointer : App.Pointer :=
  {| App.isFrosty := true; App.isDrawing := false; App.drawingPoint := None |}.

(** Two detections, and one whose confidence is missing. *)
Definition chopstick : Gemini.Detection :=
  {| Gemini.label := Some "chopstick"%string;
     Gemini.confidence := Some 0.4;
     Gemini.top_point := Some {| Gemini.x := Some 480; Gemini.y := Some 120 |};
     Gemini.effect := Some "sparkler_fireworks"%string |}.

Definition pen : Gemini.Detection :=
  {| Gemini.label := Some "pen"%string;
     Gemini.confidence := Some 0.9;
     Gemini.top_point := Some {| Gemini.x := Some 510; Gemini.y := Some 300 |};
     Gemini.effect := Some "sparkler_fireworks"%string |}.

Definition straw : Gemini.Detection :=
  {| Gemini.label := Some "straw"%string;
     Gemini.confidence := None;
     Gemini.top_point := Some {| Gemini.x := Some 200; Gemini.y := Some 640 |};
     Gemini.effect := None |}.

End Samples.

(** * Properties *)

(** ** Arithmetic of the embedding *)

Section NumFacts.
Local Open Scope Q_scope.

Lemma Qgtb_true (a b : Q) : Qgtb a b = true <-> b < a.
Proof.
  unfold Qgtb. rewrite negb_true_iff, <- not_true_iff_false, Qle_bool_iff.
  split; [apply Qnot_le_lt | apply Qlt_not_le].
Qed.

Lemma Qgtb_false (a b : Q) : Qgtb a b = false <-> a <= b.
Proof. unfold Qgtb. rewrite negb_false_iff. apply Qle_bool_iff. Qed.

Lemma Qltb_true (a b : Q) : Qltb a b = true <-> a < b.
Proof. apply (Qgtb_true b a). Qed.

Lemma Qltb_false (a b : Q) : Qltb a b = false <-> b <= a.
Proof. apply (Qgtb_false b a). Qed.

Lemma Qgeb_true (a b : Q) : Qgeb a b = true <-> b <= a.
Proof. apply Qle_bool_iff. Qed.

Lemma Qgeb_false (a b : Q) : Qgeb a b = false <-> a < b.
Proof.
  unfold Qgeb. rewrite <- not_true_iff_false, Qle_bool_iff.
  split; [apply Qnot_le_lt | apply Qlt_not_le].
Qed.

(** The floor of a number between [z] and [z + 1] is [z]. *)
Lemma Qfloor_eq (z : Z) (a : Q) :
  inject_Z z <= a -> a < inject_Z z + 1 -> Qfloor a = z.
Proof.
  intros Hlo Hhi.
  pose proof (Qfloor_le a) as Hf. pose proof (Qlt_floor a) as Hc.
  rewrite inject_Z_plus in Hc. change (inject_Z 1) with 1 in Hc.
  assert (H1 : inject_Z z < inject_Z (Qfloor a) + 1) by lra.
  assert (H2 : inject_Z (Qfloor a) < inject_Z z + 1) by lra.
  change 1 with (inject_Z 1) in H1, H2.
  rewrite <- inject_Z_plus, <- Zlt_Qlt in H1, H2. lia.
Qed.

Lemma Math_round_near (z : Z) (a : Q) :
  inject_Z z - 0.5 <= a -> a < inject_Z z + 0.5 -> Math_round a = z.
Proof. intros Hlo Hhi. apply Qfloor_eq; lra. Qed.

Lemma Math_max_spec (a b : Q) :
  (a < b /\ Math_max a b = b) \/ (b <= a /\ Math_max a b = a).
Proof.
  unfold Math_max. destruct (Qltb a b) eqn:E.
  - left. split; [by apply Qltb_true | done].
  - right. split; [by apply Qltb_false | done].
Qed.

Lemma Math_min_spec (a b : Q) :
  (b < a /\ Math_min a b = b) \/ (a <= b /\ Math_min a b = a).
Proof.
  unfold Math_min. destruct (Qltb b a) eqn:E.
  - left. split; [by apply Qltb_true | done].
  - right. split; [by apply Qltb_false | done].
Qed.

Lemma stride_spec (step bound i : nat) :
  In i (stride step bound) <-> (i < bound)%nat /\ (i mod step = 0)%nat.
Proof.
  unfold stride. rewrite filter_In, in_seq, Nat.eqb_eq. lia.
Qed.

End NumFacts.

(** ** Pools stepped from the end *)

Module LoopFacts.
Import Loops.

Section ReverseLoop.
Context {A : Type} (f : A -> option A).

Lemma spliceStep_last (l r : list A) (a : A) :
  spliceStep f ((l ++ [a]) ++ r) (length l)
  = l ++ match f a with Some a' => a' :: r | None => r end.
Proof.
  unfold spliceStep. rewrite <- app_assoc. simpl.
  rewrite list_lookup_middle by done.
  destruct (f a) as [a' |].
  - replace (length l) with (length l + 0)%nat at 1 by lia.
    by rewrite insert_app_r.
  - apply delete_middle.
Qed.

Lemma reverseLoop_app (l r : list A) :
  foldl (spliceStep f) (l ++ r) (rev (seq 0 (length l))) = omap f l ++ r.
Proof.
  revert r. induction l as [| a l IH] using rev_ind; intros r; [done |].
  rewrite length_app. simpl length.
  rewrite seq_app, rev_app_distr. simpl.
  rewrite spliceStep_last, IH, omap_app. simpl.
  rewrite <- app_assoc. by destruct (f a).
Qed.

(** Walking the pool from the end, rewriting or splicing out each entry,
    visits every entry exactly once: the result is the list of the entries
    that were kept, rewritten, in their original order. *)
Lemma reverseLoop_omap (l : list A) : reverseLoop f l = omap f l.
Proof.
  unfold reverseLoop. pose proof (reverseLoop_app l []) as E.
  by rewrite !app_nil_r in E.
Qed.

End ReverseLoop.

End LoopFacts.

(** ** Firework colour aging *)

Module FireworksFacts.
Import Fireworks.
Local Open Scope Q_scope.

Lemma blend_full (c1 c2 : Z) (ratio : Q) : ratio == 1 -> blend c1 c2 ratio = c2.
Proof.
  intros E. unfold blend. apply Math_round_near; rewrite E; lra.
Qed.

Lemma blend_still (c1 c2 : Z) (ratio : Q) :
  - 0.5 <= (inject_Z c2 - inject_Z c1) * ratio < 0.5 -> blend c1 c2 ratio = c1.
Proof. intros [Hlo Hhi]. unfold blend. apply Math_round_near; lra. Qed.

Lemma ColorRGB_eta (c : ColorRGB) : {| r := r c; g := g c; b := b c |} = c.
Proof. by destruct c. Qed.

(** A freshly spawned particle shows the palette's core colour. *)
Lemma getColor_fresh (p : FireworkParticle) : getColor p 1 = core (palette p).
Proof.
  unfold getColor. change (Qgtb 1 0.6) with true. cbv iota beta zeta.
  rewrite !blend_full by reflexivity. apply ColorRGB_eta.
Qed.

(** At the boundary of the two segments the colour is the mid colour. *)
Lemma getColor_boundary (p : FireworkParticle) :
  getColor p 0.6 = mid (palette p).
Proof.
  unfold getColor. change (Qgtb 0.6 0.6) with false. cbv iota beta zeta.
  rewrite !blend_full by reflexivity. apply ColorRGB_eta.
Qed.

(** In the lower segment a channel that moves by less than one half stays
    at the outer colour's value. *)
Lemma blend_low (c1 c2 : Z) (bound : Z) (progress : Q) :
  (Z.abs (c2 - c1) <= bound)%Z ->
  0 <= progress -> progress * inject_Z (bound + 1) < 0.3 ->
  blend c1 c2 (Math_max 0 (Math_min 1 (progress / 0.6))) = c1.
Proof.
  intros Hb H0 Hd.
  assert (Hbq : 0 <= inject_Z bound).
  { change 0 with (inject_Z 0). rewrite <- Zle_Qle. lia. }
  rewrite inject_Z_plus in Hd. change (inject_Z 1) with 1 in Hd.
  assert (Hp : progress < 0.3) by nra.
  assert (Hr : Math_max 0 (Math_min 1 (progress / 0.6)) == progress * (10 # 6)).
  { assert (E : progress / 0.6 == progress * (10 # 6)) by (field).
    destruct (Math_min_spec 1 (progress / 0.6)) as [[_ ->] | [Hc ->]];
      [| lra].
    destruct (Math_max_spec 0 (progress / 0.6)) as [[_ ->] | [Hc ->]]; lra. }
  apply blend_still. rewrite Hr.
  assert (Hd1 : - inject_Z bound <= inject_Z c2 - inject_Z c1).
  { unfold Qminus. rewrite <- !inject_Z_opp, <- inject_Z_plus, <- Zle_Qle. lia. }
  assert (Hd2 : inject_Z c2 - inject_Z c1 <= inject_Z bound).
  { unfold Qminus. rewrite <- !inject_Z_opp, <- inject_Z_plus, <- Zle_Qle. lia. }
  split; nra.
Qed.

(** Close enough to the end of its life a particle shows exactly the outer
    colour: the rounded channels stop moving once the blend is within one
    half of the outer value. *)
Lemma getColor_low (p : FireworkParticle) (progress : Q) :
  let bound := (Z.abs (r (mid (palette p)) - r (outer (palette p)))
                + Z.abs (g (mid (palette p)) - g (outer (palette p)))
                + Z.abs (b (mid (palette p)) - b (outer (palette p))))%Z in
  0 <= progress -> progress * inject_Z (bound + 1) < 0.3 ->
  getColor p progress = outer (palette p).
Proof.
  intros bound H0 Hd.
  assert (Hb : (0 <= bound)%Z) by (unfold bound; lia).
  assert (Hp : progress < 0.3).
  { assert (1 <= inject_Z (bound + 1)).
    { change 1 with (inject_Z 1). rewrite <- Zle_Qle. lia. }
    nra. }
  unfold getColor.
  assert (E : Qgtb progress 0.6 = false) by (apply Qgtb_false; lra).
  rewrite E. cbv iota beta zeta.
  rewrite !(blend_low _ _ bound) by (try done; unfold bound; lia).
  apply ColorRGB_eta.
Qed.

(** C1 (as the code has it): at normalized life 1.0 the colour is the
    palette's core colour; at exactly 0.6 it is exactly the mid colour; at 0
    it is the outer colour, and it is already the outer colour for every
    progress below a positive threshold, so it approaches the outer colour
    as progress approaches 0. *)
Theorem getColor_aging (p : FireworkParticle) :
  getColor p 1 = core (palette p) /\
  getColor p 0.6 = mid (palette p) /\
  getColor p 0 = outer (palette p) /\
  exists delta : Q,
    0 < delta /\
    forall progress : Q,
      0 <= progress -> progress < delta ->
      getColor p progress = outer (palette p).
Proof.
  split; [apply getColor_fresh |].
  split; [apply getColor_boundary |].
  set (bound := (Z.abs (r (mid (palette p)) - r (outer (palette p)))
                 + Z.abs (g (mid (palette p)) - g (outer (palette p)))
                 + Z.abs (b (mid (palette p)) - b (outer (palette p))))%Z).
  assert (Hb : 0 < inject_Z (bound + 1)).
  { change 0 with (inject_Z 0). rewrite <- Zlt_Qlt. unfold bound. lia. }
  assert (Hlow : forall progress : Q,
             0 <= progress -> progress < 0.3 / inject_Z (bound + 1) ->
             getColor p progress = outer (palette p)).
  { intros progress H0 Hd. apply getColor_low; [done |].
    fold bound.
    apply (Qmult_lt_r _ _ _ Hb) in Hd.
    assert (E : 0.3 / inject_Z (bound + 1) * inject_Z (bound + 1) == 0.3)
      by (field; lra).
    lra. }
  assert (Hdelta : 0 < 0.3 / inject_Z (bound + 1)).
  { apply Qlt_shift_div_l; [done | lra]. }
  split.
  - apply Hlow; [lra | done].
  - exists (0.3 / inject_Z (bound + 1)). split; [done | exact Hlow].
Qed.

(** The sample particle carries the first of the three palettes. *)
Lemma spark_palette : PALETTES !! 0%nat = Some (palette Samples.spark).
Proof. reflexivity. Qed.

(** C1 as stated fails: a freshly spawned particle of the first palette
    (life = maxLife, so progress 1.0) is drawn in the core colour
    (157, 0, 255), not in the mid colour (123, 131, 255). *)
Lemma getColor_fresh_not_mid :
  getColor Samples.spark (life Samples.spark / maxLife Samples.spark)
    = {| r := 157; g := 0; b := 255 |}
  /\ mid (palette Samples.spark) = {| r := 123; g := 131; b := 255 |}
  /\ getColor Samples.spark (life Samples.spark / maxLife Samples.spark)
     <> mid (palette Samples.spark).
Proof. vm_compute. repeat split; discriminate. Qed.

End FireworksFacts.

(** ** Firework burst simulator: frames *)

Module FireworksLoopFacts.
Import Fireworks FireworksLoop Loops.
Local Open Scope Q_scope.

Lemma stepParticle_pool (w : World) (i : nat) :
  particlesRef (stepParticle w i) = spliceStep survive (particlesRef w) i.
Proof.
  unfold stepParticle, spliceStep, survive.
  destruct (particlesRef w !! i) as [p |]; [| done].
  simpl. by destruct (dead (age p)).
Qed.

Lemma stepLoop_pool (idx : list nat) (w : World) :
  particlesRef (foldl stepParticle w idx)
  = foldl (spliceStep survive) (particlesRef w) idx.
Proof.
  revert w. induction idx as [| i idx IH]; intros w; simpl; [done |].
  by rewrite IH, stepParticle_pool.
Qed.

Lemma stepParticles_pool (w : World) :
  particlesRef (stepParticles w) = omap survive (particlesRef w).
Proof.
  unfold stepParticles. rewrite stepLoop_pool.
  apply LoopFacts.reverseLoop_omap.
Qed.

(** The loop touches the pool and the canvas only. *)
Lemma stepLoop_refs (idx : list nat) (w : World) :
  lastEmitPosRef (foldl stepParticle w idx) = lastEmitPosRef w /\
  frameCountRef (foldl stepParticle w idx) = frameCountRef w /\
  targetPosRef (foldl stepParticle w idx) = targetPosRef w /\
  isActiveRef (foldl stepParticle w idx) = isActiveRef w /\
  randomCalls (foldl stepParticle w idx) = randomCalls w.
Proof.
  revert w. induction idx as [| i idx IH]; intros w; simpl; [done |].
  destruct (IH (stepParticle w i)) as (-> & -> & -> & -> & ->).
  unfold stepParticle. by destruct (particlesRef w !! i).
Qed.

Lemma update_refs (H : Host) (w : World) :
  targetPosRef (update H w) = targetPosRef w /\
  isActiveRef (update H w) = isActiveRef w /\
  frameCountRef (update H w) = S (frameCountRef w).
Proof.
  unfold update, stepParticles.
  match goal with
  | |- context [foldl stepParticle ?w0 ?idx] =>
      destruct (stepLoop_refs idx w0) as (_ & -> & -> & -> & _)
  end.
  unfold generation. simpl.
  destruct (isActiveRef w), (targetPosRef w); simpl; try done.
  by destruct (Nat.eqb _ _).
Qed.

(** *** The pool through a frame *)

Lemma spawn_spawnedAt (H : Host) (n : nat) (origin : Types.Point)
  (pal : Palette) :
  (forall k : nat, 0 <= random H k /\ random H k < 1) ->
  spawnedAt origin pal (spawn H n origin pal).
Proof.
  intros Hr. unfold spawnedAt, spawn.
  pose proof (Hr (n + 2)%nat) as [? ?]. pose proof (Hr (n + 3)%nat) as [? ?].
  destruct (Qltb (random H n) 0.2); [| destruct (Qltb (random H n) 0.6)];
    simpl; repeat split; lra.
Qed.

Lemma selectPalette_listed (r : Q) :
  0 <= r -> r < 1 -> selectPalette r ∈ PALETTES.
Proof.
  intros H0 H1. unfold selectPalette. cbv zeta.
  change (inject_Z (Z.of_nat (length PALETTES))) with 3.
  assert (Hlo : (0 <= Math_floor (r * 3))%Z).
  { unfold Math_floor. apply (Qfloor_resp_le 0 (r * 3)). lra. }
  assert (Hhi : (Math_floor (r * 3) < 3)%Z).
  { unfold Math_floor.
    assert (Hle : inject_Z (Qfloor (r * 3)) < inject_Z 3).
    { eapply Qle_lt_trans; [apply Qfloor_le |]. change (inject_Z 3) with 3. lra. }
    by rewrite <- Zlt_Qlt in Hle. }
  apply Z.leb_le in Hlo as Hb. rewrite Hb.
  destruct (PALETTES !! Z.to_nat _) as [pal |] eqn:E.
  - apply list_elem_of_lookup. eauto.
  - apply lookup_ge_None in E. change (length PALETTES) with 3%nat in E. lia.
Qed.

(** The particles a frame appends before it ages the pool. *)
Lemma generation_pool (H : Host) (w : World) :
  exists group : list FireworkParticle,
    particlesRef (generation H w) = particlesRef w ++ group /\
    length group
    = (if isActiveRef w
          && match targetPosRef w with Some _ => true | None => false end
          && Nat.eqb (frameCountRef w mod 4) 0
       then groupSize else 0%nat) /\
    ((forall k : nat, 0 <= random H k /\ random H k < 1) ->
     exists (origin : Types.Point) (pal : Palette),
       pal ∈ PALETTES /\ Forall (spawnedAt origin pal) group).
Proof.
  unfold generation.
  destruct (isActiveRef w); [destruct (targetPosRef w) as [t |] |].
  - destruct (Nat.eqb (frameCountRef w mod 4) 0) eqn:Em.
    + set (emitPos := emitPosition (lastEmitPosRef w) t).
      set (pal := selectPalette (random H (randomCalls w))).
      exists (map (fun i => spawn H (S (randomCalls w) + 5 * i) emitPos pal)
                (seq 0 groupSize)).
      split; [reflexivity |].
      split; [by rewrite length_map, length_seq |].
      intros Hr. exists emitPos, pal. split.
      * apply selectPalette_listed; apply Hr.
      * apply Forall_forall. intros p Hp.
        apply list_elem_of_In, in_map_iff in Hp as (i & <- & _).
        by apply spawn_spawnedAt.
    + exists []. cbn [particlesRef]. rewrite app_nil_r. repeat split.
      intros _. exists t, (selectPalette 0). split; [| done].
      apply selectPalette_listed; lra.
  - exists []. cbn [particlesRef]. rewrite app_nil_r. repeat split.
    intros _. exists {| Types.x := 0; Types.y := 0 |}, (selectPalette 0).
    split; [apply selectPalette_listed; lra | done].
  - exists []. cbn [particlesRef]. rewrite app_nil_r. repeat split.
    intros _. exists {| Types.x := 0; Types.y := 0 |}, (selectPalette 0).
    split; [apply selectPalette_listed; lra | done].
Qed.

Lemma omap_survive_length (l : list FireworkParticle) :
  (length (omap survive l) <= length l)%nat.
Proof.
  induction l as [| p l IH]; [done |].
  change (omap survive (p :: l))
    with (match survive p with
          | Some q => q :: omap survive l
          | None => omap survive l
          end).
  destruct (survive p); simpl; lia.
Qed.

Lemma update_pool (H : Host) (w : World) :
  exists group : list FireworkParticle,
    length group = (if emits w then groupSize else 0%nat) /\
    particlesRef (update H w)
    = omap survive (particlesRef w) ++ omap survive group /\
    ((forall k : nat, 0 <= random H k /\ random H k < 1) ->
     exists (origin : Types.Point) (pal : Palette),
       pal ∈ PALETTES /\ Forall (spawnedAt origin pal) group).
Proof.
  unfold update. rewrite stepParticles_pool.
  match goal with
  | |- context [generation H ?w0] =>
      destruct (generation_pool H w0) as (group & E & Hlen & Hsp)
  end.
  exists group. split; [exact Hlen |].
  rewrite E. simpl particlesRef. by rewrite omap_app.
Qed.

(** The group of a frame, with the point it is spawned at. *)
Lemma generation_group (H : Host) (w : World) :
  (forall k : nat, 0 <= random H k /\ random H k < 1) ->
  exists group : list FireworkParticle,
    particlesRef (generation H w) = particlesRef w ++ group /\
    length group
    = (if isActiveRef w
          && match targetPosRef w with Some _ => true | None => false end
          && Nat.eqb (frameCountRef w mod 4) 0
       then groupSize else 0%nat) /\
    (forall t : Types.Point,
       targetPosRef w = Some t ->
       exists pal : Palette,
         pal ∈ PALETTES /\
         Forall (spawnedAt (emitPosition (lastEmitPosRef w) t) pal) group).
Proof.
  intros Hr. unfold generation.
  assert (Hp0 : selectPalette 0 ∈ PALETTES)
    by (apply selectPalette_listed; lra).
  destruct (isActiveRef w); [destruct (targetPosRef w) as [t |] |].
  - destruct (Nat.eqb (frameCountRef w mod 4) 0) eqn:Em.
    + set (emitPos := emitPosition (lastEmitPosRef w) t).
      set (pal := selectPalette (random H (randomCalls w))).
      exists (map (fun i => spawn H (S (randomCalls w) + 5 * i) emitPos pal)
                (seq 0 groupSize)).
      split; [reflexivity |].
      split; [by rewrite length_map, length_seq |].
      intros t' [= <-]. exists pal. split.
      * apply selectPalette_listed; apply Hr.
      * apply Forall_forall. intros p Hp.
        apply list_elem_of_In, in_map_iff in Hp as (i & <- & _).
        by apply spawn_spawnedAt.
    + exists []. cbn [particlesRef]. rewrite app_nil_r.
      split; [done |]. split; [done |].
      intros t' _. by exists (selectPalette 0).
  - exists []. cbn [particlesRef]. rewrite app_nil_r.
    split; [done |]. split; [done |]. intros t' Ht. discriminate Ht.
  - exists []. cbn [particlesRef]. rewrite app_nil_r.
    split; [done |]. split; [done |].
    intros t' _. by exists (selectPalette 0).
Qed.

(** A particle just spawned outlives the frame it is spawned in. *)
Lemma spawned_survives (origin : Types.Point) (pal : Palette)
  (p : FireworkParticle) :
  spawnedAt origin pal p -> survive p = Some (age p).
Proof.
  intros (_ & _ & _ & _ & _ & Hl). unfold survive, dead.
  assert (El : life (age p) = life p - 1)
    by (unfold age; by destruct (layer p)).
  assert (Qle_bool (life (age p)) 0 = false) as ->; [| done].
  apply not_true_iff_false. intros Hc. apply Qle_bool_iff in Hc.
  rewrite El in Hc. destruct (layer p); lra.
Qed.

Lemma spawned_group_survives (origin : Types.Point) (pal : Palette)
  (group : list FireworkParticle) :
  Forall (spawnedAt origin pal) group -> omap survive group = map age group.
Proof.
  induction 1 as [| p group Hp Hall IH]; [reflexivity |].
  change (omap survive (p :: group))
    with (match survive p with
          | Some q => q :: omap survive group
          | None => omap survive group
          end).
  rewrite (spawned_survives origin pal p Hp), IH. reflexivity.
Qed.

(** X1: with the random source in [0, 1), the pool after a frame is the
    pool before it with every particle aged once, the dead ones dropped
    and the order of the others kept, followed by the group emitted in the
    frame, each of its particles aged once and none dropped: 18 particles
    when the frame emits, none otherwise.  The particles of the group were
    all spawned at the emission point of the frame (halfway from the last
    emission point to the target, or the target itself) with one palette of
    [PALETTES].  So a frame that emits adds exactly 18 particles after the
    survivors. *)
Theorem firework_frame_pool (H : Host) (w : World) :
  (forall k : nat, 0 <= random H k /\ random H k < 1) ->
  exists group : list FireworkParticle,
    particlesRef (update H w)
    = omap survive (particlesRef w) ++ map age group /\
    length group = (if emits w then groupSize else 0%nat) /\
    (forall t : Types.Point,
       targetPosRef w = Some t ->
       exists pal : Palette,
         pal ∈ PALETTES /\
         Forall (spawnedAt (emitPosition (lastEmitPosRef w) t) pal) group) /\
    length (particlesRef (update H w))
    = (length (omap survive (particlesRef w))
       + (if emits w then groupSize else 0))%nat.
Proof.
  intros Hr. unfold update. rewrite stepParticles_pool.
  match goal with
  | |- context [generation H ?w0] =>
      destruct (generation_group H w0 Hr) as (group & E & Hlen & Hsp)
  end.
  cbn [particlesRef lastEmitPosRef targetPosRef isActiveRef frameCountRef]
    in E, Hlen, Hsp.
  change (length group = (if emits w then groupSize else 0%nat)) in Hlen.
  assert (Es : omap survive group = map age group).
  { destruct (targetPosRef w) as [t |] eqn:Et.
    - destruct (Hsp t eq_refl) as (pal & _ & Hall).
      exact (spawned_group_survives _ pal group Hall).
    - unfold emits in Hlen. rewrite Et, andb_false_r in Hlen.
      by destruct group. }
  exists group. rewrite E, omap_app, Es.
  split; [done |]. split; [done |]. split; [done |].
  by rewrite length_app, length_map, Hlen.
Qed.

(** *** Life and trail of the particles *)

Lemma pushHistory_length (hist : list Types.Point) (pt : Types.Point) :
  (length hist <= 8)%nat ->
  (1 <= length (pushHistory hist pt) <= 8)%nat.
Proof.
  intros Hh. unfold pushHistory. rewrite length_app. simpl.
  destruct (Nat.ltb 8 (length hist + 1)) eqn:E.
  - apply Nat.ltb_lt in E.
    destruct hist as [| a hist]; simpl in *; [lia |].
    rewrite length_app. simpl. lia.
  - apply Nat.ltb_ge in E. rewrite length_app. simpl. lia.
Qed.

(** The newest point of the trail is where the particle was before the
    move. *)
Lemma pushHistory_last (hist : list Types.Point) (pt : Types.Point) :
  last (pushHistory hist pt) = Some pt.
Proof.
  unfold pushHistory. destruct (Nat.ltb 8 (length (hist ++ [pt]))) eqn:E.
  - apply Nat.ltb_lt in E. rewrite length_app in E. simpl in E.
    destruct hist as [| a hist]; simpl in *; [lia |]. apply last_snoc.
  - apply last_snoc.
Qed.

Lemma survive_wellAged (p q : FireworkParticle) :
  life p <= maxLife p -> (length (history p) <= 8)%nat ->
  survive p = Some q ->
  wellAged q /\ (1 <= length (history q))%nat /\
  life q = life p - 1 /\ maxLife q = maxLife p /\ palette q = palette p /\
  last (history q) = Some {| Types.x := x p; Types.y := y p |}.
Proof.
  intros Hl Hh. unfold survive, dead.
  destruct (Qle_bool (life (age p)) 0) eqn:E; [done |].
  intros [= <-].
  assert (Hpos : 0 < life (age p)).
  { apply Qnot_le_lt. intros Hc. apply Qle_bool_iff in Hc. congruence. }
  pose proof (pushHistory_length (history p)
                {| Types.x := x p; Types.y := y p |} Hh) as Hlen.
  unfold wellAged, age in *.
  destruct (layer p); simpl in *;
    (repeat split; try lra; try lia; try apply pushHistory_last).
Qed.

(** X2: after a frame every particle of the pool is alive, no older than its
    span and trails at most 8 points (at least one), provided that held of
    the pool's lives and trails before the frame; a freshly emitted
    particle is in the pool with its life one below its span. *)
Theorem firework_particles_well_aged (H : Host) (w : World) :
  (forall k : nat, 0 <= random H k /\ random H k < 1) ->
  Forall (fun p => life p <= maxLife p /\ (length (history p) <= 8)%nat)
         (particlesRef w) ->
  Forall (fun q => wellAged q /\ (1 <= length (history q))%nat)
         (particlesRef (update H w)).
Proof.
  intros Hr Hw.
  destruct (update_pool H w) as (group & _ & E & Hsp).
  destruct (Hsp Hr) as (origin & pal & _ & Hg).
  rewrite E. apply Forall_app. split.
  - apply Forall_forall. intros q Hq.
    apply list_elem_of_omap in Hq as (p & Hp & Hs).
    rewrite Forall_forall in Hw. destruct (Hw p Hp) as [Hl Hh].
    destruct (survive_wellAged p q Hl Hh Hs) as (? & ? & _). done.
  - apply Forall_forall. intros q Hq.
    apply list_elem_of_omap in Hq as (p & Hp & Hs).
    rewrite Forall_forall in Hg.
    destruct (Hg p Hp) as (_ & _ & Hh & Hl & _).
    assert (Hh' : (length (history p) <= 8)%nat) by (rewrite Hh; simpl; lia).
    assert (Hl' : life p <= maxLife p) by (rewrite Hl; lra).
    destruct (survive_wellAged p q Hl' Hh' Hs) as (? & ? & _). done.
Qed.

(** X3: [createGroup] appends exactly 18 particles at the origin, all with one
    palette taken from [PALETTES], each with an empty trail, its life equal
    to its span and life and size in the ranges of its layer; it makes 91
    draws from the random source. *)
Theorem createGroup_spec (H : Host) (origin : Types.Point) (w : World) :
  (forall k : nat, 0 <= random H k /\ random H k < 1) ->
  exists (pal : Palette) (group : list FireworkParticle),
    pal ∈ PALETTES /\
    particlesRef (createGroup H origin w) = particlesRef w ++ group /\
    length group = 18%nat /\
    Forall (spawnedAt origin pal) group /\
    randomCalls (createGroup H origin w) = (randomCalls w + 91)%nat.
Proof.
  intros Hr. unfold createGroup.
  set (pal := selectPalette (random H (randomCalls w))).
  exists pal, (map (fun i => spawn H (S (randomCalls w) + 5 * i) origin pal)
                 (seq 0 groupSize)).
  split; [apply selectPalette_listed; apply Hr |].
  split; [reflexivity |].
  split; [by rewrite length_map, length_seq |].
  split.
  - apply Forall_forall. intros p Hp.
    apply list_elem_of_In, in_map_iff in Hp as (i & <- & _).
    by apply spawn_spawnedAt.
  - cbn [randomCalls]. unfold groupSize. lia.
Qed.

(** *** The emission point *)

Lemma update_lastEmit (H : Host) (w : World) :
  lastEmitPosRef (update H w)
  = match isActiveRef w, targetPosRef w with
    | true, Some t => Some (emitPosition (lastEmitPosRef w) t)
    | _, _ => None
    end.
Proof.
  unfold update, stepParticles.
  match goal with
  | |- context [foldl stepParticle ?w0 ?idx] =>
      destruct (stepLoop_refs idx w0) as (-> & _)
  end.
  unfold generation. simpl.
  destruct (isActiveRef w), (targetPosRef w); simpl; try done.
  by destruct (Nat.eqb _ _).
Qed.

Lemma frames_refs (H : Host) (n : nat) (w : World) :
  targetPosRef (frames H n w) = targetPosRef w /\
  isActiveRef (frames H n w) = isActiveRef w.
Proof.
  induction n as [| n [IH1 IH2]]; simpl; [done |].
  destruct (update_refs H (frames H n w)) as (-> & -> & _). done.
Qed.

Lemma half_power (n : nat) :
  (1 # 2) ^ Z.of_nat (S n) == (1 # 2) ^ Z.of_nat n * 0.5.
Proof.
  rewrite Nat2Z.inj_succ, <- Z.add_1_r.
  rewrite Qpower_plus by discriminate.
  apply Qmult_comp; reflexivity.
Qed.

(** X4: while the effect is active and the target stays at [t], the emission
    point moves half of the remaining way to [t] in every frame: after
    [k + 1] frames its offset from [t] is the initial offset divided by
    [2 ^ (k + 1)] (an empty tracker starts on the target itself).  A frame
    without target, or with the effect inactive, empties the tracker. *)
Theorem emission_smoothing (H : Host) (w : World) (t : Types.Point) (k : nat) :
  targetPosRef w = Some t ->
  (isActiveRef w = false -> lastEmitPosRef (update H w) = None) /\
  (isActiveRef w = true ->
   let start := match lastEmitPosRef w with Some l => l | None => t end in
   exists e : Types.Point,
     lastEmitPosRef (frames H (S k) w) = Some e /\
     Types.x e - Types.x t
     == (Types.x start - Types.x t) * (1 # 2) ^ Z.of_nat (S k) /\
     Types.y e - Types.y t
     == (Types.y start - Types.y t) * (1 # 2) ^ Z.of_nat (S k)).
Proof.
  intros Ht. split.
  - intros Ha. by rewrite update_lastEmit, Ha.
  - intros Ha start. induction k as [| k (e & He & Hx & Hy)].
    + simpl frames. rewrite update_lastEmit, Ha, Ht.
      eexists. split; [reflexivity |].
      unfold start, emitPosition.
      destruct (lastEmitPosRef w) as [l |]; simpl; split; ring.
    + change (frames H (S (S k)) w) with (update H (frames H (S k) w)).
      destruct (frames_refs H (S k) w) as [Et Eb].
      rewrite update_lastEmit, Et, Eb, Ha, Ht, He.
      eexists. split; [reflexivity |].
      rewrite (half_power (S k)). unfold emitPosition. simpl Types.x.
      simpl Types.y. split.
      * transitivity ((Types.x e - Types.x t) * 0.5); [ring |].
        rewrite Hx. ring.
      * transitivity ((Types.y e - Types.y t) * 0.5); [ring |].
        rewrite Hy. ring.
Qed.

(** *** A pool that is no longer fed runs empty *)

Lemma survive_life (p q : FireworkParticle) :
  survive p = Some q -> life q = life p - 1 /\ 0 < life q.
Proof.
  unfold survive, dead.
  destruct (Qle_bool (life (age p)) 0) eqn:E; [done |].
  intros [= <-]. split.
  - unfold age. by destruct (layer p).
  - apply Qnot_le_lt. intros Hc. apply Qle_bool_iff in Hc. congruence.
Qed.

Lemma emits_idle (w : World) :
  isActiveRef w = false \/ targetPosRef w = None -> emits w = false.
Proof.
  unfold emits. intros [-> | ->]; [done |]. by destruct (isActiveRef w).
Qed.

(** X5: with the effect inactive (or no target), a pool whose particles have at
    most [n] frames to live is empty after [n] frames: every frame takes
    one unit of life from each particle and removes those that reach
    zero. *)
Theorem firework_pool_drains (H : Host) (n : nat) (w : World) :
  isActiveRef w = false \/ targetPosRef w = None ->
  Forall (fun p => 0 < life p /\ life p <= inject_Z (Z.of_nat n))
         (particlesRef w) ->
  particlesRef (frames H n w) = [].
Proof.
  revert w. induction n as [| n IH]; intros w Hidle Hw.
  - simpl. destruct (particlesRef w) as [| p ps]; [done |].
    apply Forall_cons in Hw as [[H1 H2] _].
    change (inject_Z (Z.of_nat 0)) with 0 in H2. lra.
  - unfold frames. rewrite Nat.iter_succ_r. apply IH.
    + destruct (update_refs H w) as (-> & -> & _). done.
    + destruct (update_pool H w) as (group & Hlen & E & _).
      rewrite (emits_idle w Hidle) in Hlen.
      destruct group; [| done]. rewrite E, app_nil_r.
      apply Forall_forall. intros q Hq.
      apply list_elem_of_omap in Hq as (p & Hp & Hs).
      rewrite Forall_forall in Hw. destruct (Hw p Hp) as [_ Hle].
      destruct (survive_life p q Hs) as [-> Hpos]. split; [done |].
      rewrite Nat2Z.inj_succ, <- Z.add_1_r, inject_Z_plus in Hle.
      change (inject_Z 1) with 1 in Hle. lra.
Qed.

(** *** What a frame draws *)

Lemma stepParticle_last (w : World) (l r : list FireworkParticle)
  (a : FireworkParticle) :
  particlesRef w = (l ++ [a]) ++ r ->
  particlesRef (stepParticle w (length l))
  = l ++ match survive a with Some a' => a' :: r | None => r end /\
  canvas (stepParticle w (length l))
  = canvas w ++ match survive a with
                | Some a' => drawParticle a'
                | None => []
                end.
Proof.
  intros E. split.
  - rewrite stepParticle_pool, E. apply LoopFacts.spliceStep_last.
  - unfold stepParticle. rewrite E, <- app_assoc. simpl.
    rewrite list_lookup_middle by done. unfold survive. simpl.
    destruct (dead (age a)); [by rewrite app_nil_r | done].
Qed.

Lemma stepLoop_draws (l r : list FireworkParticle) (w : World) :
  particlesRef w = l ++ r ->
  canvas (foldl stepParticle w (rev (seq 0 (length l))))
  = canvas w ++ concat (map drawParticle (rev (omap survive l))).
Proof.
  revert r w. induction l as [| a l IH] using rev_ind; intros r w E.
  - simpl. by rewrite app_nil_r.
  - rewrite length_app. simpl length.
    rewrite seq_app, rev_app_distr. simpl.
    destruct (stepParticle_last w l r a E) as [Ep Ec].
    rewrite (IH _ _ Ep), Ec, omap_app, rev_app_distr, <- app_assoc.
    simpl. by destruct (survive a).
Qed.

(** X6: a frame draws, after the glow of an emission, exactly the particles
    that are in the pool when the frame ends, the last of the pool first:
    for each its trail (from its second frame on), its halo and its
    head. *)
Theorem firework_frame_draws (H : Host) (w : World) :
  exists glows : list DrawOp,
    canvas (update H w)
    = glows ++ concat (map drawParticle (rev (particlesRef (update H w)))) /\
    (length glows = if emits w then 1%nat else 0%nat) /\
    Forall (fun op => exists cx cy, op = glow cx cy glowRadius) glows.
Proof.
  unfold update at 1 2. rewrite stepParticles_pool. unfold stepParticles.
  match goal with
  | |- context [generation H ?w0] => set (w1 := generation H w0)
  end.
  pose proof (stepLoop_draws (particlesRef w1) [] w1) as E.
  rewrite app_nil_r in E. rewrite (E eq_refl).
  exists (canvas w1). split; [done |].
  unfold w1, generation, emits. simpl.
  destruct (isActiveRef w); [destruct (targetPosRef w) as [t |] |];
    simpl; try done.
  destruct (Nat.eqb _ _); simpl; [| done].
  split; [done |]. apply Forall_singleton. eauto.
Qed.

Lemma progress_range (p : FireworkParticle) :
  wellAged p -> 0 < life p / maxLife p /\ life p / maxLife p <= 1.
Proof.
  intros (Hpos & Hle & _).
  assert (Hm : 0 < maxLife p) by lra. split.
  - apply Qlt_shift_div_l; [done | lra].
  - apply Qle_shift_div_r; [done | lra].
Qed.

(** A living particle is drawn with the colour of its remaining life and
    with a head alpha equal to that remaining life floored at 0.1; the halo
    has a fifth of the head's alpha and three times its radius. *)
Theorem firework_head_alpha (p : FireworkParticle) :
  wellAged p ->
  exists (a : Q) (trails : list DrawOp),
    0.1 <= a /\ a <= 1 /\ life p / maxLife p <= a /\
    (length trails <= 1)%nat /\
    drawParticle p
    = trails ++ [disc (x p) (y p) (size p * 3)
                   (getColor p (life p / maxLife p)) (0.2 * a);
                 disc (x p) (y p) (size p)
                   (getColor p (life p / maxLife p)) a].
Proof.
  intros Hp. destruct (progress_range p Hp) as [H0 H1].
  unfold drawParticle. cbv zeta.
  eexists (Math_max (life p / maxLife p) 0.1), _.
  split; [| split; [| split; [| split; [| reflexivity]]]].
  - destruct (Math_max_spec (life p / maxLife p) 0.1) as [[? ->] | [? ->]]; lra.
  - destruct (Math_max_spec (life p / maxLife p) 0.1) as [[? ->] | [? ->]]; lra.
  - destruct (Math_max_spec (life p / maxLife p) 0.1) as [[? ->] | [? ->]]; lra.
  - destruct (Nat.ltb 1 (length (history p))); simpl; lia.
Qed.

(** *** Motion of a particle, by layer *)

Lemma Qpower_succ_nat (a : Q) (k : nat) :
  ~ a == 0 -> a ^ Z.of_nat (S k) == a ^ Z.of_nat k * a.
Proof.
  intros Ha. rewrite Nat2Z.inj_succ, <- Z.add_1_r.
  rewrite Qpower_plus by done. apply Qmult_comp; [reflexivity |].
  apply Qpower_1_r.
Qed.

Lemma inject_succ (k : nat) :
  inject_Z (Z.of_nat (S k)) == inject_Z (Z.of_nat k) + 1.
Proof.
  rewrite Nat2Z.inj_succ, <- Z.add_1_r, inject_Z_plus. reflexivity.
Qed.

(** X7: over [k] frames a particle keeps its layer and loses [k] units of
    life.  A core particle moves in a straight line at constant velocity; a
    mid particle keeps its horizontal velocity and gains 0.15 of downward
    velocity per frame; an outer particle loses 8% of its horizontal
    velocity per frame, and its vertical velocity closes 8% of its distance
    to 1.25 per frame. *)
Theorem firework_layer_motion (p : FireworkParticle) (k : nat) :
  let q := Nat.iter k age p in
  let n := inject_Z (Z.of_nat k) in
  layer q = layer p /\ life q == life p - n /\ maxLife q = maxLife p /\
  match layer p with
  | core_layer =>
      vx q == vx p /\ vy q == vy p /\
      x q == x p + n * vx p /\ y q == y p + n * vy p
  | mid_layer =>
      vx q == vx p /\ vy q == vy p + 0.15 * n /\ x q == x p + n * vx p
  | outer_layer =>
      vx q == vx p * 0.92 ^ Z.of_nat k /\
      vy q - 1.25 == (vy p - 1.25) * 0.92 ^ Z.of_nat k
  end.
Proof.
  cbv zeta. induction k as [| k (Hl & Hlife & Hm & Hmotion)].
  - simpl. change (inject_Z 0) with 0. split; [done |]. split; [ring |].
    split; [done |]. destruct (layer p); repeat split; ring.
  - change (Nat.iter (S k) age p) with (age (Nat.iter k age p)).
    set (q := Nat.iter k age p) in *.
    assert (El : layer (age q) = layer q) by (unfold age; by destruct (layer q)).
    assert (Em : maxLife (age q) = maxLife q)
      by (unfold age; by destruct (layer q)).
    assert (Elife : life (age q) = life q - 1)
      by (unfold age; by destruct (layer q)).
    split; [congruence |].
    split; [rewrite Elife, Hlife, inject_succ; ring |].
    split; [congruence |].
    pose proof (inject_succ k) as Hn.
    destruct (layer p) eqn:Lp.
    + destruct Hmotion as (Hvx & Hvy & Hx & Hy).
      unfold age. rewrite Hl. cbn [x y vx vy].
      split; [done |]. split; [done |]. split.
      * rewrite Hn, Hx, Hvx. ring.
      * rewrite Hn, Hy, Hvy. ring.
    + destruct Hmotion as (Hvx & Hvy & Hx).
      unfold age. rewrite Hl. cbn [x y vx vy].
      split; [done |]. split.
      * rewrite Hn, Hvy. ring.
      * rewrite Hn, Hx, Hvx. ring.
    + destruct Hmotion as (Hvx & Hvy).
      unfold age. rewrite Hl. cbn [x y vx vy].
      pose proof (Qpower_succ_nat 0.92 k) as Hp.
      split.
      * rewrite Hp by discriminate. rewrite Hvx. ring.
      * rewrite Hp by discriminate.
        transitivity ((vy q - 1.25) * 0.92); [ring |].
        rewrite Hvy. ring.
Qed.

End FireworksLoopFacts.

(** ** Height field: relaxation *)

Module FieldFacts.
Import Snow.
Local Open Scope Q_scope.

Lemma sumQ_alter (f : Q -> Q) (l : list Q) (i : nat) (v : Q) :
  l !! i = Some v -> sumQ (alter f i l) == sumQ l + (f v - v).
Proof.
  revert i. induction l as [| a l IH]; intros [| i] Hi; simpl in *; try done.
  - injection Hi as ->. lra.
  - rewrite (IH i Hi). lra.
Qed.

Lemma move_preserves_sum (l : list Q) (i j : nat) (u v a : Q) :
  i <> j -> l !! i = Some u -> l !! j = Some v ->
  sumQ (alter (fun c => c + a) j (alter (fun c => c - a) i l)) == sumQ l.
Proof.
  intros Hij Hi Hj.
  rewrite (sumQ_alter _ _ j v) by (by rewrite list_lookup_alter_ne).
  rewrite (sumQ_alter _ _ i u) by done. lra.
Qed.

Lemma move_transfers (l : list Q) (i j : nat) (u v a : Q) :
  i <> j -> l !! i = Some u -> l !! j = Some v ->
  transfers a i j l (alter (fun c => c + a) j (alter (fun c => c - a) i l)).
Proof.
  intros Hij Hi Hj. exists u, v. repeat split; try done.
  - rewrite list_lookup_alter_ne by done.
    by rewrite list_lookup_alter_eq, Hi.
  - by rewrite list_lookup_alter_eq, list_lookup_alter_ne, Hj.
  - intros k Hki Hkj. by rewrite !list_lookup_alter_ne.
Qed.

Lemma settleRight_sum (h : list Q) (i : nat) :
  sumQ (settleRight h i) == sumQ h.
Proof.
  unfold settleRight.
  destruct (h !! i) as [me |] eqn:Hi; [| reflexivity].
  destruct (h !! (i + 1)%nat) as [rt |] eqn:Hj; [| reflexivity].
  destruct (Qgtb me (rt + threshold)); [| reflexivity].
  apply (move_preserves_sum h i (i + 1) me rt); [lia | done | done].
Qed.

Lemma settleLeft_sum (h : list Q) (i : nat) :
  (1 <= i)%nat -> sumQ (settleLeft h i) == sumQ h.
Proof.
  intros Hpos. unfold settleLeft.
  destruct (h !! i) as [me |] eqn:Hi; [| reflexivity].
  destruct (h !! (i - 1)%nat) as [lt |] eqn:Hj; [| reflexivity].
  destruct (Qgtb me (lt + threshold)); [| reflexivity].
  apply (move_preserves_sum h i (i - 1) me lt); [lia | done | done].
Qed.

Lemma settleRight_transfers (h : list Q) (i : nat) :
  settleRight h i = h \/ transfers settleAmount i (i + 1) h (settleRight h i).
Proof.
  unfold settleRight.
  destruct (h !! i) as [me |] eqn:Hi; [| by left].
  destruct (h !! (i + 1)%nat) as [rt |] eqn:Hj; [| by left].
  destruct (Qgtb me (rt + threshold)); [| by left].
  right. apply (move_transfers h i (i + 1) me rt); [lia | done | done].
Qed.

Lemma settleLeft_transfers (h : list Q) (i : nat) :
  (1 <= i)%nat ->
  settleLeft h i = h \/ transfers settleAmount i (i - 1) h (settleLeft h i).
Proof.
  intros Hpos. unfold settleLeft.
  destruct (h !! i) as [me |] eqn:Hi; [| by left].
  destruct (h !! (i - 1)%nat) as [lt |] eqn:Hj; [| by left].
  destruct (Qgtb me (lt + threshold)); [| by left].
  right. apply (move_transfers h i (i - 1) me lt); [lia | done | done].
Qed.

(** A loop whose body keeps the sum keeps the sum. *)
Lemma foldl_sum (body : list Q -> nat -> list Q) (idx : list nat) (h : list Q) :
  (forall g i, In i idx -> sumQ (body g i) == sumQ g) ->
  sumQ (foldl body h idx) == sumQ h.
Proof.
  revert h. induction idx as [| i idx IH]; intros h Hbody; simpl; [reflexivity |].
  rewrite IH by (intros; apply Hbody; by right).
  apply Hbody. by left.
Qed.

Lemma sweepRight_sum (width : nat) (h : list Q) :
  sumQ (sweepRight width h) == sumQ h.
Proof. apply foldl_sum. intros. apply settleRight_sum. Qed.

Lemma sweepLeft_sum (width : nat) (h : list Q) :
  sumQ (sweepLeft width h) == sumQ h.
Proof.
  apply foldl_sum. intros g i Hi. apply settleLeft_sum.
  apply in_rev, in_seq in Hi. lia.
Qed.

Lemma smoothPass_sum (width : nat) (h : list Q) :
  sumQ (smoothPass width h) == sumQ h.
Proof. unfold smoothPass. by rewrite sweepLeft_sum, sweepRight_sum. Qed.

Lemma smooth_sum (width : nat) (h : list Q) :
  sumQ (smooth width h) == sumQ h.
Proof.
  unfold smooth. induction passes as [| n IH]; simpl; [reflexivity |].
  by rewrite smoothPass_sum.
Qed.

(** C2: a smoothing pass (left-to-right sweep, then right-to-left sweep),
    and so the whole budget of three passes, keeps the sum of all cells;
    each step of a sweep either leaves the field alone or moves the settle
    amount from one cell to its immediate neighbour and changes no other
    cell.  (Numbers are exact here, so the sum is kept exactly.) *)
Theorem relaxation_preserves_sum (width : nat) (h : list Q) :
  sumQ (smoothPass width h) == sumQ h /\
  sumQ (smooth width h) == sumQ h /\
  (forall (g : list Q) (i : nat),
     settleRight g i = g \/
     transfers settleAmount i (i + 1) g (settleRight g i)) /\
  (forall (g : list Q) (i : nat),
     In i (rev (seq 1 (width - 2))) ->
     settleLeft g i = g \/
     transfers settleAmount i (i - 1) g (settleLeft g i)).
Proof.
  split; [apply smoothPass_sum |].
  split; [apply smooth_sum |].
  split; [apply settleRight_transfers |].
  intros g i Hi. apply settleLeft_transfers.
  apply in_rev, in_seq in Hi. lia.
Qed.

(** *** Non-negativity of the cells *)

Lemma foldl_keeps {A B : Type} (I : A -> Prop) (body : A -> B -> A)
  (l : list B) (a : A) :
  (forall a' b, I a' -> I (body a' b)) -> I a -> I (foldl body a l).
Proof.
  intros Hbody. revert a. induction l as [| b l IH]; intros a Ha; simpl; auto.
Qed.

Lemma decayAt_nonneg (h : list Q) (i : nat) : nonneg h -> nonneg (decayAt h i).
Proof.
  intros Hh. unfold decayAt.
  destruct (h !! i) as [v |] eqn:Hi; [| done].
  destruct (Qgtb v 0.1); [| done].
  apply Forall_insert; [done |].
  destruct (Qltb (v - 0.02) 0) eqn:E; [lra | by apply Qltb_false in E].
Qed.

Lemma decay_nonneg (width : nat) (h : list Q) :
  nonneg h -> nonneg (decay width h).
Proof. apply foldl_keeps. intros; by apply decayAt_nonneg. Qed.

(** The giving cell stays non-negative because a transfer only fires when
    it exceeds its non-negative neighbour by more than the threshold, which
    is larger than the settle amount. *)
Lemma move_nonneg (h : list Q) (i j : nat) (me other : Q) :
  nonneg h -> h !! i = Some me -> h !! j = Some other ->
  Qgtb me (other + threshold) = true ->
  nonneg (alter (fun v => v + settleAmount) j
            (alter (fun v => v - settleAmount) i h)).
Proof.
  intros Hh Hi Hj Hgt. apply Qgtb_true in Hgt.
  pose proof (Forall_lookup_1 _ _ _ _ Hh Hj) as Ho. simpl in Ho.
  unfold threshold, settleAmount in *.
  apply Forall_alter; [apply Forall_alter; [done |] |].
  - intros v Hv _. rewrite Hi in Hv. injection Hv as <-. lra.
  - intros v _ Hv. simpl in Hv. lra.
Qed.

Lemma settleRight_nonneg (h : list Q) (i : nat) :
  nonneg h -> nonneg (settleRight h i).
Proof.
  intros Hh. unfold settleRight.
  destruct (h !! i) as [me |] eqn:Hi; [| done].
  destruct (h !! (i + 1)%nat) as [rt |] eqn:Hj; [| done].
  destruct (Qgtb me (rt + threshold)) eqn:E; [| done].
  by apply (move_nonneg h i (i + 1) me rt).
Qed.

Lemma settleLeft_nonneg (h : list Q) (i : nat) :
  nonneg h -> nonneg (settleLeft h i).
Proof.
  intros Hh. unfold settleLeft.
  destruct (h !! i) as [me |] eqn:Hi; [| done].
  destruct (h !! (i - 1)%nat) as [lt |] eqn:Hj; [| done].
  destruct (Qgtb me (lt + threshold)) eqn:E; [| done].
  by apply (move_nonneg h i (i - 1) me lt).
Qed.

Lemma smoothPass_nonneg (width : nat) (h : list Q) :
  nonneg h -> nonneg (smoothPass width h).
Proof.
  intros Hh. unfold smoothPass, sweepLeft, sweepRight.
  apply foldl_keeps; [intros; by apply settleLeft_nonneg |].
  apply foldl_keeps; [intros; by apply settleRight_nonneg | done].
Qed.

Lemma smooth_nonneg (width : nat) (h : list Q) :
  nonneg h -> nonneg (smooth width h).
Proof.
  intros Hh. unfold smooth. induction passes as [| n IH]; simpl; [done |].
  by apply smoothPass_nonneg.
Qed.

Lemma relaxField_nonneg (P : SnowOverlayProps) (h : list Q) :
  nonneg h -> nonneg (relaxField P h).
Proof. intros Hh. by apply smooth_nonneg, decay_nonneg. Qed.

Lemma fill0_zero (h : list Q) : Forall (fun v => v = 0) (fill0 h).
Proof. unfold fill0. induction h; simpl; constructor; auto. Qed.

Lemma fill0_nonneg (h : list Q) : nonneg (fill0 h).
Proof.
  eapply Forall_impl; [apply fill0_zero |]. intros v ->. simpl. lra.
Qed.

Lemma depositAt_nonneg (H : Host) (width : nat) (pX : Z) (sz : Q)
  (h : list Q) (k : Z) :
  (forall q, 0 <= exp H q) -> 0 <= sz ->
  nonneg h -> nonneg (depositAt H width pX sz h k).
Proof.
  intros Hexp Hsz Hh. unfold depositAt.
  destruct ((0 <=? pX + k)%Z && (pX + k <? Z.of_nat width)%Z); [| done].
  apply Forall_alter; [done |]. intros v _ Hv. simpl in Hv.
  pose proof (Hexp (- (inject_Z (Z.abs k) * inject_Z (Z.abs k))
                    / (2 * (inject_Z radius / 2) * (inject_Z radius / 2))))
    as Hf.
  unfold falloff. cbv zeta. nra.
Qed.

Lemma deposit_nonneg (H : Host) (width : nat) (pX : Z) (sz : Q) (h : list Q) :
  (forall q, 0 <= exp H q) -> 0 <= sz ->
  nonneg h -> nonneg (deposit H width pX sz h).
Proof.
  intros Hexp Hsz. apply foldl_keeps. intros; by apply depositAt_nonneg.
Qed.

(** *** Lengths *)

Lemma foldl_length (body : list Q -> nat -> list Q) (idx : list nat)
  (h : list Q) :
  (forall g i, length (body g i) = length g) ->
  length (foldl body h idx) = length h.
Proof.
  intros Hbody. revert h. induction idx as [| i idx IH]; intros h; simpl;
    [done |]. by rewrite IH, Hbody.
Qed.

Lemma decayAt_length (h : list Q) (i : nat) : length (decayAt h i) = length h.
Proof.
  unfold decayAt. destruct (h !! i); [| done].
  destruct (Qgtb _ _); [apply length_insert | done].
Qed.

Lemma settleRight_length (h : list Q) (i : nat) :
  length (settleRight h i) = length h.
Proof.
  unfold settleRight. destruct (h !! i); [| done].
  destruct (h !! (i + 1)%nat); [| done].
  destruct (Qgtb _ _); [by rewrite !length_alter | done].
Qed.

Lemma settleLeft_length (h : list Q) (i : nat) :
  length (settleLeft h i) = length h.
Proof.
  unfold settleLeft. destruct (h !! i); [| done].
  destruct (h !! (i - 1)%nat); [| done].
  destruct (Qgtb _ _); [by rewrite !length_alter | done].
Qed.

Lemma relaxField_length (P : SnowOverlayProps) (h : list Q) :
  length (relaxField P h) = length h.
Proof.
  unfold relaxField, smooth, decay.
  induction passes as [| n IH]; simpl.
  - apply foldl_length, decayAt_length.
  - unfold smoothPass, sweepLeft, sweepRight.
    rewrite !foldl_length; auto using settleLeft_length, settleRight_length.
Qed.

Lemma fill0_length (h : list Q) : length (fill0 h) = length h.
Proof. apply length_map. Qed.

Lemma depositAt_length (H : Host) (width : nat) (pX : Z) (sz : Q)
  (h : list Q) (k : Z) :
  length (depositAt H width pX sz h k) = length h.
Proof.
  unfold depositAt. destruct (_ && _); [apply length_alter | done].
Qed.

(** *** The overflow check *)



End FieldFacts.

(** ** Snow simulator: one frame *)

Module FrameFacts.
Import Snow FieldFacts.
Local Open Scope Q_scope.

Section Frame.
Variable H : Host.
Variable P : SnowOverlayProps.

Lemma fieldPhase_particles (w : World) :
  particlesRef (fieldPhase P w) = particlesRef w.
Proof. unfold fieldPhase. by destruct (heightMapRef w). Qed.


Lemma collides_Some (hm : option (list Q)) (p : SnowParticle) (h : list Q) :
  collides P hm p = Some h ->
  hm = Some h /\
  exists pileHeight : Q,
    readZ h (Math_floor (x p)) = Some pileHeight /\
    height P - pileHeight + 2 <= y p.
Proof.
  unfold collides. destruct hm as [g |]; [| done].
  destruct (_ && _); [| done].
  destruct (readZ g _) as [pile |] eqn:E; [| done].
  destruct (Qgeb _ _) eqn:G; [| done].
  intros [= <-]. split; [done |]. exists pile. split; [done |].
  by apply Qgeb_true.
Qed.

(** *** The pool: a step rewrites one slot and never adds or removes *)

Lemma stepParticle_length (w : World) (i : nat) :
  length (particlesRef (stepParticle H P w i)) = length (particlesRef w).
Proof.
  unfold stepParticle. destruct (particlesRef w !! i); [| done].
  destruct (collides _ _ _); simpl; apply length_insert.
Qed.

Lemma stepParticle_other (w : World) (i j : nat) :
  i <> j ->
  particlesRef (stepParticle H P w i) !! j = particlesRef w !! j.
Proof.
  intros Hij. unfold stepParticle. destruct (particlesRef w !! i); [| done].
  destruct (collides _ _ _); simpl; by apply list_lookup_insert_ne.
Qed.


Lemma stepLoop_length (idx : list nat) (w : World) :
  length (particlesRef (foldl (stepParticle H P) w idx))
  = length (particlesRef w).
Proof.
  revert w. induction idx as [| i idx IH]; intros w; simpl; [done |].
  by rewrite IH, stepParticle_length.
Qed.

Lemma stepLoop_other (idx : list nat) (w : World) (j : nat) :
  ~ In j idx ->
  particlesRef (foldl (stepParticle H P) w idx) !! j = particlesRef w !! j.
Proof.
  revert w. induction idx as [| i idx IH]; intros w Hj; simpl; [done |].
  rewrite IH by (intros ?; apply Hj; by right).
  apply stepParticle_other. intros ->. apply Hj. by left.
Qed.


Lemma loop_indices_NoDup (n : nat) : List.NoDup (rev (seq 0 n)).
Proof. apply NoDup_rev, seq_NoDup. Qed.

Lemma stepParticles_length (w : World) :
  length (particlesRef (stepParticles H P w)) = length (particlesRef w).
Proof. apply stepLoop_length. Qed.


Lemma replenish_length (w : World) :
  length (particlesRef (replenish H P w))
  = if isActive P && Nat.ltb (length (particlesRef w)) 400
    then S (length (particlesRef w))
    else length (particlesRef w).
Proof.
  unfold replenish. destruct (_ && _); [| done].
  simpl. rewrite length_app. simpl. lia.
Qed.

Lemma replenish_inactive (w : World) :
  isActive P = false -> replenish H P w = w.
Proof. intros E. unfold replenish. by rewrite E. Qed.

(** The pool after a frame: one more particle when the effect is active and
    the pool holds fewer than 400, the same number otherwise. *)
Lemma update_length (w : World) :
  length (particlesRef (update H P w))
  = if isActive P && Nat.ltb (length (particlesRef w)) 400
    then S (length (particlesRef w))
    else length (particlesRef w).
Proof.
  unfold update. rewrite fieldPhase_particles.
  destruct (negb (isActive P) && Nat.eqb (length (particlesRef w)) 0) eqn:E.
  - rewrite fieldPhase_particles.
    apply andb_true_iff in E as [Ha _]. apply negb_true_iff in Ha.
    by rewrite Ha.
  - by rewrite stepParticles_length, replenish_length, fieldPhase_particles.
Qed.

(** *** Non-negativity through a frame *)

Section Nonneg.
Hypothesis random_nonneg : forall n : nat, 0 <= random H n.
Hypothesis exp_nonneg : forall q : Q, 0 <= exp H q.

Lemma createParticle_size (n w : nat) (h startY : Q) :
  0 <= size (createParticle H n w h startY).
Proof. simpl. pose proof (random_nonneg (n + 3)). lra. Qed.

Lemma fieldPhase_nonneg (w : World) :
  cellsNonneg w -> cellsNonneg (fieldPhase P w).
Proof.
  unfold cellsNonneg, fieldPhase. destruct (heightMapRef w) as [h |]; [| done].
  intros Hh. cbv beta iota zeta delta [heightMapRef].
  destruct (shouldReset _ _); [apply fill0_nonneg | by apply relaxField_nonneg].
Qed.

Lemma fieldPhase_sizes (w : World) :
  sizesNonneg w -> sizesNonneg (fieldPhase P w).
Proof. unfold sizesNonneg. by rewrite fieldPhase_particles. Qed.

Lemma replenish_nonneg (w : World) :
  cellsNonneg w /\ sizesNonneg w ->
  cellsNonneg (replenish H P w) /\ sizesNonneg (replenish H P w).
Proof.
  intros [Hc Hs]. unfold replenish. destruct (_ && _); [| done].
  split; [done |]. unfold sizesNonneg. simpl.
  apply Forall_app. split; [done |].
  apply Forall_singleton, createParticle_size.
Qed.

Lemma stepParticle_nonneg (w : World) (i : nat) :
  cellsNonneg w /\ sizesNonneg w ->
  cellsNonneg (stepParticle H P w i) /\ sizesNonneg (stepParticle H P w i).
Proof.
  intros [Hc Hs]. unfold stepParticle.
  destruct (particlesRef w !! i) as [p0 |] eqn:Hi; [| done].
  pose proof (Forall_lookup_1 _ _ _ _ Hs Hi) as Hsz. simpl in Hsz.
  destruct (collides P (heightMapRef w) (moved H P p0)) as [h |] eqn:Hcol.
  - apply collides_Some in Hcol as [Hm _].
    unfold cellsNonneg, sizesNonneg in *. rewrite Hm in Hc. simpl. split.
    + by apply deposit_nonneg.
    + apply Forall_insert; [done | apply createParticle_size].
  - unfold cellsNonneg, sizesNonneg in *. simpl. split; [done |].
    apply Forall_insert; [done |].
    destruct (Qgtb _ _); [apply createParticle_size | done].
Qed.

Lemma update_nonneg (w : World) :
  cellsNonneg w /\ sizesNonneg w ->
  cellsNonneg (update H P w) /\ sizesNonneg (update H P w).
Proof.
  intros [Hc Hs].
  assert (H1 : cellsNonneg (fieldPhase P w) /\ sizesNonneg (fieldPhase P w))
    by (split; [by apply fieldPhase_nonneg | by apply fieldPhase_sizes]).
  unfold update. destruct (_ && _); [done |].
  unfold stepParticles.
  apply (foldl_keeps (fun w' => cellsNonneg w' /\ sizesNonneg w')).
  - intros; by apply stepParticle_nonneg.
  - by apply replenish_nonneg.
Qed.

(** C3: with every cell non-negative (and every particle of the pool of
    non-negative size, as every spawned particle is) before a frame, every
    operation of the frame leaves every cell non-negative: the strided
    decay, each relaxation transfer and the whole smoothing, each particle
    deposit, the full-field reset, and so the frame as a whole. *)
Theorem height_field_nonneg (w : World) :
  cellsNonneg w -> sizesNonneg w ->
  (forall h : list Q,
     nonneg h ->
     nonneg (decay (width P) h) /\
     (forall i : nat, nonneg (settleRight h i) /\ nonneg (settleLeft h i)) /\
     nonneg (smooth (width P) h) /\
     (forall (pX : Z) (sz : Q),
        0 <= sz -> nonneg (deposit H (width P) pX sz h)) /\
     nonneg (fill0 h)) /\
  cellsNonneg (fieldPhase P w) /\
  (forall i : nat,
     cellsNonneg (stepParticle H P (replenish H P (fieldPhase P w)) i)) /\
  cellsNonneg (update H P w) /\ sizesNonneg (update H P w).
Proof.
  intros Hc Hs. split; [| split; [| split]].
  - intros h Hh. split; [by apply decay_nonneg |].
    split; [intros i; split;
            [by apply settleRight_nonneg | by apply settleLeft_nonneg] |].
    split; [by apply smooth_nonneg |].
    split; [intros; by apply deposit_nonneg | apply fill0_nonneg].
  - by apply fieldPhase_nonneg.
  - intros i. apply stepParticle_nonneg, replenish_nonneg.
    split; [by apply fieldPhase_nonneg | by apply fieldPhase_sizes].
  - by apply update_nonneg.
Qed.

End Nonneg.

(** *** The clear step and what follows it in the frame *)



Lemma replenish_field (w : World) :
  heightMapRef (replenish H P w) = heightMapRef w.
Proof. unfold replenish. by destruct (_ && _). Qed.




(** Whenever a particle does collide, its deposit leaves a positive cell
    in the column it hit, whatever the host's sine and exponential are. *)
Lemma depositAt_grows (width : nat) (pX : Z) (sz : Q) (h : list Q) (k : Z)
  (j : nat) (v : Q) :
  (forall q : Q, 0 < exp H q) -> 0 < sz ->
  h !! j = Some v ->
  exists v' : Q,
    depositAt H width pX sz h k !! j = Some v' /\ v <= v' /\
    (j = Z.to_nat (pX + k) -> (0 <= pX + k < Z.of_nat width)%Z -> v < v').
Proof.
  intros He Hs Hj. unfold depositAt.
  pose proof (He (- (inject_Z (Z.abs k) * inject_Z (Z.abs k))
                  / (2 * (inject_Z radius / 2) * (inject_Z radius / 2))))
    as Hf.
  change (exp H _) with (falloff H k) in Hf.
  destruct ((0 <=? pX + k)%Z && (pX + k <? Z.of_nat width)%Z) eqn:E.
  - destruct (decide (Z.to_nat (pX + k) = j)) as [<- | Hne].
    + exists (v + sz * 0.5 * falloff H k).
      rewrite list_lookup_alter_eq, Hj. simpl.
      split; [done |]. split; [nra |]. intros _ _. nra.
    + exists v. rewrite list_lookup_alter_ne by done.
      split; [done |]. split; [lra |]. intros ->. done.
  - exists v. split; [done |]. split; [lra |].
    intros _ Hrange. apply andb_false_iff in E as [E | E];
      [apply Z.leb_gt in E | apply Z.ltb_ge in E]; lia.
Qed.

Lemma deposit_positive (width : nat) (pX : Z) (sz : Q) (h : list Q) (v : Q) :
  (forall q : Q, 0 < exp H q) -> 0 < sz ->
  (0 <= pX < Z.of_nat width)%Z ->
  h !! Z.to_nat pX = Some v -> 0 <= v ->
  exists v' : Q,
    deposit H width pX sz h !! Z.to_nat pX = Some v' /\ 0 < v'.
Proof.
  intros He Hs Hrange Hv Hv0. unfold deposit.
  assert (Hoff : offsets = map (fun j => (Z.of_nat j - radius)%Z) (seq 0 8)
                           ++ 0%Z :: map (fun j => (Z.of_nat j - radius)%Z)
                                       (seq 9 8)) by reflexivity.
  rewrite Hoff, foldl_app. simpl foldl at 1.
  set (pre := map (fun j => (Z.of_nat j - radius)%Z) (seq 0 8)).
  set (post := map (fun j => (Z.of_nat j - radius)%Z) (seq 9 8)).
  assert (Hmono : forall (ks : list Z) (g : list Q) (u : Q),
             g !! Z.to_nat pX = Some u ->
             exists u', foldl (depositAt H width pX sz) g ks !! Z.to_nat pX
                        = Some u' /\ u <= u').
  { induction ks as [| k ks IH]; intros g u Hu; simpl.
    - exists u. split; [done | lra].
    - destruct (depositAt_grows width pX sz g k _ u He Hs Hu)
        as (u1 & Hu1 & Hle & _).
      destruct (IH _ u1 Hu1) as (u2 & Hu2 & Hle2).
      exists u2. split; [done | lra]. }
  destruct (Hmono pre h v Hv) as (v1 & Hv1 & Hle1).
  destruct (depositAt_grows width pX sz
              (foldl (depositAt H width pX sz) h pre) 0%Z _ v1 He Hs Hv1)
    as (v2 & Hv2 & _ & Hlt).
  destruct (Hmono post _ v2 Hv2) as (v3 & Hv3 & Hle3).
  exists v3. split; [done |].
  assert (v1 < v2) by (apply Hlt; [f_equal; lia | lia]). lra.
Qed.

Lemma collides_range (hm : option (list Q)) (p : SnowParticle) (h : list Q) :
  collides P hm p = Some h ->
  (0 <= Math_floor (x p) < Z.of_nat (width P))%Z.
Proof.
  unfold collides. destruct hm as [g |]; [| done].
  destruct (_ && _) eqn:E; [| done]. intros _.
  apply andb_true_iff in E as [E1 E2].
  apply Z.leb_le in E1. apply Z.ltb_lt in E2. lia.
Qed.

Lemma collision_leaves_deposit (w : World) (i : nat) (p : SnowParticle)
  (h : list Q) :
  (forall q : Q, 0 < exp H q) ->
  cellsNonneg w ->
  particlesRef w !! i = Some p -> 0 < size p ->
  collides P (heightMapRef w) (moved H P p) = Some h ->
  exists (z : list Q) (v : Q),
    heightMapRef (stepParticle H P w i) = Some z /\
    z !! Z.to_nat (Math_floor (x (moved H P p))) = Some v /\ 0 < v.
Proof.
  intros He Hc Hi Hs Hcol. unfold stepParticle. rewrite Hi, Hcol. simpl.
  pose proof (collides_range _ _ _ Hcol) as Hrange.
  apply collides_Some in Hcol as [Hm (pile & Hr & _)].
  unfold cellsNonneg in Hc. rewrite Hm in Hc.
  unfold readZ in Hr.
  destruct (0 <=? Math_floor (x (moved H P p)))%Z eqn:E; [| done].
  pose proof (Forall_lookup_1 _ _ _ _ Hc Hr) as Hp0. simpl in Hp0.
  destruct (deposit_positive (width P) (Math_floor (x (moved H P p)))
              (size p) h pile He Hs Hrange Hr Hp0) as (v & Hv & Hpos).
  eauto.
Qed.

(** *** What a frame draws *)





(** *** Topping up the pool *)

(** The pool through one frame: one particle appended when the effect is
    active and the pool holds fewer than 400, none when it is inactive; and
    every particle already in the pool is stepped, its slot holding
    afterwards the moved particle or a fresh spawn. *)
(** What the loop body writes to the slot it steps. *)
Lemma stepParticle_recycle (w : World) (i : nat) (p : SnowParticle) :
  particlesRef w !! i = Some p ->
  particlesRef (stepParticle H P w i)
  = <[ i := if SnowShapes.recycles P (heightMapRef w) (moved H P p)
            then createParticle H (randomCalls w) (width P) (height P)
                   defaultStartY
            else moved H P p ]> (particlesRef w).
Proof.
  intros Hi. unfold stepParticle, SnowShapes.recycles. rewrite Hi. cbv zeta.
  destruct (collides P (heightMapRef w) (moved H P p)); [done |].
  cbn [particlesRef orb]. by destruct (Qgtb _ _).
Qed.

Lemma stepParticles_past (w : World) (i : nat) (p : SnowParticle) :
  particlesRef w !! i = Some p ->
  height P < y (moved H P p) ->
  exists p' : SnowParticle,
    particlesRef (stepParticles H P w) !! i = Some p' /\ fresh H P p'.
Proof.
  intros Hi Hpast. pose proof (lookup_lt_Some _ _ _ Hi) as Hlt.
  unfold stepParticles.
  assert (Hin : In i (rev (seq 0 (length (particlesRef w))))).
  { apply in_rev. rewrite rev_involutive. apply in_seq. lia. }
  pose proof (loop_indices_NoDup (length (particlesRef w))) as Hnd.
  destruct (in_split _ _ Hin) as (l1 & l2 & E). rewrite E in Hnd |- *.
  apply NoDup_remove_2 in Hnd.
  rewrite foldl_app. simpl.
  set (w1 := foldl (stepParticle H P) w l1).
  assert (H1 : particlesRef w1 !! i = Some p).
  { unfold w1. rewrite stepLoop_other; [done |].
    intros Hc. apply Hnd, in_or_app. by left. }
  rewrite stepLoop_other by (intros Hc; apply Hnd, in_or_app; by right).
  rewrite (stepParticle_recycle w1 i p H1).
  assert (Er : SnowShapes.recycles P (heightMapRef w1) (moved H P p) = true).
  { unfold SnowShapes.recycles. apply orb_true_iff. right.
    by apply Qgtb_true. }
  rewrite Er. eexists. split.
  - apply list_lookup_insert_eq. by apply lookup_lt_Some in H1.
  - by eexists.
Qed.

Lemma update_past (w : World) (i : nat) (p : SnowParticle) :
  particlesRef w !! i = Some p ->
  height P < y (moved H P p) ->
  exists p' : SnowParticle,
    particlesRef (update H P w) !! i = Some p' /\ fresh H P p'.
Proof.
  intros Hi Hpast. unfold update. rewrite fieldPhase_particles.
  destruct (negb (isActive P) && Nat.eqb (length (particlesRef w)) 0) eqn:E.
  - apply andb_true_iff in E as [_ E]. apply Nat.eqb_eq in E.
    apply lookup_lt_Some in Hi. lia.
  - clear E. apply (stepParticles_past _ i p); [| done]. unfold replenish.
    destruct (isActive P && _); simpl; rewrite fieldPhase_particles;
      [| done].
    by apply lookup_app_l_Some.
Qed.


End Frame.


(** ** Snow simulator: the pool over the component's life *)

Section Pool.
Variable H : Host.

Lemma pushInitial_iter (P : SnowOverlayProps) (n : nat) (w : World) :
  length (particlesRef (Nat.iter n (pushInitial H P) w))
  = (length (particlesRef w) + n)%nat.
Proof.
  induction n as [| n IH]; simpl; [lia |].
  rewrite length_app, IH. simpl. lia.
Qed.

Lemma initParticles_length (P : SnowOverlayProps) (w : World) :
  length (particlesRef (initParticles H P w))
  = if Nat.eqb (length (particlesRef w)) 0 then 300%nat
    else length (particlesRef w).
Proof.
  unfold initParticles. destruct (Nat.eqb _ _) eqn:E; [| done].
  apply Nat.eqb_eq in E. rewrite pushInitial_iter. lia.
Qed.

Lemma update_bounds (P : SnowOverlayProps) (w : World) :
  (length (particlesRef w)
   <= length (particlesRef (update H P w))
   <= length (particlesRef w) + 1)%nat /\
  ((length (particlesRef w) <= 400)%nat ->
   (length (particlesRef (update H P w)) <= 400)%nat).
Proof.
  rewrite update_length.
  destruct (isActive P); simpl; [| lia].
  destruct (Nat.ltb _ _) eqn:E; [apply Nat.ltb_lt in E | ]; lia.
Qed.

Lemma mainEffect_pool (P : SnowOverlayProps) (w : World) :
  length (particlesRef w) = 0%nat \/
  (300 <= length (particlesRef w) <= 400)%nat ->
  (300 <= length (particlesRef (mainEffect H P w)) <= 400)%nat.
Proof.
  intros Hw. unfold mainEffect.
  pose proof (update_bounds P (initParticles H P w)) as [Hb Hcap].
  rewrite initParticles_length in *.
  destruct (Nat.eqb _ _) eqn:E;
    [apply Nat.eqb_eq in E | apply Nat.eqb_neq in E]; lia.
Qed.

Lemma mainEffect_grows (P : SnowOverlayProps) (w : World) :
  (300 <= length (particlesRef w))%nat ->
  (length (particlesRef w)
   <= length (particlesRef (mainEffect H P w))
   <= length (particlesRef w) + 1)%nat.
Proof.
  intros Hw. unfold mainEffect.
  pose proof (update_bounds P (initParticles H P w)) as [Hb _].
  rewrite initParticles_length in *.
  destruct (Nat.eqb _ _) eqn:E;
    [apply Nat.eqb_eq in E | apply Nat.eqb_neq in E]; lia.
Qed.

Lemma react_poolOk (c : Component) (e : Event) :
  poolOk c -> poolOk (react H c e).
Proof.
  unfold poolOk, poolSize. intros Hc. destruct e as [P' |]; simpl.
  - unfold render. destruct (props c) as [P |] eqn:E; simpl.
    + destruct (sameProps P P'); simpl.
      * by rewrite E.
      * apply mainEffect_pool. right. by destruct (sameSize P P').
    + apply mainEffect_pool. by left.
  - unfold frame. destruct (props c) as [P |] eqn:E; simpl.
    + pose proof (update_bounds P (world c)) as [Hb Hcap]. lia.
    + by rewrite E.
Qed.

Lemma run_from (c : Component) (es : list Event) :
  poolOk c -> poolOk (foldl (react H) c es).
Proof. apply foldl_keeps. intros; by apply react_poolOk. Qed.

Lemma react_mounted (c : Component) (e : Event) :
  props c <> None -> props (react H c e) <> None.
Proof.
  intros Hc. destruct e as [P' |]; simpl.
  - unfold render. destruct (props c) as [P |] eqn:E; [| done].
    destruct (sameProps P P'); simpl; [by rewrite E | done].
  - unfold frame. by destruct (props c) as [P |].
Qed.

Lemma react_grows (c : Component) (e : Event) :
  props c <> None -> (300 <= poolSize c)%nat ->
  (poolSize c <= poolSize (react H c e) <= poolSize c + 1)%nat.
Proof.
  unfold poolSize. intros Hm Hc. destruct e as [P' |]; simpl.
  - unfold render. destruct (props c) as [P |]; [| done].
    destruct (sameProps P P'); simpl; [lia |].
    destruct (sameSize P P').
    + by apply mainEffect_grows.
    + by apply (mainEffect_grows P' (resetHeightMap P' (world c))).
  - unfold frame. destruct (props c) as [P |]; [| done]. simpl.
    pose proof (update_bounds P (world c)) as [Hb _]. lia.
Qed.

(** C9: once the component has rendered, whatever renders (activation,
    deactivation, resize, motion) and animation frames follow, the pool
    holds between 300 and 400 particles; no event shrinks it and each adds
    at most one particle; a step of the particle loop never removes a
    particle: it rewrites the slot it steps in place, with a fresh spawn
    at the top when the moved particle touches the pile or is past the
    bottom edge and with the moved particle otherwise; over a whole frame
    the slot of a particle that moves past the bottom edge holds a fresh
    spawn; and a render that deactivates the effect leaves at least the
    300 particles of the initial fill. *)
Theorem pool_never_shrinks (P : SnowOverlayProps) (es : list Event) :
  let c := run H (Render P :: es) in
  (300 <= poolSize c <= 400)%nat /\
  (forall e : Event,
     (poolSize c <= poolSize (react H c e) <= poolSize c + 1)%nat) /\
  (forall (P' : SnowOverlayProps) (w : World) (i : nat),
     length (particlesRef (stepParticle H P' w i))
     = length (particlesRef w)) /\
  (forall (P' : SnowOverlayProps) (w : World) (i : nat) (p : SnowParticle),
     particlesRef w !! i = Some p ->
     particlesRef (stepParticle H P' w i)
     = <[ i := if SnowShapes.recycles P' (heightMapRef w) (moved H P' p)
               then createParticle H (randomCalls w) (width P') (height P')
                      defaultStartY
               else moved H P' p ]> (particlesRef w)) /\
  (forall (P' : SnowOverlayProps) (w : World) (i : nat) (p : SnowParticle),
     particlesRef w !! i = Some p ->
     height P' < y (moved H P' p) ->
     exists p' : SnowParticle,
       particlesRef (update H P' w) !! i = Some p' /\ fresh H P' p') /\
  (forall P' : SnowOverlayProps,
     isActive P' = false ->
     (300 <= poolSize (react H c (Render P')))%nat).
Proof.
  intros c.
  assert (Hm : props c <> None).
  { unfold c, run. simpl.
    apply (foldl_keeps (fun c' => props c' <> None)).
    - intros; by apply react_mounted.
    - done. }
  assert (Hok : poolOk c).
  { unfold c, run. apply run_from. done. }
  assert (Hsz : (300 <= poolSize c <= 400)%nat).
  { unfold poolOk in Hok. by destruct (props c). }
  split; [done |]. split; [| split; [| split; [| split]]].
  - intros e. apply react_grows; [done | lia].
  - intros. apply stepParticle_length.
  - intros P' w i p Hi. by apply (stepParticle_recycle H P' w i p).
  - intros P' w i p Hi Hpast. by apply (update_past H P' w i p).
  - intros P' _. pose proof (react_grows c (Render P') Hm). lia.
Qed.

(** *** Non-negativity over the component's life *)

Section Reachable.
Hypothesis random_nonneg : forall n : nat, 0 <= random H n.
Hypothesis exp_nonneg : forall q : Q, 0 <= exp H q.

Lemma pushInitial_healthy (P : SnowOverlayProps) (w : World) :
  healthy w -> healthy (pushInitial H P w).
Proof.
  intros [Hc Hs]. split; [done |]. unfold sizesNonneg. simpl.
  apply Forall_app. split; [done |].
  apply Forall_singleton. by apply createParticle_size.
Qed.

Lemma initParticles_healthy (P : SnowOverlayProps) (w : World) :
  healthy w -> healthy (initParticles H P w).
Proof.
  intros Hw. unfold initParticles. destruct (Nat.eqb _ _); [| done].
  generalize 300%nat as n. intros n.
  induction n as [| n IH]; simpl; [done |].
  by apply pushInitial_healthy.
Qed.

Lemma resetHeightMap_healthy (P : SnowOverlayProps) (w : World) :
  healthy w -> healthy (resetHeightMap P w).
Proof.
  intros [Hc Hs]. split; [| done].
  unfold cellsNonneg. simpl.
  apply (Forall_replicate (fun v => 0 <= v)). lra.
Qed.

Lemma mainEffect_healthy (P : SnowOverlayProps) (w : World) :
  healthy w -> healthy (mainEffect H P w).
Proof.
  intros Hw. unfold mainEffect.
  by apply update_nonneg, initParticles_healthy.
Qed.

Lemma react_healthy (c : Component) (e : Event) :
  healthy (world c) -> healthy (world (react H c e)).
Proof.
  intros Hc. destruct e as [P' |]; simpl.
  - unfold render. destruct (props c) as [P |]; simpl.
    + destruct (sameProps P P'); simpl; [done |].
      apply mainEffect_healthy.
      destruct (sameSize P P'); [done | by apply resetHeightMap_healthy].
    + by apply mainEffect_healthy, resetHeightMap_healthy.
  - unfold frame. destruct (props c) as [P |]; simpl; [| done].
    by apply update_nonneg.
Qed.

(** In every state the component can reach the cells of the field are
    non-negative (and so are the sizes of the particles in the pool). *)
Lemma run_healthy (es : list Event) : healthy (world (run H es)).
Proof.
  unfold run.
  apply (foldl_keeps (fun c => healthy (world c))).
  - intros; by apply react_healthy.
  - split; [done | constructor].
Qed.

End Reachable.

End Pool.

End FrameFacts.

(** ** Topping up the pool, in both snow overlays *)

Module PoolFacts.
Import Snow.
Local Open Scope Q_scope.

Lemma accumulated_stepParticle_length (H : Host) (P : SnowOverlayProps)
  (w : SnowAccumulated.World) (i : nat) :
  length (SnowAccumulated.particlesRef (SnowAccumulated.stepParticle H P w i))
  = length (SnowAccumulated.particlesRef w).
Proof.
  unfold SnowAccumulated.stepParticle.
  destruct (SnowAccumulated.particlesRef w !! i); [| done].
  destruct (SnowAccumulated.collides _ _ _); simpl; apply length_insert.
Qed.

Lemma accumulated_stepParticles_length (H : Host) (P : SnowOverlayProps)
  (w : SnowAccumulated.World) :
  length (SnowAccumulated.particlesRef (SnowAccumulated.stepParticles H P w))
  = length (SnowAccumulated.particlesRef w).
Proof.
  unfold SnowAccumulated.stepParticles.
  generalize (rev (seq 0 (length (SnowAccumulated.particlesRef w)))) as idx.
  intros idx. revert w. induction idx as [| i idx IH]; intros w; simpl;
    [done |]. by rewrite IH, accumulated_stepParticle_length.
Qed.



End PoolFacts.

(** ** The frozen layer of the overlay of src/components/SnowOverlay.tsx *)

Module SnowLayerFacts.
Import Snow SnowAccumulated SnowLayer.
Local Open Scope Q_scope.

Section Layer.
Variable H : Host.
Variable P : SnowOverlayProps.

Lemma layer_unchanged (acc : option (list DrawOp)) :
  (fun ops => ops ++ []) <$> acc = acc.
Proof. destruct acc; simpl; [by rewrite app_nil_r | done]. Qed.

Lemma step_layer (w : World) (i : nat) :
  exists extra : list DrawOp,
    accumulatedCanvasRef (stepParticle H P w i)
    = (fun ops => ops ++ extra) <$> accumulatedCanvasRef w /\
    Forall isFlake extra /\ (length extra <= 1)%nat /\
    (extra = [] -> heightMapRef (stepParticle H P w i) = heightMapRef w).
Proof.
  unfold stepParticle.
  destruct (particlesRef w !! i) as [p0 |].
  - cbv zeta.
    destruct (collides P (heightMapRef w) (moved H P p0)) as [h |].
    + eexists [_]. cbn [accumulatedCanvasRef heightMapRef].
      split; [reflexivity |].
      split; [constructor; [by eexists _, _, _, _ | constructor] |].
      split; [simpl; lia | discriminate].
    + exists []. cbn [accumulatedCanvasRef heightMapRef].
      rewrite layer_unchanged. repeat split; [constructor | simpl; lia].
  - exists []. rewrite layer_unchanged.
    repeat split; [constructor | simpl; lia].
Qed.

Lemma steps_layer (idx : list nat) (w : World) :
  exists landed : list DrawOp,
    accumulatedCanvasRef (foldl (stepParticle H P) w idx)
    = (fun ops => ops ++ landed) <$> accumulatedCanvasRef w /\
    Forall isFlake landed /\ (length landed <= length idx)%nat /\
    (landed = [] ->
     heightMapRef (foldl (stepParticle H P) w idx) = heightMapRef w).
Proof.
  revert w. induction idx as [| i idx IH]; intros w; simpl.
  - exists []. rewrite layer_unchanged.
    repeat split; [constructor | simpl; lia].
  - destruct (step_layer w i) as (extra & E1 & F1 & L1 & K1).
    destruct (IH (stepParticle H P w i)) as (landed & E2 & F2 & L2 & K2).
    exists (extra ++ landed). rewrite E2, E1.
    split; [destruct (accumulatedCanvasRef w); simpl;
            [by rewrite app_assoc | done] |].
    split; [by apply Forall_app |].
    split; [rewrite length_app; lia |].
    intros E. apply app_eq_nil in E as [-> ->].
    rewrite K2, K1; done.
Qed.

Lemma clearPhase_layer (w : World) :
  accumulatedCanvasRef (clearPhase P w)
  = (fun ops => if clears P w then [] else ops) <$> accumulatedCanvasRef w /\
  heightMapRef (clearPhase P w)
  = (if clears P w then fill0 <$> heightMapRef w else heightMapRef w) /\
  particlesRef (clearPhase P w) = particlesRef w.
Proof.
  unfold clearPhase, clears. cbv zeta. cbn [accumulatedCanvasRef heightMapRef
                                              particlesRef].
  destruct (Qgtb (motionScore P) 0.3 || _).
  - done.
  - repeat split. by destruct (accumulatedCanvasRef w).
Qed.

Lemma replenish_layer (w : World) :
  accumulatedCanvasRef (replenish H P w) = accumulatedCanvasRef w /\
  heightMapRef (replenish H P w) = heightMapRef w.
Proof. unfold replenish. by destruct (Nat.ltb _ _). Qed.

Lemma update_layer (w : World) :
  exists landed : list DrawOp,
    accumulatedCanvasRef (update H P w)
    = (fun ops => (if clears P w then [] else ops) ++ landed)
      <$> accumulatedCanvasRef w /\
    Forall isFlake landed /\
    (length landed <= length (particlesRef (update H P w)))%nat /\
    (isActive P = false -> landed = []) /\
    (landed = [] ->
     heightMapRef (update H P w)
     = if clears P w then fill0 <$> heightMapRef w else heightMapRef w).
Proof.
  destruct (clearPhase_layer w) as (Ea & Eh & Ep).
  unfold update. cbv zeta. destruct (isActive P).
  - cbn [negb].
    pose proof (PoolFacts.accumulated_stepParticles_length H P
                  (replenish H P (clearPhase P w))) as Hlen.
    unfold stepParticles in *.
    destruct (steps_layer
                (rev (seq 0 (length (particlesRef
                                       (replenish H P (clearPhase P w))))))
                (replenish H P (clearPhase P w)))
      as (landed & E & F & L & K).
    destruct (replenish_layer (clearPhase P w)) as (Ra & Rh).
    exists landed. rewrite E, Ra, Ea.
    split; [by destruct (accumulatedCanvasRef w) |].
    split; [done |].
    split; [rewrite Hlen; by rewrite length_rev, length_seq in L |].
    split; [discriminate |].
    intros ->. by rewrite K, Rh, Eh.
  - cbn [negb accumulatedCanvasRef heightMapRef particlesRef].
    exists []. rewrite Ea.
    split; [destruct (accumulatedCanvasRef w); simpl;
            [by rewrite app_nil_r | done] |].
    split; [constructor |]. split; [simpl; lia |]. by split.
Qed.

(** *** Which particles freeze

    A landing only raises the field, so a particle that touches the pile
    as it stands before the particle loop still touches it when the loop
    reaches the particle. *)

Lemma layer_depositAt_grows (width : nat) (pX : Z) (sz : Q) (h g : list Q) (k : Z) :
  0 <= sz -> Forall2 Qle h g -> Forall2 Qle h (depositAt width pX sz g k).
Proof.
  intros Hs Hg. unfold depositAt. cbv zeta.
  destruct (_ && _); [| done].
  apply Forall2_alter_r; [done |]. intros a b _ _ Hab. lra.
Qed.

Lemma layer_deposit_grows (width : nat) (pX : Z) (sz : Q) (h : list Q) :
  0 <= sz -> Forall2 Qle h (deposit width pX sz h).
Proof.
  intros Hs. unfold deposit.
  apply (FieldFacts.foldl_keeps (fun g => Forall2 Qle h g)).
  - intros g k Hg. by apply layer_depositAt_grows.
  - apply Forall_Forall2_diag, Forall_forall. intros v _. lra.
Qed.

Lemma collides_field (h g : list Q) (p : SnowParticle) :
  collides P (Some h) p = Some g -> g = h.
Proof.
  unfold collides. cbv zeta. destruct (_ && _); [| done].
  destruct (readZ h _); [| done]. destruct (Qgeb _ _); [| done].
  congruence.
Qed.

Lemma lands_mono (h h' : list Q) (p : SnowParticle) :
  Forall2 Qle h h' ->
  lands P (Some h) p = true -> lands P (Some h') p = true.
Proof.
  intros Hh. unfold lands, collides. cbv zeta.
  destruct (_ && _); [| done].
  unfold readZ. destruct (0 <=? Math_floor (x p))%Z; [| done].
  destruct (h !! Z.to_nat (Math_floor (x p))) as [a |] eqn:Ea; [| done].
  destruct (Forall2_lookup_l _ _ _ _ _ Hh Ea) as (b & -> & Hab).
  destruct (Qgeb (y p) (height P - a - size p)) eqn:G; [| done].
  intros _. apply Qgeb_true in G.
  assert (Qgeb (y p) (height P - b - size p) = true) as ->; [| done].
  apply Qgeb_true. lra.
Qed.

Lemma accumulated_step_other (w : World) (i j : nat) :
  i <> j ->
  particlesRef (stepParticle H P w i) !! j = particlesRef w !! j.
Proof.
  intros Hij. unfold stepParticle. destruct (particlesRef w !! i); [| done].
  destruct (collides _ _ _); simpl; by apply list_lookup_insert_ne.
Qed.

(** The loop body on the layer and the field. *)
Lemma step_lands (w : World) (i : nat) (p : SnowParticle)
  (ops : list DrawOp) (h : list Q) :
  particlesRef w !! i = Some p ->
  accumulatedCanvasRef w = Some ops ->
  heightMapRef w = Some h ->
  if lands P (Some h) (moved H P p)
  then accumulatedCanvasRef (stepParticle H P w i)
       = Some (ops ++ [flake (moved H P p)]) /\
       heightMapRef (stepParticle H P w i)
       = Some (deposit (width P) (Math_floor (x (moved H P p)))
                 (size (moved H P p)) h)
  else accumulatedCanvasRef (stepParticle H P w i) = Some ops /\
       heightMapRef (stepParticle H P w i) = Some h.
Proof.
  intros Hi Ha Hh. unfold stepParticle, lands. rewrite Hi, Hh. cbv zeta.
  destruct (collides P (Some h) (moved H P p)) as [g |] eqn:Ec.
  - apply collides_field in Ec as ->.
    cbn [accumulatedCanvasRef heightMapRef]. by rewrite Ha.
  - cbn [accumulatedCanvasRef heightMapRef]. by rewrite Ha.
Qed.

Lemma loop_landings (idx : list nat) (w : World) (ops : list DrawOp)
  (h : list Q) :
  List.NoDup idx ->
  accumulatedCanvasRef w = Some ops ->
  heightMapRef w = Some h ->
  (forall i p, In i idx -> particlesRef w !! i = Some p -> 0 <= size p) ->
  exists (landed : list SnowParticle) (h' : list Q),
    accumulatedCanvasRef (foldl (stepParticle H P) w idx)
    = Some (ops ++ map flake landed) /\
    heightMapRef (foldl (stepParticle H P) w idx) = Some h' /\
    Forall2 Qle h h' /\
    (length landed <= length idx)%nat /\
    (forall q, In q landed ->
               (exists i p, In i idx /\ particlesRef w !! i = Some p /\
                            q = moved H P p) /\
               lands P (Some h') q = true) /\
    (forall i p, In i idx -> particlesRef w !! i = Some p ->
                 lands P (Some h) (moved H P p) = true ->
                 In (moved H P p) landed).
Proof.
  revert w ops h.
  induction idx as [| i idx IH]; intros w ops h Hnd Ha Hh Hsz.
  - exists [], h. simpl. rewrite app_nil_r.
    split; [done |]. split; [done |].
    split; [apply Forall_Forall2_diag, Forall_forall; intros v _; lra |].
    split; [lia |]. split; [intros q [] | intros i p []].
  - apply NoDup_cons_iff in Hnd as [Hi Hnd]. simpl foldl.
    destruct (particlesRef w !! i) as [p |] eqn:Ei.
    + assert (Hother : forall j, In j idx ->
                particlesRef (stepParticle H P w i) !! j
                = particlesRef w !! j).
      { intros j Hj. apply accumulated_step_other. intros ->. done. }
      assert (Hsz' : forall j p', In j idx ->
                particlesRef (stepParticle H P w i) !! j = Some p' ->
                0 <= size p').
      { intros j p' Hj Hp'. rewrite Hother in Hp' by done.
        apply (Hsz j p'); [by right | done]. }
      assert (Hsp : 0 <= size (moved H P p)).
      { change (size (moved H P p)) with (size p).
        apply (Hsz i p); [by left | done]. }
      pose proof (step_lands w i p ops h Ei Ha Hh) as Hstep.
      destruct (lands P (Some h) (moved H P p)) eqn:El.
      * destruct Hstep as [Ha1 Hh1].
        destruct (IH _ _ _ Hnd Ha1 Hh1 Hsz')
          as (landed & h' & Ea & Eh & Hle & Hlen & Hsound & Hcompl).
        pose proof (layer_deposit_grows (width P) (Math_floor (x (moved H P p)))
                      (size (moved H P p)) h Hsp) as Hg.
        assert (Hhh' : Forall2 Qle h h').
        { eapply Forall2_trans; [| exact Hg | exact Hle].
          intros a b c; apply Qle_trans. }
        exists (moved H P p :: landed), h'.
        split; [rewrite Ea, <- app_assoc; done |].
        split; [done |]. split; [done |].
        split; [simpl; lia |]. split.
        -- intros q [<- | Hq].
           ++ split; [exists i, p; split; [by left | done] |].
              by apply (lands_mono h h').
           ++ destruct (Hsound q Hq) as ((j & p' & Hj & Hp' & ->) & Hl).
              split; [| done]. exists j, p'.
              split; [by right |]. split; [| done].
              by rewrite <- (Hother j Hj).
        -- intros j p' [<- | Hj] Hp' Hl.
           ++ assert (p' = p) as -> by congruence. by left.
           ++ right. apply (Hcompl j p'); [done | by rewrite Hother |].
              by apply (lands_mono h _).
      * destruct Hstep as [Ha1 Hh1].
        destruct (IH _ _ _ Hnd Ha1 Hh1 Hsz')
          as (landed & h' & Ea & Eh & Hle & Hlen & Hsound & Hcompl).
        exists landed, h'.
        split; [done |]. split; [done |]. split; [done |].
        split; [simpl; lia |]. split.
        -- intros q Hq.
           destruct (Hsound q Hq) as ((j & p' & Hj & Hp' & ->) & Hl).
           split; [| done]. exists j, p'.
           split; [by right |]. split; [| done].
           by rewrite <- (Hother j Hj).
        -- intros j p' [<- | Hj] Hp' Hl.
           ++ assert (p' = p) as -> by congruence. congruence.
           ++ apply (Hcompl j p'); [done | by rewrite Hother | done].
    + assert (Es : stepParticle H P w i = w)
        by (unfold stepParticle; by rewrite Ei).
      rewrite Es.
      destruct (IH w ops h Hnd Ha Hh)
        as (landed & h' & Ea & Eh & Hle & Hlen & Hsound & Hcompl).
      { intros j p' Hj. apply Hsz. by right. }
      exists landed, h'.
      split; [done |]. split; [done |]. split; [done |].
      split; [simpl; lia |]. split.
      * intros q Hq.
        destruct (Hsound q Hq) as ((j & p' & Hj & Hp' & ->) & Hl).
        split; [| done]. exists j, p'. split; [by right | done].
      * intros j p' [<- | Hj] Hp' Hl; [congruence |].
        by apply (Hcompl j p').
Qed.

Section Landings.
Hypothesis random_nonneg : forall n : nat, 0 <= random H n.

Lemma replenish_sizes (w : World) :
  Forall (fun p => 0 <= size p) (particlesRef w) ->
  Forall (fun p => 0 <= size p) (particlesRef (replenish H P w)).
Proof.
  intros Hw. unfold replenish. destruct (Nat.ltb _ _); [| done].
  cbn [particlesRef]. apply Forall_app. split; [done |].
  apply Forall_singleton. simpl.
  pose proof (random_nonneg (randomCalls w + 3)). lra.
Qed.

(** X26: in the overlay of src/components/SnowOverlay.tsx (random source
    not negative, particle sizes not negative), the frozen layer after a
    frame is the layer before it, emptied first when the motion score is
    above 0.3 or a sampled column reached the top margin, followed by one
    flake for each particle that landed in the frame, drawn at the
    particle's position after its move with its size and alpha.  Every
    particle of the pool whose position after the move touches the pile as
    it stands when the particle loop starts does land, and every flake
    added is such a moved particle of the pool, touching the pile as it
    stands when the frame ends; there are at most as many as particles in
    the pool.  While the effect is inactive nothing lands. *)
Theorem frozen_layer_frame (w : World) (ops : list DrawOp) (h : list Q) :
  accumulatedCanvasRef w = Some ops ->
  heightMapRef w = Some h ->
  Forall (fun p => 0 <= size p) (particlesRef w) ->
  (isActive P = false ->
   accumulatedCanvasRef (update H P w)
   = Some (if clears P w then [] else ops)) /\
  (isActive P = true ->
   let w1 := replenish H P (clearPhase P w) in
   exists landed : list SnowParticle,
     accumulatedCanvasRef (update H P w)
     = Some ((if clears P w then [] else ops) ++ map flake landed) /\
     (length landed <= length (particlesRef w1))%nat /\
     (forall q : SnowParticle,
        In q landed ->
        (exists p : SnowParticle, In p (particlesRef w1) /\ q = moved H P p) /\
        lands P (heightMapRef (update H P w)) q = true) /\
     (forall p : SnowParticle,
        In p (particlesRef w1) ->
        lands P (heightMapRef w1) (moved H P p) = true ->
        In (moved H P p) landed)).
Proof.
  intros Ha Hh Hsz.
  destruct (clearPhase_layer w) as (Ea & Eh & Ep).
  rewrite Ha in Ea. rewrite Hh in Eh. cbn [fmap option_fmap option_map] in Ea.
  split.
  - intros Hact. unfold update. cbv zeta. rewrite Hact. cbn [negb].
    cbn [accumulatedCanvasRef]. exact Ea.
  - intros Hact. cbv zeta. unfold update. cbv zeta. rewrite Hact. cbn [negb].
    set (w1 := replenish H P (clearPhase P w)).
    destruct (replenish_layer (clearPhase P w)) as (Ra & Rh).
    fold w1 in Ra, Rh.
    assert (Ea1 : accumulatedCanvasRef w1
                  = Some (if clears P w then [] else ops))
      by (by rewrite Ra).
    assert (Eh1 : heightMapRef w1
                  = Some (if clears P w then fill0 h else h)).
    { rewrite Rh, Eh. by destruct (clears P w). }
    assert (Hsz1 : Forall (fun p => 0 <= size p) (particlesRef w1)).
    { apply replenish_sizes. by rewrite Ep. }
    unfold stepParticles.
    destruct (loop_landings (rev (seq 0 (length (particlesRef w1)))) w1
                _ _ (NoDup_rev (seq_NoDup _ _)) Ea1 Eh1)
      as (landed & h' & Eacc & Ehm & _ & Hlen & Hsound & Hcompl).
    { intros i p _ Hp. rewrite Forall_forall in Hsz1. apply Hsz1.
      apply list_elem_of_lookup. by exists i. }
    exists landed. split; [exact Eacc |].
    split; [by rewrite length_rev, length_seq in Hlen |]. split.
    + intros q Hq. destruct (Hsound q Hq) as ((i & p & _ & Hp & ->) & Hl).
      split; [| by rewrite Ehm].
      exists p. split; [| done].
      apply list_elem_of_In, list_elem_of_lookup. by exists i.
    + intros p Hp Hl.
      apply list_elem_of_In, list_elem_of_lookup in Hp as (i & Hp).
      apply (Hcompl i p); [| done | by rewrite <- Eh1].
      apply in_rev. rewrite rev_involutive. apply in_seq.
      apply lookup_lt_Some in Hp. lia.
Qed.

End Landings.

(** X27: in the same overlay there is no height without a frozen flake:
    if the field is zero in every column whenever nothing is painted on
    the frozen layer, that stays so after any number of frames. *)
Theorem no_height_without_flake (n : nat) (w : World) :
  flat w -> flat (Nat.iter n (update H P) w).
Proof.
  intros Hw. induction n as [| n IH]; [done |].
  change (Nat.iter (S n) (update H P) w)
    with (update H P (Nat.iter n (update H P) w)).
  set (w' := Nat.iter n (update H P) w) in *.
  destruct (update_layer w') as (landed & E & _ & _ & _ & K).
  intros Hacc. rewrite E in Hacc.
  destruct (accumulatedCanvasRef w') as [ops |] eqn:Ea; [| discriminate].
  simpl in Hacc. injection Hacc as Hacc.
  apply app_eq_nil in Hacc as [Hc ->].
  rewrite (K eq_refl).
  destruct (clears P w').
  - destruct (heightMapRef w'); simpl; [apply FieldFacts.fill0_zero | done].
  - subst ops. by apply IH.
Qed.

End Layer.

End SnowLayerFacts.

(** ** Snow simulator: decay, deposit, and what stays true of the state *)

Module SnowShapeFacts.
Import Snow SnowShapes FieldFacts FrameFacts.
Local Open Scope Q_scope.

(** *** The decay *)

Lemma decayAt_lookup (h : list Q) (j i : nat) :
  decayAt h j !! i
  = if Nat.eqb i j then decayed <$> h !! i else h !! i.
Proof.
  unfold decayAt, decayed.
  destruct (Nat.eqb i j) eqn:E;
    [apply Nat.eqb_eq in E as -> | apply Nat.eqb_neq in E].
  - destruct (h !! j) as [v |] eqn:Hj; [| by rewrite Hj].
    simpl. destruct (Qgtb v 0.1) eqn:G; [| by rewrite Hj].
    rewrite list_lookup_insert_eq by (by eapply lookup_lt_Some).
    apply Qgtb_true in G.
    assert (Qltb (v - 0.02) 0 = false) as -> by (apply Qltb_false; lra).
    done.
  - destruct (h !! j) as [v |]; [| done].
    destruct (Qgtb v 0.1); [| done].
    apply list_lookup_insert_ne. auto.
Qed.

Lemma decayLoop_lookup (idx : list nat) (h : list Q) (i : nat) :
  List.NoDup idx ->
  foldl decayAt h idx !! i
  = if existsb (Nat.eqb i) idx then decayed <$> h !! i else h !! i.
Proof.
  revert h. induction idx as [| j idx IH]; intros h Hnd; simpl; [done |].
  apply NoDup_cons_iff in Hnd as [Hj Hnd].
  rewrite (IH _ Hnd), decayAt_lookup.
  destruct (Nat.eqb i j) eqn:E; simpl; [| done].
  apply Nat.eqb_eq in E as ->.
  destruct (existsb (Nat.eqb j) idx) eqn:Ex; [| done].
  apply existsb_exists in Ex as (k & Hk & Ek).
  apply Nat.eqb_eq in Ek as <-. done.
Qed.

Lemma stride_NoDup (step bound : nat) : List.NoDup (stride step bound).
Proof. unfold stride. apply List.NoDup_filter, seq_NoDup. Qed.

Lemma stride_existsb (step bound i : nat) :
  existsb (Nat.eqb i) (stride step bound)
  = Nat.ltb i bound && Nat.eqb (i mod step) 0.
Proof.
  apply eq_true_iff_eq.
  rewrite existsb_exists, andb_true_iff, Nat.ltb_lt, Nat.eqb_eq. split.
  - intros (k & Hk & E). apply Nat.eqb_eq in E as <-.
    by apply stride_spec in Hk.
  - intros Hi. exists i. split; [by apply stride_spec | apply Nat.eqb_refl].
Qed.

(** X12: the decay sweep leaves every cell in place and changes the value
    of exactly the cells at columns 0, 4, 8, ... below the width that hold
    more than 0.1: each of these is lowered by 0.02 (the statement allows
    0.001 either way, for the rounding of the single-precision store) and
    stays positive, so the clamp at zero never fires; every other cell
    keeps its value. *)
Theorem decay_sweep (width : nat) (h : list Q) (i : nat) (v : Q) :
  h !! i = Some v ->
  exists v' : Q,
    decay width h !! i = Some v' /\
    if Nat.ltb i width && Nat.eqb (i mod 4) 0 && Qgtb v 0.1
    then v - 0.021 <= v' /\ v' <= v - 0.019 /\ 0 < v'
    else v' = v.
Proof.
  intros Hi.
  unfold decay. rewrite decayLoop_lookup by apply stride_NoDup.
  rewrite stride_existsb, Hi. unfold decayed.
  destruct (Nat.ltb i width && Nat.eqb (i mod 4) 0); cbn [andb fmap option_fmap option_map].
  - destruct (Qgtb v 0.1) eqn:G.
    + apply Qgtb_true in G. exists (v - 0.02). split; [done |].
      repeat split; lra.
    + by exists v.
  - by exists v.
Qed.

(** *** A field without steep slopes *)

Lemma settleRight_settled (h : list Q) (i : nat) :
  settled h -> settleRight h i = h.
Proof.
  intros Hs. unfold settleRight.
  destruct (h !! i) as [me |] eqn:Hi; [| done].
  destruct (h !! (i + 1)%nat) as [rt |] eqn:Hj; [| done].
  destruct (Qgtb me (rt + threshold)) eqn:G; [| done].
  apply Qgtb_true in G.
  pose proof (Hs i (i + 1)%nat me rt (or_introl eq_refl) Hi Hj). lra.
Qed.

Lemma settleLeft_settled (h : list Q) (i : nat) :
  (1 <= i)%nat -> settled h -> settleLeft h i = h.
Proof.
  intros Hpos Hs. unfold settleLeft.
  destruct (h !! i) as [me |] eqn:Hi; [| done].
  destruct (h !! (i - 1)%nat) as [lt |] eqn:Hj; [| done].
  destruct (Qgtb me (lt + threshold)) eqn:G; [| done].
  apply Qgtb_true in G.
  assert (Hadj : (i - 1 = i + 1 \/ i = i - 1 + 1)%nat) by lia.
  pose proof (Hs i (i - 1)%nat me lt Hadj Hi Hj). lra.
Qed.

Lemma foldl_fixed (body : list Q -> nat -> list Q) (idx : list nat)
  (h : list Q) :
  (forall i, In i idx -> body h i = h) -> foldl body h idx = h.
Proof.
  induction idx as [| i idx IH]; intros Hb; simpl; [done |].
  rewrite (Hb i) by (by left). apply IH. intros; apply Hb. by right.
Qed.

(** X13: the smoothing leaves alone a field in which no cell exceeds a
    neighbour by more than the slope threshold: such a field is a fixed
    point of every pass. *)
Theorem smooth_settled (width : nat) (h : list Q) :
  settled h -> smoothPass width h = h /\ smooth width h = h.
Proof.
  intros Hs.
  assert (Hp : smoothPass width h = h).
  { unfold smoothPass, sweepLeft, sweepRight.
    rewrite (foldl_fixed settleRight)
      by (intros; by apply settleRight_settled).
    apply foldl_fixed. intros i Hi. apply settleLeft_settled; [| done].
    apply in_rev, in_seq in Hi. lia. }
  split; [done |]. unfold smooth.
  induction passes as [| n IH]; simpl; [done |]. by rewrite IH.
Qed.

(** *** The deposit of a collision *)

Section Deposit.
Variable H : Host.
Variable width : nat.
Variable pX : Z.
Variable sz : Q.

Lemma depositAt_lookup (h : list Q) (k : Z) (j : nat) :
  depositAt H width pX sz h k !! j
  = if (Z.of_nat j =? pX + k)%Z && Nat.ltb j width
    then (fun v => v + sz * 0.5 * falloff H k) <$> h !! j
    else h !! j.
Proof.
  unfold depositAt. cbv zeta.
  destruct ((0 <=? pX + k)%Z && (pX + k <? Z.of_nat width)%Z) eqn:C.
  - apply andb_true_iff in C as [C1 C2].
    apply Z.leb_le in C1. apply Z.ltb_lt in C2.
    destruct (Z.of_nat j =? pX + k)%Z eqn:E; simpl.
    + apply Z.eqb_eq in E.
      assert (Nat.ltb j width = true) as -> by (apply Nat.ltb_lt; lia).
      replace (Z.to_nat (pX + k)) with j by lia.
      apply list_lookup_alter_eq.
    + apply Z.eqb_neq in E. apply list_lookup_alter_ne. lia.
  - destruct (Z.of_nat j =? pX + k)%Z eqn:E; simpl; [| done].
    apply Z.eqb_eq in E.
    assert (Nat.ltb j width = false) as -> ; [| done].
    apply Nat.ltb_ge.
    apply andb_false_iff in C as [C | C];
      [apply Z.leb_gt in C | apply Z.ltb_ge in C]; lia.
Qed.

Lemma depositLoop_lookup (ks : list Z) (h : list Q) (j : nat) (v : Q) :
  List.NoDup ks -> h !! j = Some v ->
  foldl (depositAt H width pX sz) h ks !! j
  = Some (if existsb (fun k => (Z.of_nat j =? pX + k)%Z) ks && Nat.ltb j width
          then v + sz * 0.5 * falloff H (Z.of_nat j - pX)
          else v).
Proof.
  revert h v. induction ks as [| k ks IH]; intros h v Hnd Hj; simpl; [done |].
  apply NoDup_cons_iff in Hnd as [Hk Hnd].
  pose proof (depositAt_lookup h k j) as E. rewrite Hj in E. simpl in E.
  destruct (Z.of_nat j =? pX + k)%Z eqn:Ek; simpl in *.
  - apply Z.eqb_eq in Ek.
    destruct (Nat.ltb j width) eqn:Ew.
    + rewrite (IH _ _ Hnd E).
      assert (existsb (fun k0 => (Z.of_nat j =? pX + k0)%Z) ks = false) as ->.
      { apply not_true_iff_false. intros Hex.
        apply existsb_exists in Hex as (k' & Hin & Ek').
        apply Z.eqb_eq in Ek'. assert (k' = k) as -> by lia. done. }
      simpl. do 4 f_equal. lia.
    + rewrite (IH _ _ Hnd E). by rewrite andb_false_r.
  - by rewrite (IH _ _ Hnd E).
Qed.

Lemma offsets_NoDup : List.NoDup offsets.
Proof.
  unfold offsets. apply Finite.Injective_map_NoDup; [| apply seq_NoDup].
  intros a b Hab. lia.
Qed.

Lemma offsets_existsb (j : nat) :
  existsb (fun k => (Z.of_nat j =? pX + k)%Z) offsets
  = (Z.abs (Z.of_nat j - pX) <=? radius)%Z.
Proof.
  apply eq_true_iff_eq. rewrite existsb_exists, Z.leb_le. unfold radius. split.
  - intros (k & Hin & E). apply Z.eqb_eq in E.
    apply in_map_iff in Hin as (a & <- & Ha). apply in_seq in Ha.
    unfold radius in *. simpl in Ha. lia.
  - intros Hd. exists (Z.of_nat j - pX)%Z. split; [| apply Z.eqb_eq; lia].
    apply in_map_iff. exists (Z.to_nat (Z.of_nat j - pX + 8)). split.
    + unfold radius. lia.
    + apply in_seq. unfold radius. simpl. lia.
Qed.

(** X14: a collision in column [pX] raises exactly the cells of the surface at
    distance at most 8 from it, each by half the particle's size times the
    falloff of its distance; every other cell keeps its value. *)
Theorem deposit_exact (h : list Q) (j : nat) (v : Q) :
  h !! j = Some v ->
  deposit H width pX sz h !! j
  = Some (if (Z.abs (Z.of_nat j - pX) <=? radius)%Z && Nat.ltb j width
          then v + sz * 0.5 * falloff H (Z.of_nat j - pX)
          else v).
Proof.
  intros Hj. unfold deposit.
  rewrite (depositLoop_lookup offsets h j v offsets_NoDup Hj).
  by rewrite offsets_existsb.
Qed.

End Deposit.

(** *** The field has one cell per column, always *)

Section Fits.
Variable H : Host.

Lemma deposit_length (width : nat) (pX : Z) (sz : Q) (h : list Q) :
  length (deposit H width pX sz h) = length h.
Proof.
  unfold deposit.
  apply (foldl_keeps (fun g : list Q => length g = length h)); [| done].
  intros g k Hg. by rewrite depositAt_length.
Qed.

Lemma fieldPhase_fits (P : SnowOverlayProps) (w : World) :
  fieldFits P w -> fieldFits P (fieldPhase P w).
Proof.
  intros (h & Hw & Hlen). unfold fieldFits, fieldPhase. rewrite Hw.
  cbv beta iota zeta delta [heightMapRef]. eexists. split; [reflexivity |].
  destruct (shouldReset _ _); by rewrite ?fill0_length, relaxField_length.
Qed.

Lemma stepParticle_fits (P : SnowOverlayProps) (w : World) (i : nat) :
  fieldFits P w -> fieldFits P (stepParticle H P w i).
Proof.
  intros (h & Hw & Hlen). unfold fieldFits, stepParticle.
  destruct (particlesRef w !! i) as [p |]; [| eauto].
  destruct (collides P (heightMapRef w) (moved H P p)) as [g |] eqn:C.
  - apply collides_Some in C as [Hm _]. rewrite Hw in Hm.
    injection Hm as <-. simpl. eexists. split; [reflexivity |].
    by rewrite deposit_length.
  - simpl. eauto.
Qed.

Lemma update_fits (P : SnowOverlayProps) (w : World) :
  fieldFits P w -> fieldFits P (update H P w).
Proof.
  intros Hw. apply fieldPhase_fits in Hw. unfold update.
  destruct (_ && _); [done |]. unfold stepParticles.
  apply (foldl_keeps (fieldFits P)).
  - intros; by apply stepParticle_fits.
  - unfold fieldFits. by rewrite replenish_field.
Qed.

Lemma initParticles_field (P : SnowOverlayProps) (w : World) :
  heightMapRef (initParticles H P w) = heightMapRef w.
Proof.
  unfold initParticles. destruct (Nat.eqb _ _); [| done].
  generalize 300%nat as n. intros n. induction n as [| n IH]; [done |].
  simpl. exact IH.
Qed.

Lemma mainEffect_fits (P : SnowOverlayProps) (w : World) :
  fieldFits P w -> fieldFits P (mainEffect H P w).
Proof.
  intros Hw. apply update_fits. unfold fieldFits.
  by rewrite initParticles_field.
Qed.

Lemma resetHeightMap_fits (P : SnowOverlayProps) (w : World) :
  fieldFits P (resetHeightMap P w).
Proof.
  unfold fieldFits. simpl. eexists. split; [reflexivity |].
  apply length_replicate.
Qed.

Lemma react_fitted (c : Component) (e : Event) :
  fitted c -> fitted (react H c e).
Proof.
  unfold fitted. intros Hc. destruct e as [P' |]; simpl.
  - unfold render. destruct (props c) as [P |] eqn:E; simpl.
    + destruct (sameProps P P') eqn:Es; simpl; [by rewrite E |].
      apply mainEffect_fits.
      destruct (sameSize P P') eqn:Ez; [| apply resetHeightMap_fits].
      apply andb_true_iff in Ez as [Ew _]. apply Nat.eqb_eq in Ew.
      destruct Hc as (h & Hh & Hlen). exists h. split; [done | lia].
    + apply mainEffect_fits, resetHeightMap_fits.
  - unfold frame. destruct (props c) as [P |] eqn:E; simpl.
    + by apply update_fits.
    + by rewrite E.
Qed.

(** X15: once the component has rendered, and whatever renders (including
    resizes) and frames follow, the height field exists and has exactly one
    cell per column of the current surface width: no loop of a frame reads
    or writes outside it, and a resize replaces it by a field of the new
    width. *)
Theorem field_fits_surface (P : SnowOverlayProps) (es : list Event) :
  exists (P' : SnowOverlayProps) (h : list Q),
    props (run H (Render P :: es)) = Some P' /\
    heightMapRef (world (run H (Render P :: es))) = Some h /\
    length h = width P'.
Proof.
  assert (Hf : fitted (run H (Render P :: es))).
  { unfold run. apply (foldl_keeps fitted).
    - intros; by apply react_fitted.
    - done. }
  assert (Hm : props (run H (Render P :: es)) <> None).
  { unfold run. simpl.
    apply (foldl_keeps (fun c' => props c' <> None)).
    - intros; by apply react_mounted.
    - done. }
  unfold fitted in Hf.
  destruct (props (run H (Render P :: es))) as [P' |]; [| done].
  destruct Hf as (h & Hh & Hlen). eauto.
Qed.

End Fits.

(** *** Particles stay on the surface *)

Section Screen.
Variable H : Host.
Variable P : SnowOverlayProps.
Hypothesis random_range : forall n : nat, 0 <= random H n /\ random H n < 1.
Hypothesis height_range : -10 <= height P.

Lemma width_nonneg : 0 <= inject_Z (Z.of_nat (width P)).
Proof. change 0 with (inject_Z 0). rewrite <- Zle_Qle. lia. Qed.

Lemma moved_x (p : SnowParticle) :
  0 <= x (moved H P p) /\ x (moved H P p) <= inject_Z (Z.of_nat (width P)).
Proof.
  pose proof width_nonneg as Hw. unfold moved. cbv zeta. simpl.
  set (x2 := x p + vx p + sin H ((y p + vy p) * 0.02) * 0.5).
  destruct (Qltb x2 0) eqn:E1.
  - destruct (Qgtb _ _) eqn:E2; [lra |]. apply Qgtb_false in E2. lra.
  - apply Qltb_false in E1.
    destruct (Qgtb x2 _) eqn:E2; [lra |]. apply Qgtb_false in E2. lra.
Qed.

Lemma fresh_onScreen (n : nat) :
  onScreen P (createParticle H n (width P) (height P) defaultStartY).
Proof.
  pose proof width_nonneg as Hw. destruct (random_range n) as [H0 H1].
  unfold onScreen, defaultStartY. simpl. repeat split; [nra | nra | lra].
Qed.

Lemma stepParticle_slot (w : World) (i : nat) (p : SnowParticle) :
  particlesRef w !! i = Some p ->
  exists p' : SnowParticle,
    particlesRef (stepParticle H P w i) !! i = Some p' /\ onScreen P p'.
Proof.
  intros Hi. pose proof (lookup_lt_Some _ _ _ Hi) as Hlt.
  unfold stepParticle. rewrite Hi.
  destruct (collides _ _ _); simpl.
  - eexists. split; [by apply list_lookup_insert_eq | apply fresh_onScreen].
  - eexists. split; [by apply list_lookup_insert_eq |].
    destruct (Qgtb (y p + vy p) (height P)) eqn:E;
      [apply fresh_onScreen |].
    apply Qgtb_false in E. destruct (moved_x p). by repeat split.
Qed.

Lemma stepParticles_slot (w : World) (i : nat) (p : SnowParticle) :
  particlesRef w !! i = Some p ->
  exists p' : SnowParticle,
    particlesRef (stepParticles H P w) !! i = Some p' /\ onScreen P p'.
Proof.
  intros Hi. pose proof (lookup_lt_Some _ _ _ Hi) as Hlt.
  unfold stepParticles.
  assert (Hin : In i (rev (seq 0 (length (particlesRef w))))).
  { apply in_rev. rewrite rev_involutive. apply in_seq. lia. }
  pose proof (loop_indices_NoDup (length (particlesRef w))) as Hnd.
  destruct (in_split _ _ Hin) as (l1 & l2 & E). rewrite E in Hnd |- *.
  apply NoDup_remove_2 in Hnd.
  rewrite foldl_app. simpl.
  set (w1 := foldl (stepParticle H P) w l1).
  assert (H1 : particlesRef w1 !! i = Some p).
  { unfold w1. rewrite stepLoop_other; [done |].
    intros Hc. apply Hnd, in_or_app. by left. }
  destruct (stepParticle_slot w1 i p H1) as (p' & Hp' & Hs).
  exists p'. split; [| done].
  rewrite stepLoop_other; [done |].
  intros Hc. apply Hnd, in_or_app. by right.
Qed.

(** X16: after a frame every particle of the pool is inside the surface
    horizontally (the wrap sends a particle that left on one side to the
    other edge) and not below the bottom edge (a particle that fell past it
    was recycled to the top). *)
Theorem particles_stay_on_screen (w : World) :
  Forall (onScreen P) (particlesRef (update H P w)).
Proof.
  unfold update.
  destruct (negb (isActive P)
            && Nat.eqb (length (particlesRef (fieldPhase P w))) 0) eqn:E.
  - apply andb_true_iff in E as [_ E]. apply Nat.eqb_eq in E.
    destruct (particlesRef (fieldPhase P w)); [constructor | done].
  - apply Forall_lookup. intros i p' Hi.
    pose proof (lookup_lt_Some _ _ _ Hi) as Hlt.
    rewrite stepParticles_length in Hlt.
    destruct (lookup_lt_is_Some_2 _ _ Hlt) as [p Hp].
    destruct (stepParticles_slot _ i p Hp) as (p'' & Hp'' & Hs).
    rewrite Hi in Hp''. by injection Hp'' as <-.
Qed.

End Screen.

End SnowShapeFacts.

(** ** Frost mask: strokes, drips and erasure *)

Module FrostFacts.
Import Frost.
Local Open Scope Q_scope.

Section Events.
Variable random : nat -> Q.
Variable height : Q.

(** *** Calls are only ever appended to the mask *)

Lemma drawingEffect_extends (dp : option Types.Point) (s : State) :
  exists more : list MaskOp,
    maskCanvas (drawingEffect random dp s) = maskCanvas s ++ more /\
    Forall alphaOk more.
Proof.
  unfold drawingEffect. destruct dp as [pt |].
  - eexists [_]. split; [done |]. apply Forall_singleton.
    unfold alphaOk. destruct (lastPointRef s); simpl; lra.
  - exists []. rewrite app_nil_r. split; [| done].
    destruct (lastPointRef s); [| done]. by destruct (Qltb _ _).
Qed.

Lemma stepDrip_extends (s : State) (i : nat) :
  exists more : list MaskOp,
    maskCanvas (stepDrip random height s i) = maskCanvas s ++ more /\
    Forall alphaOk more.
Proof.
  unfold stepDrip. destruct (dripsRef s !! i) as [d |].
  - eexists [_]. split; [done |]. apply Forall_singleton.
    unfold alphaOk. simpl. lra.
  - exists []. by rewrite app_nil_r.
Qed.

Lemma render_extends (s : State) :
  exists more : list MaskOp,
    maskCanvas (render random height s) = maskCanvas s ++ more /\
    Forall alphaOk more.
Proof.
  unfold render. generalize (rev (seq 0 (length (dripsRef s)))) as idx.
  intros idx. revert s. induction idx as [| i idx IH]; intros s; simpl.
  - exists []. by rewrite app_nil_r.
  - destruct (IH (stepDrip random height s i)) as (m2 & E2 & F2).
    destruct (stepDrip_extends s i) as (m1 & E1 & F1).
    exists (m1 ++ m2). rewrite E2, E1, app_assoc.
    split; [done | by apply Forall_app].
Qed.

Lemma react_extends (s : State) (e : Event) :
  e <> Reset ->
  exists more : list MaskOp,
    maskCanvas (react random height s e) = maskCanvas s ++ more /\
    Forall alphaOk more.
Proof.
  intros He. destruct e as [| dp |]; simpl; [done | |].
  - apply drawingEffect_extends.
  - apply render_extends.
Qed.

Lemma react_alphaOk (s : State) (e : Event) :
  Forall alphaOk (maskCanvas s) ->
  Forall alphaOk (maskCanvas (react random height s e)).
Proof.
  intros Hs. destruct e as [| dp |]; [by simpl | |].
  - destruct (react_extends s (Draw dp)) as (more & -> & Hm);
      [done | by apply Forall_app].
  - destruct (react_extends s Frame) as (more & -> & Hm);
      [done | by apply Forall_app].
Qed.

Lemma run_alphaOk (es : list Event) : Forall alphaOk (maskCanvas (run random height es)).
Proof.
  unfold run.
  apply (FieldFacts.foldl_keeps (fun s => Forall alphaOk (maskCanvas s))).
  - intros; by apply react_alphaOk.
  - by simpl.
Qed.

(** A frame without drips does nothing to the state. *)
Lemma render_idle (s : State) : dripsRef s = [] -> render random height s = s.
Proof. intros E. unfold render. by rewrite E. Qed.

(** *** Erasure only accumulates *)

Section Erasure.
Variable coverage : MaskOp -> Pixel -> Q.
Hypothesis coverage_range :
  forall (op : MaskOp) (px : Pixel),
    0 <= coverage op px /\ coverage op px <= 1.

Lemma paint_range (px : Pixel) (dst : Q) (op : MaskOp) :
  alphaOk op -> 0 <= dst <= 1 ->
  dst <= paint coverage px dst op /\ paint coverage px dst op <= 1.
Proof.
  intros [Ha0 Ha1] [Hd0 Hd1]. unfold paint, sourceOver.
  destruct (coverage_range op px) as [Hc0 Hc1].
  assert (0 <= coverage op px * opAlpha op) by nra.
  assert (coverage op px * opAlpha op <= 1) by nra.
  split; nra.
Qed.

Lemma paint_full (px : Pixel) (dst : Q) (op : MaskOp) :
  dst == 1 -> paint coverage px dst op == 1.
Proof. intros E. unfold paint, sourceOver. rewrite E. ring. Qed.

Lemma paints_range (px : Pixel) (more : list MaskOp) (dst : Q) :
  Forall alphaOk more -> 0 <= dst <= 1 ->
  dst <= foldl (paint coverage px) dst more /\
  foldl (paint coverage px) dst more <= 1.
Proof.
  intros Hm. revert dst. induction Hm as [| op more Hop Hm IH];
    intros dst Hd; simpl; [lra |].
  destruct (paint_range px dst op Hop Hd) as [H1 H2].
  destruct (IH (paint coverage px dst op)) as [H3 H4]; [lra |]. lra.
Qed.

Lemma paints_full (px : Pixel) (more : list MaskOp) (dst : Q) :
  dst == 1 -> foldl (paint coverage px) dst more == 1.
Proof.
  revert dst. induction more as [| op more IH]; intros dst E; simpl; [done |].
  by apply IH, paint_full.
Qed.

Lemma erasure_range (ops : list MaskOp) (px : Pixel) :
  Forall alphaOk ops ->
  0 <= erasure coverage ops px /\ erasure coverage ops px <= 1.
Proof.
  intros Hops. unfold erasure.
  destruct (paints_range px ops 0 Hops); lra.
Qed.

(** C7: absent a reset (or resize, which runs the same effect), erasure is
    monotonic.  In every state the simulator can reach, an event other than
    the reset only appends calls to the mask; each call (the connecting
    stroke, the start-of-stroke dot, a drip's trail stamp) leaves every
    pixel's accumulated erasure opacity at least what it was, and a fully
    erased pixel fully erased; only the reset brings erasure down, to
    zero. *)
Theorem mask_erasure_monotone (es : list Event) (e : Event) (px : Pixel) :
  e <> Reset ->
  (exists more : list MaskOp,
     maskCanvas (react random height (run random height es) e)
     = maskCanvas (run random height es) ++ more /\
     forall (k : nat) (op : MaskOp),
       more !! k = Some op ->
       erasure coverage (maskCanvas (run random height es) ++ take k more) px
       <= erasure coverage (maskCanvas (run random height es) ++ take (S k) more) px) /\
  erasure coverage (maskCanvas (run random height es)) px
  <= erasure coverage (maskCanvas (react random height (run random height es) e)) px /\
  (erasure coverage (maskCanvas (run random height es)) px == 1 ->
   erasure coverage (maskCanvas (react random height (run random height es) e)) px == 1) /\
  erasure coverage (maskCanvas (react random height (run random height es) Reset)) px = 0.
Proof.
  intros He.
  pose proof (run_alphaOk es) as Hok.
  destruct (react_extends (run random height es) e He) as (more & E & Hmore).
  pose proof (erasure_range _ px Hok) as Hr.
  split; [| split; [| split]].
  - exists more. split; [done |]. intros k op Hk.
    rewrite (take_S_r more k op Hk), app_assoc.
    unfold erasure at 2. rewrite foldl_app. simpl.
    apply paint_range.
    + by apply (Forall_lookup_1 _ _ _ _ Hmore Hk).
    + apply erasure_range, Forall_app. split; [done |].
      by apply Forall_take.
  - rewrite E. unfold erasure at 2. rewrite foldl_app.
    by apply paints_range.
  - intros Hfull. rewrite E. unfold erasure at 1. rewrite foldl_app.
    by apply paints_full.
  - done.
Qed.

End Erasure.

(** *** The sequence (10,10), (20,10), null *)

(** C8: after a reset, the points (10,10) and (20,10) leave on the mask the
    start-of-stroke dot at (10,10) and exactly one stroke, from (10,10) to
    (20,10); no drip exists yet.  The null that ends the gesture draws
    nothing more and clears the stroke reference; it draws one random
    number and, when that number is below 0.4, spawns exactly one drip, at
    the stroke's last position (20,10) (x jittered by at most half the
    brush size, zero horizontal velocity, downward velocity in [0.5, 2),
    life in [20, 50)); otherwise it spawns none. *)
Theorem stroke_then_drip (s0 : State) :
  let p1 := {| Types.x := 10; Types.y := 10 |} in
  let p2 := {| Types.x := 20; Types.y := 10 |} in
  let n := randomCalls s0 in
  let s := foldl (react random height) (resetEffect s0)
             [Draw (Some p1); Draw (Some p2)] in
  let s' := react random height s (Draw None) in
  let drip := {| x := 20 + (random (n + 1)%nat - 0.5) * brushSize;
                 y := 10;
                 vx := 0;
                 vy := 0.5 + random (n + 2)%nat * 1.5;
                 size := 1.0 + random (n + 3)%nat * 1.5;
                 life := 20 + random (n + 4)%nat * 30 |} in
  maskCanvas s = [fillArc 10 10 brushSize 1; stroke p1 p2 (brushSize * 2) 1] /\
  dripsRef s = [] /\
  lastPointRef s = Some p2 /\
  maskCanvas s' = maskCanvas s /\
  lastPointRef s' = None /\
  dripsRef s' = (if Qltb (random n) 0.4 then [drip] else []) /\
  ((forall k : nat, 0 <= random k /\ random k < 1) ->
   14 <= x drip /\ x drip < 26 /\
   0.5 <= vy drip /\ vy drip < 2 /\
   20 <= life drip /\ life drip < 50).
Proof.
  cbv zeta.
  split; [reflexivity |]. split; [reflexivity |]. split; [reflexivity |].
  split; [simpl; by destruct (Qltb _ _) |].
  split; [simpl; by destruct (Qltb _ _) |].
  split.
  - simpl. destruct (Qltb _ _); simpl; [| done].
    unfold newDrip. simpl.
    replace (randomCalls s0 + 1 + 1)%nat with (randomCalls s0 + 2)%nat by lia.
    replace (randomCalls s0 + 1 + 2)%nat with (randomCalls s0 + 3)%nat by lia.
    replace (randomCalls s0 + 1 + 3)%nat with (randomCalls s0 + 4)%nat by lia.
    reflexivity.
  - intros Hr. cbv beta iota delta [x vy life brushSize].
    pose proof (Hr (randomCalls s0 + 1)%nat).
    pose proof (Hr (randomCalls s0 + 2)%nat).
    pose proof (Hr (randomCalls s0 + 4)%nat).
    repeat split; lra.
Qed.

End Events.

End FrostFacts.

(** ** Frost mask: gestures and drips *)

Module FrostLoopFacts.
Import Frost.
Local Open Scope Q_scope.

Section Events.
Variable random : nat -> Q.
Variable height : Q.

(** *** Gestures *)

Lemma last_cons_default (q p : Types.Point) (rest : list Types.Point) :
  List.last (q :: rest) p = List.last rest q.
Proof.
  revert q p. induction rest as [| a rest IH]; intros q p; [done |].
  change (List.last (q :: a :: rest) p) with (List.last (a :: rest) p).
  by rewrite !IH.
Qed.

Lemma strokes_from (s : State) (p : Types.Point) (rest : list Types.Point) :
  lastPointRef s = Some p ->
  let s' := foldl (react random height) s (map (fun q => Draw (Some q)) rest) in
  maskCanvas s' = maskCanvas s ++ strokes p rest /\
  lastPointRef s' = Some (List.last rest p) /\
  dripsRef s' = dripsRef s /\ randomCalls s' = randomCalls s.
Proof.
  revert s p. induction rest as [| q rest IH]; intros s p Hs;
    cbn [map foldl react]; cbv zeta.
  - by rewrite app_nil_r.
  - pose proof (IH (drawingEffect random (Some q) s) q eq_refl) as IH'.
    cbv zeta in IH'. destruct IH' as (E1 & E2 & E3 & E4).
    rewrite E1, E2, E3, E4. unfold drawingEffect at 1 2 3. rewrite Hs.
    cbn [maskCanvas dripsRef randomCalls]. rewrite <- app_assoc.
    split; [done |]. split; [| done]. by rewrite last_cons_default.
Qed.

(** X8: a gesture through [n + 1] points that starts with no stroke in
    progress leaves on the mask one dot at the first point and [n] strokes,
    each from one point to the next, in order; it spawns no drip and reads
    no random number, and the stroke reference ends on the last point. *)
Theorem gesture_draws_chain (s : State) (p : Types.Point)
  (rest : list Types.Point) :
  lastPointRef s = None ->
  let s' := foldl (react random height) s
              (map (fun q => Draw (Some q)) (p :: rest)) in
  maskCanvas s' = maskCanvas s ++ strokeChain p rest /\
  length (strokes p rest) = length rest /\
  lastPointRef s' = Some (List.last rest p) /\
  dripsRef s' = dripsRef s /\ randomCalls s' = randomCalls s.
Proof.
  intros Hs. cbn [map foldl react]. cbv zeta.
  pose proof (strokes_from (drawingEffect random (Some p) s) p rest eq_refl)
    as Hc.
  cbv zeta in Hc. destruct Hc as (E1 & E2 & E3 & E4).
  rewrite E1, E2, E3, E4. unfold drawingEffect at 1 2 3. rewrite Hs.
  cbn [maskCanvas dripsRef randomCalls]. rewrite <- app_assoc.
  split; [done |]. split; [| done].
  clear. revert p. induction rest as [| q rest IH]; intros p; simpl; auto.
Qed.

Lemma gesture_end_parts (s : State) :
  maskCanvas (drawingEffect random None s) = maskCanvas s /\
  lastPointRef (drawingEffect random None s) = None /\
  (length (dripsRef s) <= length (dripsRef (drawingEffect random None s))
   <= length (dripsRef s) + 1)%nat.
Proof.
  unfold drawingEffect. destruct (lastPointRef s) as [lp |].
  - destruct (Qltb (random (randomCalls s)) 0.4); simpl;
      rewrite ?length_app; simpl; repeat split; lia.
  - simpl. repeat split; lia.
Qed.

(** X9: the end of a gesture draws nothing on the mask and spawns at most one
    drip; a second null in a row changes nothing; and the first point
    after the null stamps a dot, so no stroke ever joins two gestures. *)
Theorem gesture_end_separates (s : State) (pt : Types.Point) :
  let s1 := drawingEffect random None s in
  maskCanvas s1 = maskCanvas s /\
  lastPointRef s1 = None /\
  (length (dripsRef s) <= length (dripsRef s1) <= length (dripsRef s) + 1)%nat /\
  drawingEffect random None s1 = s1 /\
  maskCanvas (drawingEffect random (Some pt) s1)
  = maskCanvas s ++ [fillArc (Types.x pt) (Types.y pt) brushSize 1].
Proof.
  unfold drawingEffect. destruct (lastPointRef s) as [lp |] eqn:E.
  - destruct (Qltb (random (randomCalls s)) 0.4); simpl;
      rewrite ?length_app; simpl; repeat split; lia.
  - simpl. repeat split; lia.
Qed.

(** *** Drips *)

Lemma stepDrip_last (s : State) (l r : list Drip) (d : Drip) :
  dripsRef s = (l ++ [d]) ++ r ->
  maskCanvas (stepDrip random height s (length l)) = maskCanvas s ++ [stamp d] /\
  lastPointRef (stepDrip random height s (length l)) = lastPointRef s /\
  (dripsRef (stepDrip random height s (length l)) = l ++ r \/
   exists d' : Drip,
     dripsRef (stepDrip random height s (length l)) = l ++ d' :: r /\
     steppedFrom d d' /\ 0 < life d' /\ y d' <= height).
Proof.
  intros E. unfold stepDrip. rewrite E, <- app_assoc. simpl.
  rewrite list_lookup_middle by done. simpl.
  split; [done |]. split; [done |].
  destruct (Qle_bool (life d - 1) 0 || Qgtb (y d + vy d) height) eqn:C.
  - left. apply delete_middle.
  - right. apply orb_false_iff in C as [C1 C2].
    apply Qgtb_false in C2.
    assert (0 < life d - 1).
    { apply Qnot_le_lt. intros Hc. apply Qle_bool_iff in Hc. congruence. }
    eexists. split.
    + replace (length l) with (length l + 0)%nat at 1 by lia.
      rewrite insert_app_r. reflexivity.
    + unfold steppedFrom. simpl. done.
Qed.

Lemma stepLoop_drips (l r : list Drip) (s : State) :
  dripsRef s = l ++ r ->
  let s' := foldl (stepDrip random height) s (rev (seq 0 (length l))) in
  maskCanvas s' = maskCanvas s ++ map stamp (rev l) /\
  lastPointRef s' = lastPointRef s /\
  exists l' : list Drip, dripsRef s' = l' ++ r /\ aged height l l'.
Proof.
  revert r s. induction l as [| d l IH] using rev_ind; intros r s E.
  - simpl. rewrite app_nil_r. repeat split. exists []. split; [done |].
    split; [done | constructor].
  - rewrite length_app. simpl length.
    rewrite seq_app, rev_app_distr. simpl.
    destruct (stepDrip_last s l r d E) as (Em & El & Hd).
    rewrite rev_app_distr. simpl.
    destruct Hd as [Hd | (d' & Hd & Hst & Hpos & Hy)].
    + destruct (IH r _ Hd) as (-> & -> & l' & -> & Hlen & Hall).
      rewrite Em, El, <- app_assoc. repeat split.
      exists l'. split; [done |]. split.
      * rewrite length_app. simpl. lia.
      * eapply Forall_impl; [exact Hall |].
        intros d1 ((d0 & Hin & Hs0) & ? & ?). split; [| done].
        exists d0. split; [| done]. apply elem_of_app. by left.
    + destruct (IH (d' :: r) _ Hd) as (-> & -> & l' & -> & Hlen & Hall).
      rewrite Em, El, <- app_assoc. repeat split.
      exists (l' ++ [d']). split; [by rewrite <- app_assoc |]. split.
      * rewrite !length_app. simpl. lia.
      * apply Forall_app. split.
        -- eapply Forall_impl; [exact Hall |].
           intros d1 ((d0 & Hin & Hs0) & ? & ?). split; [| done].
           exists d0. split; [| done]. apply elem_of_app. by left.
        -- apply Forall_singleton. split; [| done].
           exists d. split; [| done]. apply elem_of_app. right.
           by apply list_elem_of_singleton.
Qed.

Lemma render_drips (s : State) :
  maskCanvas (render random height s)
  = maskCanvas s ++ map stamp (rev (dripsRef s)) /\
  lastPointRef (render random height s) = lastPointRef s /\
  aged height (dripsRef s) (dripsRef (render random height s)).
Proof.
  unfold render.
  destruct (stepLoop_drips (dripsRef s) [] s) as (Em & El & l' & Ed & Ha);
    [by rewrite app_nil_r |].
  rewrite app_nil_r in Ed. by rewrite Em, El, Ed.
Qed.

(** X10: an animation frame stamps the mask once for every drip it finds, at the
    drip's position after its move and with the drip's radius, the last
    drip of the pool first; it never adds a drip, and every drip it leaves
    is a drip it found, moved and one unit of life older, still alive and
    not below the bottom edge.  The stroke in progress is untouched. *)
Theorem frame_stamps_each_drip (s : State) :
  maskCanvas (render random height s)
  = maskCanvas s ++ map stamp (rev (dripsRef s)) /\
  lastPointRef (render random height s) = lastPointRef s /\
  (length (dripsRef (render random height s)) <= length (dripsRef s))%nat /\
  Forall (fun d' => (exists d, d ∈ dripsRef s /\ steppedFrom d d') /\
                    0 < life d' /\ y d' <= height)
         (dripsRef (render random height s)).
Proof.
  destruct (render_drips s) as (Em & El & Hlen & Hall). done.
Qed.

(** X11: drips whose life is at most [n] are all gone after [n] animation
    frames. *)
Theorem drips_drain (n : nat) (s : State) :
  Forall (fun d => 0 < life d /\ life d <= inject_Z (Z.of_nat n)) (dripsRef s) ->
  dripsRef (Nat.iter n (render random height) s) = [].
Proof.
  revert s. induction n as [| n IH]; intros s Hs.
  - simpl. destruct (dripsRef s) as [| d ds]; [done |].
    apply Forall_cons in Hs as [[H1 H2] _].
    change (inject_Z (Z.of_nat 0)) with 0 in H2. lra.
  - rewrite Nat.iter_succ_r. apply IH.
    destruct (render_drips s) as (_ & _ & _ & Hall).
    eapply Forall_impl; [exact Hall |].
    intros d' ((d & Hin & Hst) & Hpos & _). split; [done |].
    rewrite Forall_forall in Hs. destruct (Hs d Hin) as [_ Hle].
    destruct Hst as (_ & _ & _ & _ & ->).
    rewrite Nat2Z.inj_succ, <- Z.add_1_r, inject_Z_plus in Hle.
    change (inject_Z 1) with 1 in Hle. lra.
Qed.

End Events.

End FrostLoopFacts.

(** ** Sparkler overlay *)

Module SparklerFacts.
Import FireworksLoop Sparkler Loops.
Local Open Scope Q_scope.

Lemma spark_step_pool (w : World) (i : nat) :
  particlesRef (stepParticle w i) = spliceStep survive (particlesRef w) i.
Proof.
  unfold stepParticle, spliceStep, survive.
  destruct (particlesRef w !! i) as [p |]; [| done].
  simpl. by destruct (dead (age p)).
Qed.

Lemma spark_steps_pool (w : World) :
  particlesRef (stepParticles w) = omap survive (particlesRef w).
Proof.
  unfold stepParticles.
  assert (E : forall idx w',
             particlesRef (foldl stepParticle w' idx)
             = foldl (spliceStep survive) (particlesRef w') idx).
  { induction idx as [| i idx IH]; intros w'; simpl; [done |].
    by rewrite IH, spark_step_pool. }
  rewrite E. apply LoopFacts.reverseLoop_omap.
Qed.

Section Emit.
Variable H : Host.
Hypothesis random_range : forall k : nat, 0 <= random H k /\ random H k < 1.

Lemma createParticle_emitted (n : nat) (target : Types.Point) (ox oy : Q) :
  -0.75 <= ox -> ox < 0.75 -> -0.75 <= oy -> oy < 0.75 ->
  emittedAt target
    (fst (createParticle H n (Types.x target + ox) (Types.y target + oy))).
Proof.
  intros ? ? ? ?. unfold emittedAt, createParticle. cbv zeta.
  pose proof (random_range (n + 2)) as [? ?].
  destruct (Qgtb (random H (n + 3)) 0.9);
    [| destruct (Qgtb (random H (n + 3)) 0.3)]; simpl.
  - pose proof (random_range (n + 4)) as [? ?]. repeat split; lra.
  - pose proof (random_range (n + 6)) as [? ?]. repeat split; lra.
  - pose proof (random_range (n + 6)) as [? ?]. repeat split; lra.
Qed.

Lemma emitOne_pool (target : Types.Point) (w : World) :
  exists p : Particle,
    particlesRef (emitOne H target w) = particlesRef w ++ [p] /\
    emittedAt target p.
Proof.
  unfold emitOne. cbv zeta.
  pose proof (random_range (randomCalls w)) as [? ?].
  pose proof (random_range (randomCalls w + 1)) as [? ?].
  pose proof (createParticle_emitted (randomCalls w + 2) target
                ((random H (randomCalls w) - 0.5) * 1.5)
                ((random H (randomCalls w + 1) - 0.5) * 1.5)) as He.
  destruct (createParticle H (randomCalls w + 2) _ _) as [p n'].
  exists p. split; [done |]. apply He; lra.
Qed.

Lemma emitLoop_pool (target : Types.Point) (k : nat) (w : World) :
  exists group : list Particle,
    particlesRef (Nat.iter k (emitOne H target) w) = particlesRef w ++ group /\
    length group = k /\ Forall (emittedAt target) group.
Proof.
  induction k as [| k (group & E & Hlen & Hall)]; simpl.
  - exists []. by rewrite app_nil_r.
  - destruct (emitOne_pool target (Nat.iter k (emitOne H target) w))
      as (p & Ep & He).
    exists (group ++ [p]). rewrite Ep, E, <- app_assoc.
    split; [done |]. split; [rewrite length_app; simpl; lia |].
    apply Forall_app. split; [done | by apply Forall_singleton].
Qed.

Lemma emitted_survives (target : Types.Point) (p : Particle) :
  emittedAt target p -> survive p = Some (age p).
Proof.
  intros (_ & _ & _ & _ & _ & Hl & _). unfold survive, dead.
  assert (Qle_bool (life (age p)) 0 = false) as ->; [| done].
  apply not_true_iff_false. intros Hc. apply Qle_bool_iff in Hc.
  simpl in Hc. lra.
Qed.

Lemma emit_pool (isActive : bool) (targetPosition : option Types.Point)
  (w : World) :
  exists group : list Particle,
    particlesRef (emit H isActive targetPosition w) = particlesRef w ++ group /\
    length group
    = (if isActive
          && match targetPosition with Some _ => true | None => false end
       then particlesToEmit else 0%nat) /\
    (forall t : Types.Point,
       targetPosition = Some t -> Forall (emittedAt t) group).
Proof.
  unfold emit.
  destruct isActive; [destruct targetPosition as [t |] |].
  - destruct (emitLoop_pool t particlesToEmit w) as (group & E & Hlen & Hall).
    revert E. generalize (Nat.iter particlesToEmit (emitOne H t) w).
    intros w1 E. exists group.
    split; [exact E |]. split; [exact Hlen |].
    intros t' Ht. injection Ht as <-. exact Hall.
  - exists []. rewrite app_nil_r. split; [reflexivity |].
    split; [reflexivity |]. intros t Ht. discriminate Ht.
  - exists []. rewrite app_nil_r. split; [reflexivity |].
    split; [reflexivity |]. intros t _. constructor.
Qed.

Lemma emitted_group_survives (t : Types.Point) (group : list Particle) :
  Forall (emittedAt t) group -> omap survive group = map age group.
Proof.
  induction 1 as [| p group Hp Hall IH]; [reflexivity |].
  change (omap survive (p :: group))
    with (match survive p with
          | Some q => q :: omap survive group
          | None => omap survive group
          end).
  rewrite (emitted_survives t p Hp), IH. reflexivity.
Qed.

(** X17: the pool after a frame is the pool before it with every spark aged
    once and the dead ones dropped, in order, followed, when the effect is
    active and a target is known, by the 12 sparks emitted in the frame,
    each already aged once; a new spark starts within 0.75 of the target on
    both axes, with 20 to 50 frames to live. *)
Theorem sparkler_frame_pool (isActive : bool)
  (targetPosition : option Types.Point) (w : World) :
  exists group : list Particle,
    particlesRef (update H isActive targetPosition w)
    = omap survive (particlesRef w) ++ map age group /\
    length group
    = (if isActive
          && match targetPosition with Some _ => true | None => false end
       then particlesToEmit else 0%nat) /\
    (forall t : Types.Point,
       targetPosition = Some t -> Forall (emittedAt t) group).
Proof.
  unfold update. rewrite spark_steps_pool.
  destruct (emit_pool isActive targetPosition
              {| particlesRef := particlesRef w;
                 randomCalls := randomCalls w;
                 canvas := [] |}) as (group & E & Hlen & Hall).
  exists group. rewrite E, omap_app.
  split; [| split; [exact Hlen | exact Hall]].
  f_equal.
  destruct targetPosition as [t |].
  - apply (emitted_group_survives t), Hall. reflexivity.
  - destruct isActive; destruct group; try discriminate Hlen; reflexivity.
Qed.

End Emit.

(** X18: over [k] frames a spark loses [k] units of life, its horizontal
    velocity shrinks by 8% per frame, and its vertical velocity closes 8%
    of its distance to 1.725 per frame (gravity against air resistance). *)
Theorem sparkler_motion (p : Particle) (k : nat) :
  let q := Nat.iter k age p in
  life q == life p - inject_Z (Z.of_nat k) /\
  maxLife q = maxLife p /\ size q = size p /\ color q = color p /\
  vx q == vx p * 0.92 ^ Z.of_nat k /\
  vy q - 1.725 == (vy p - 1.725) * 0.92 ^ Z.of_nat k.
Proof.
  cbv zeta. induction k as [| k (Hl & Hm & Hs & Hc & Hvx & Hvy)].
  - simpl. change (inject_Z 0) with 0. repeat split; ring.
  - change (Nat.iter (S k) age p) with (age (Nat.iter k age p)).
    set (q := Nat.iter k age p) in *. unfold age.
    cbn [life maxLife size color vx vy].
    pose proof (FireworksLoopFacts.inject_succ k) as Hn.
    pose proof (FireworksLoopFacts.Qpower_succ_nat 0.92 k) as Hp.
    split; [rewrite Hn, Hl; ring |].
    split; [done |]. split; [done |]. split; [done |].
    split.
    + rewrite Hp by discriminate. rewrite Hvx. ring.
    + rewrite Hp by discriminate.
      transitivity ((vy q - 1.725) * 0.92); [ring |].
      rewrite Hvy. ring.
Qed.

End SparklerFacts.

(** ** The application shell *)

Module AppFacts.
Import App.
Local Open Scope Q_scope.

(** *** The motion score *)

Lemma sampleDiff_nonneg (data prev : list Z) (i : nat) :
  (0 <= sampleDiff data prev i)%Z.
Proof.
  unfold sampleDiff. destruct (data !! i), (prev !! i); lia.
Qed.

Lemma sampleDiff_same (data : list Z) (i : nat) : sampleDiff data data i = 0%Z.
Proof. unfold sampleDiff. destruct (data !! i); lia. Qed.

Lemma diffSum_nonneg (data prev : list Z) : (0 <= diffSum data prev)%Z.
Proof.
  unfold diffSum.
  apply (FieldFacts.foldl_keeps (fun acc => (0 <= acc)%Z)); [| lia].
  intros acc i Hacc. pose proof (sampleDiff_nonneg data prev i). lia.
Qed.

Lemma diffSum_same (data : list Z) : diffSum data data = 0%Z.
Proof.
  unfold diffSum.
  apply (FieldFacts.foldl_keeps (fun acc => acc = 0%Z)); [| done].
  intros acc i ->. by rewrite sampleDiff_same.
Qed.

(** X19: with a previous frame of the same size and a non-empty frame, the
    analysis sets a motion score between 0 and 1; the score is 0 when the
    two frames are equal, and it exceeds 0.3, the threshold at which the
    snow overlay shakes off its pile, exactly when the average difference the
    code computes (the sum of the sampled differences over a 32nd of the
    number of bytes) exceeds 9, that is when 32 times the sum exceeds
    9 times the number of bytes. *)
Theorem motion_score_range (prev data : list Z) :
  length prev = length data -> data <> [] ->
  exists q : Q,
    fst (analyzeMotion (Some prev) data) = Some (num q) /\
    0 <= q /\ q <= 1 /\
    (0.3 < q <->
     9 * inject_Z (Z.of_nat (length data)) < 32 * inject_Z (diffSum data prev)) /\
    (prev = data -> q == 0).
Proof.
  intros Hlen Hne. unfold analyzeMotion, scoreOf. cbv zeta.
  rewrite Hlen, Nat.eqb_refl.
  assert (Hl : (0 < length data)%nat) by (destruct data; [done | simpl; lia]).
  assert (Nat.eqb (length data) 0 = false) as -> by (apply Nat.eqb_neq; lia).
  simpl fst. eexists. split; [reflexivity |].
  set (L := inject_Z (Z.of_nat (length data))).
  set (D := inject_Z (diffSum data prev)).
  assert (HL : 0 < L).
  { unfold L. change 0 with (inject_Z 0). rewrite <- Zlt_Qlt. lia. }
  assert (HD : 0 <= D).
  { unfold D. change 0 with (inject_Z 0). rewrite <- Zle_Qle.
    apply diffSum_nonneg. }
  set (r := D / (L / 32) / 30).
  assert (Hr : r * (30 * L) == 32 * D) by (unfold r; field; lra).
  assert (Hr0 : 0 <= r) by nra.
  destruct (Math_min_spec r 1.0) as [[Hc ->] | [Hc ->]].
  - split; [lra |]. split; [lra |]. split.
    + split; [intros _; nra | intros _; lra].
    + intros ->. unfold D in *. rewrite diffSum_same in *.
      change (inject_Z 0) with 0 in *. nra.
  - split; [done |]. split; [lra |]. split.
    + split; intros Hq; nra.
    + intros ->. unfold D in *. rewrite diffSum_same in *.
      change (inject_Z 0) with 0 in *. nra.
Qed.

(** *** The pointer handlers *)

(** X21: whatever sequence of pointer inputs and presses of the frost button
    the shell handles, a drawing point is only ever set while the frost is
    on and a press is in progress. *)
Theorem drawing_point_needs_frost (inputs : list Input) :
  let s := foldl handle initialPointer inputs in
  drawingPoint s <> None -> isFrosty s = true /\ isDrawing s = true.
Proof.
  cbv zeta.
  apply (FieldFacts.foldl_keeps
           (fun s => drawingPoint s <> None ->
                     isFrosty s = true /\ isDrawing s = true)); [| done].
  intros s i IH. destruct i as [[cx cy | cx cy |] |]; simpl.
  - unfold handleStart. destruct (isFrosty s) eqn:E; simpl; [done | ].
    intros Hp. destruct (IH Hp) as [Hf _]. congruence.
  - unfold handleMove.
    destruct (isFrosty s) eqn:E1, (isDrawing s) eqn:E2; simpl; try done;
      intros Hp; destruct (IH Hp); congruence.
  - done.
  - done.
Qed.

(** *** A gesture, from the shell to the mask *)

Lemma point_eta (q : Types.Point) :
  {| Types.x := Types.x q; Types.y := Types.y q |} = q.
Proof. by destruct q. Qed.

Lemma drive_moves (random : nat -> Q) (height : Q) (rest : list Types.Point)
  (f : Frost.State) (p : Types.Point) :
  foldl (drive random)
        ({| isFrosty := true; isDrawing := true; drawingPoint := Some p |}, f)
        (map (fun q => Move (Types.x q) (Types.y q)) rest)
  = ({| isFrosty := true; isDrawing := true;
        drawingPoint := Some (List.last rest p) |},
     foldl (Frost.react random height) f
           (map (fun q => Frost.Draw (Some q)) rest)).
Proof.
  revert f p. induction rest as [| q rest IH]; intros f p; [done |].
  cbn [map foldl].
  assert (E : drive random
                ({| isFrosty := true; isDrawing := true;
                    drawingPoint := Some p |}, f)
                (Move (Types.x q) (Types.y q))
              = ({| isFrosty := true; isDrawing := true;
                    drawingPoint := Some q |},
                 Frost.react random height f (Frost.Draw (Some q)))).
  { unfold drive, handlePointer, handleMove, pointChanged. simpl.
    by rewrite point_eta. }
  rewrite E, IH. by rewrite FrostLoopFacts.last_cons_default.
Qed.

(** X22: with the frost on and no stroke in progress, a press at [p], moves
    through [n] further points and a release reach the mask of the frost
    overlay as one dot at [p] and [n] strokes from point to point, in
    order; the release ends the stroke (leaving at most one new drip) and
    clears the drawing point. *)
Theorem shell_gesture_erases (random : nat -> Q) (p : Types.Point)
  (rest : list Types.Point) (s : Pointer) (f : Frost.State) :
  isFrosty s = true -> Frost.lastPointRef f = None ->
  let st := foldl (drive random) (s, f) (gesture p rest) in
  Frost.maskCanvas (snd st) = Frost.maskCanvas f ++ Frost.strokeChain p rest /\
  Frost.lastPointRef (snd st) = None /\
  drawingPoint (fst st) = None /\ isDrawing (fst st) = false /\
  (length (Frost.dripsRef f) <= length (Frost.dripsRef (snd st))
   <= length (Frost.dripsRef f) + 1)%nat.
Proof.
  intros Hf Hl. unfold gesture. cbn [foldl]. cbv zeta.
  assert (E : drive random (s, f) (Start (Types.x p) (Types.y p))
              = ({| isFrosty := true; isDrawing := true;
                    drawingPoint := Some p |},
                 Frost.drawingEffect random (Some p) f)).
  { unfold drive, handlePointer, handleStart, pointChanged. simpl.
    rewrite Hf. simpl. by rewrite point_eta. }
  rewrite E, foldl_app, (drive_moves random 0). cbn [foldl].
  pose proof (FrostLoopFacts.strokes_from random 0
                (Frost.drawingEffect random (Some p) f) p rest eq_refl) as Hc.
  cbv zeta in Hc. destruct Hc as (Em & El & Ed & En).
  set (f2 := foldl (Frost.react random 0)
               (Frost.drawingEffect random (Some p) f)
               (map (fun q => Frost.Draw (Some q)) rest)) in *.
  assert (E2 : drive random
                 ({| isFrosty := true; isDrawing := true;
                     drawingPoint := Some (List.last rest p) |}, f2) End_
               = ({| isFrosty := true; isDrawing := false;
                     drawingPoint := None |},
                  Frost.drawingEffect random None f2)) by reflexivity.
  rewrite E2. cbn [fst snd drawingPoint isDrawing].
  destruct (FrostLoopFacts.gesture_end_parts random f2)
    as (Gm & Gl & Gd).
  rewrite Gm, Gl, Em.
  assert (E0 : Frost.maskCanvas (Frost.drawingEffect random (Some p) f)
               = Frost.maskCanvas f
                 ++ [Frost.fillArc (Types.x p) (Types.y p) Frost.brushSize 1]).
  { unfold Frost.drawingEffect. by rewrite Hl. }
  assert (E1 : Frost.dripsRef (Frost.drawingEffect random (Some p) f)
               = Frost.dripsRef f) by reflexivity.
  rewrite E0, <- app_assoc. rewrite Ed, E1 in Gd.
  repeat split; try done; lia.
Qed.

End AppFacts.

(** ** The recognition service *)

Module GeminiFacts.
Import Gemini.
Local Open Scope Q_scope.

Lemma choose_cases (prev current : Detection) :
  choose prev current = prev \/ choose prev current = current.
Proof. unfold choose. destruct (moreConfident prev current); auto. Qed.

Lemma fold_choose_in (first : Detection) (others : list Detection) :
  In (foldl choose first others) (first :: others).
Proof.
  revert first. induction others as [| c others IH]; intros first;
    [by left |].
  simpl foldl. specialize (IH (choose first c)).
  destruct IH as [E | Hin].
  - rewrite <- E. destruct (choose_cases first c) as [-> | ->];
      [by left | right; by left].
  - right. by right.
Qed.

Lemma fold_choose_max (first : Detection) (others : list Detection) (a : Q) :
  Forall (fun v => exists c, confidence v = Some c) (first :: others) ->
  confidence first = Some a ->
  exists r : Q,
    confidence (foldl choose first others) = Some r /\ a <= r /\
    Forall (fun v => exists c, confidence v = Some c /\ c <= r) others.
Proof.
  revert first a. induction others as [| c others IH]; intros first a Hall Ha.
  - exists a. split; [done |]. split; [lra | constructor].
  - apply Forall_cons in Hall as [_ Hall].
    pose proof Hall as Hall'. apply Forall_cons in Hall' as [[b Hb] _].
    simpl foldl. unfold choose at 2, moreConfident. rewrite Ha, Hb.
    destruct (Qgtb a b) eqn:G.
    + apply Qgtb_true in G.
      destruct (IH first a) as (r & Hr & Hle & Hrest).
      { apply Forall_cons. apply Forall_cons in Hall as [_ Hall]. eauto. }
      { done. }
      exists r. split; [done |]. split; [done |].
      apply Forall_cons. split; [| done]. exists b. split; [done | lra].
    + apply Qgtb_false in G.
      destruct (IH c b Hall Hb) as (r & Hr & Hle & Hrest).
      exists r. split; [done |]. split; [lra |].
      apply Forall_cons. split; [| done]. exists b. split; [done | lra].
Qed.

(** X23: when the service returns a detection, the response was an array, the
    detection is one of its items and passed the filter (its tip has both
    coordinates); and when every item that passed the filter carries a
    confidence, no such item is more confident than the one returned. *)
Theorem analyzeFrame_picks (response : Response) (r : Detection) :
  analyzeFrame response = Some r ->
  exists data : list Detection,
    response = detections data /\ In r data /\ valid r = true /\
    (Forall (fun v => valid v = true -> exists c, confidence v = Some c) data ->
     exists cr : Q,
       confidence r = Some cr /\
       forall (v : Detection) (c : Q),
         In v data -> valid v = true -> confidence v = Some c -> c <= cr).
Proof.
  unfold analyzeFrame. destruct response as [| | | data]; try done.
  destruct (Nat.ltb 0 (length data)); [| done].
  unfold pick. destruct (List.filter valid data) as [| first others] eqn:F;
    [done |].
  intros [= <-]. exists data. split; [done |].
  pose proof (fold_choose_in first others) as Hin. rewrite <- F in Hin.
  apply filter_In in Hin as [Hd Hv]. split; [done |]. split; [done |].
  intros Hall.
  assert (Hconf : Forall (fun v => exists c, confidence v = Some c)
                         (first :: others)).
  { rewrite <- F. apply Forall_forall. intros v Hv'.
    apply list_elem_of_In, filter_In in Hv' as [Hvd Hvv].
    rewrite Forall_forall in Hall. apply Hall; [| done].
    by apply list_elem_of_In. }
  pose proof Hconf as Hc'. apply Forall_cons in Hc' as [[a Ha] _].
  destruct (fold_choose_max first others a Hconf Ha) as (cr & Hr & Hle & Hrest).
  exists cr. split; [done |]. intros v c Hvd Hvv Hvc.
  assert (Hvf : In v (first :: others)) by (rewrite <- F; by apply filter_In).
  destruct Hvf as [-> | Hvo].
  - rewrite Ha in Hvc. injection Hvc as <-. done.
  - rewrite Forall_forall in Hrest.
    destruct (Hrest v) as (c' & Hc' & Hle'); [by apply list_elem_of_In |].
    rewrite Hvc in Hc'. injection Hc' as <-. done.
Qed.

(** X24: the service returns nothing exactly when there was no text, the call
    or the parse failed, the JSON was not an array, or no item of the
    array has a tip with both coordinates (in particular when the array is
    empty). *)
Theorem analyzeFrame_none (response : Response) :
  analyzeFrame response = None <->
  match response with
  | detections data => Forall (fun v => valid v = false) data
  | _ => True
  end.
Proof.
  unfold analyzeFrame. destruct response as [| | | data]; try done.
  destruct data as [| d data]; [done |].
  change (Nat.ltb 0 (length (d :: data))) with true. cbv iota.
  unfold pick. split.
  - destruct (List.filter valid (d :: data)) as [| first others] eqn:F;
      [| done].
    intros _. apply Forall_forall. intros v Hv.
    apply list_elem_of_In in Hv.
    destruct (valid v) eqn:E; [| done].
    assert (Hin : In v (List.filter valid (d :: data))) by (by apply filter_In).
    rewrite F in Hin. done.
  - intros Hall.
    destruct (List.filter valid (d :: data)) as [| first others] eqn:F;
      [done |].
    assert (Hin : In first (List.filter valid (d :: data)))
      by (rewrite F; by left).
    apply filter_In in Hin as [Hd Hv].
    rewrite Forall_forall in Hall.
    rewrite (Hall first) in Hv; [done | by apply list_elem_of_In].
Qed.

(** X25: the last item of the array is returned whenever it passes the filter
    and no earlier item that passes it is strictly more confident: ties go
    to the later item, and a last item without confidence always wins. *)
Theorem analyzeFrame_last_wins (data : list Detection) (item : Detection) :
  valid item = true ->
  Forall (fun v => valid v = true -> moreConfident v item = false) data ->
  analyzeFrame (detections (data ++ [item])) = Some item.
Proof.
  intros Hv Hall. unfold analyzeFrame.
  assert (Nat.ltb 0 (length (data ++ [item])) = true) as ->.
  { apply Nat.ltb_lt. rewrite length_app. simpl. lia. }
  rewrite List.filter_app. simpl. rewrite Hv.
  unfold pick.
  destruct (List.filter valid data) as [| first others] eqn:F; [done |].
  simpl app. f_equal. rewrite foldl_app. simpl.
  unfold choose at 1.
  pose proof (fold_choose_in first others) as Hin. rewrite <- F in Hin.
  apply filter_In in Hin as [Hd Hvv].
  rewrite Forall_forall in Hall.
  rewrite (Hall _ (proj2 (list_elem_of_In _ _) Hd) Hvv). done.
Qed.

End GeminiFacts.

(** ** The sample host meets the assumptions made of a host *)

Module SampleFacts.
Import Samples.
Local Open Scope Q_scope.

Definition inUnit (v : Q) : Prop := 0 <= v /\ v < 1.

Lemma randomOf_range (draws : list Q) (n : nat) :
  Forall inUnit draws -> inUnit (randomOf draws n).
Proof.
  intros Hd. unfold randomOf.
  destruct (draws !! (n mod length draws)%nat) as [v |] eqn:E.
  - by apply (Forall_lookup_1 _ _ _ _ Hd E).
  - unfold inUnit. lra.
Qed.

Lemma randomWith_range (prefix draws : list Q) (n : nat) :
  Forall inUnit prefix -> Forall inUnit draws ->
  inUnit (randomWith prefix draws n).
Proof.
  intros Hp Hd. unfold randomWith. destruct (prefix !! n) as [v |] eqn:E.
  - by apply (Forall_lookup_1 _ _ _ _ Hp E).
  - by apply randomOf_range.
Qed.

Lemma sampleDraws_inUnit : Forall inUnit sampleDraws.
Proof. unfold sampleDraws, inUnit. repeat constructor; lra. Qed.

Lemma shakyDraws_inUnit : Forall inUnit shakyDraws.
Proof. unfold shakyDraws, inUnit. repeat constructor; lra. Qed.

Lemma sampleHost_random (n : nat) :
  0 <= Snow.random sampleHost n /\ Snow.random sampleHost n < 1.
Proof. apply randomOf_range, sampleDraws_inUnit. Qed.

Lemma shakyHost_random (n : nat) :
  0 <= Snow.random shakyHost n /\ Snow.random shakyHost n < 1.
Proof.
  apply randomWith_range; [apply shakyDraws_inUnit | apply sampleDraws_inUnit].
Qed.

Lemma taylorExp_ge_1 (t : Q) : 0 <= t -> 1 <= taylorExp t.
Proof.
  intros Ht. unfold taylorExp.
  assert (H6 : 1 <= 1 + t * (1 # 6)) by lra.
  assert (H5 : 1 <= 1 + t * (1 # 5) * (1 + t * (1 # 6))) by nra.
  assert (H4 : 1 <= 1 + t * (1 # 4) * (1 + t * (1 # 5) * (1 + t * (1 # 6))))
    by nra.
  assert (H3 : 1 <= 1 + t * (1 # 3)
                       * (1 + t * (1 # 4) * (1 + t * (1 # 5)
                                                * (1 + t * (1 # 6)))))
    by nra.
  assert (H2 : 1 <= 1 + t * (1 # 2)
                       * (1 + t * (1 # 3)
                              * (1 + t * (1 # 4) * (1 + t * (1 # 5)
                                                       * (1 + t * (1 # 6))))))
    by nra.
  nra.
Qed.

Lemma sampleExp_positive (q : Q) : 0 < sampleExp q.
Proof.
  unfold sampleExp. destruct (Qle_bool q 0) eqn:E.
  - apply Qle_bool_iff in E. apply Qinv_lt_0_compat.
    pose proof (taylorExp_ge_1 (- q)). lra.
  - assert (Hq : 0 <= q).
    { apply Qlt_le_weak, Qnot_le_lt. intros Hc.
      apply Qle_bool_iff in Hc. congruence. }
    pose proof (taylorExp_ge_1 q Hq). lra.
Qed.

Lemma sampleExp_nonneg (q : Q) : 0 <= sampleExp q.
Proof. apply Qlt_le_weak, sampleExp_positive. Qed.

Lemma sampleSin_bounded (q : Q) : -1 <= sampleSin q /\ sampleSin q <= 1.
Proof.
  unfold sampleSin. cbv zeta.
  match goal with
  | |- context [Math_min 1 ?v] =>
      destruct (Math_min_spec 1 v) as [[H1 ->] | [H1 ->]];
      [destruct (Math_max_spec (-1) v) as [[H2 ->] | [H2 ->]]
      | destruct (Math_max_spec (-1) 1) as [[H2 ->] | [H2 ->]]]
  end; lra.
Qed.

Lemma hardCoverage_range (op : Frost.MaskOp) (px : Frost.Pixel) :
  0 <= Frost.hardCoverage op px /\ Frost.hardCoverage op px <= 1.
Proof.
  unfold Frost.hardCoverage. destruct op; cbv zeta;
    destruct (Frost.inDisc _ _ _ _); lra.
Qed.

Lemma sparkHost_random (n : nat) :
  0 <= FireworksLoop.random sparkHost n /\ FireworksLoop.random sparkHost n < 1.
Proof. apply randomOf_range, sampleDraws_inUnit. Qed.

Lemma rampField_settled : SnowShapes.settled rampField.
Proof.
  intros i j u v Hadj Hi Hj. unfold rampField, Snow.threshold in *.
  destruct i as [| [| [| [| i]]]]; try discriminate Hi;
    destruct j as [| [| [| [| j]]]]; try discriminate Hj;
    try (exfalso; lia);
    simpl in Hi, Hj; injection Hi as <-; injection Hj as <-; lra.
Qed.

End SampleFacts.

(** ** The statements above on concrete inputs *)

Module Checks.
Import Samples SampleFacts.
Local Open Scope Q_scope.

Lemma plateau_cells : Snow.cellsNonneg plateauWorld.
Proof.
  unfold Snow.cellsNonneg, Snow.nonneg. simpl.
  apply (Forall_replicate (fun v => 0 <= v) 40 20). lra.
Qed.

Lemma plateau_sizes : Snow.sizesNonneg plateauWorld.
Proof.
  unfold Snow.sizesNonneg. simpl. repeat constructor; simpl; lra.
Qed.


(** C3 on the plateau world: a frame (which here also resets) leaves every
    cell non-negative. *)
Lemma height_field_nonneg_witness :
  Snow.cellsNonneg plateauWorld /\
  Snow.sizesNonneg plateauWorld /\
  Snow.cellsNonneg (Snow.update sampleHost plateauProps plateauWorld).
Proof.
  split; [exact plateau_cells |]. split; [exact plateau_sizes |].
  exact (proj1 (proj2 (proj2 (proj2
           (FrameFacts.height_field_nonneg sampleHost plateauProps
              (fun n => proj1 (sampleHost_random n)) sampleExp_nonneg
              plateauWorld plateau_cells plateau_sizes))))).
Defined.






(** C7 on a short session: a dot and a stroke are on the mask, a further
    stroke to (30,15) does not lower the erasure of pixel (15,10). *)
Lemma mask_erasure_monotone_witness :
  let es := [Frost.Reset;
             Frost.Draw (Some {| Types.x := 10; Types.y := 10 |});
             Frost.Draw (Some {| Types.x := 20; Types.y := 10 |})] in
  let e := Frost.Draw (Some {| Types.x := 30; Types.y := 15 |}) in
  let s := Frost.run (randomOf sampleDraws) 480 es in
  e <> Frost.Reset /\
  Frost.erasure Frost.hardCoverage (Frost.maskCanvas s) (15, 10)%Z
  <= Frost.erasure Frost.hardCoverage
       (Frost.maskCanvas (Frost.react (randomOf sampleDraws) 480 s e))
       (15, 10)%Z.
Proof.
  cbv zeta. split; [discriminate |].
  refine (proj1 (proj2
    (FrostFacts.mask_erasure_monotone (randomOf sampleDraws) 480
       Frost.hardCoverage hardCoverage_range _ _ (15, 10)%Z _))).
  discriminate.
Defined.

End Checks.

(** ** The further properties on sample inputs *)

Module Instances.
Import Samples SampleFacts.
Local Open Scope Q_scope.

(** X1 on the burst world: the frame emits, and the pool holds the aged
    particle in flight followed by the 18 aged particles of the group. *)
Lemma firework_frame_pool_witness :
  exists group : list Fireworks.FireworkParticle,
    FireworksLoop.particlesRef (FireworksLoop.update sparkHost burstWorld)
    = omap FireworksLoop.survive (FireworksLoop.particlesRef burstWorld)
      ++ map FireworksLoop.age group /\
    length group
    = (if FireworksLoop.emits burstWorld
       then FireworksLoop.groupSize else 0%nat) /\
    (forall t : Types.Point,
       FireworksLoop.targetPosRef burstWorld = Some t ->
       exists pal : Fireworks.Palette,
         pal ∈ Fireworks.PALETTES /\
         Forall (FireworksLoop.spawnedAt
                   (FireworksLoop.emitPosition
                      (FireworksLoop.lastEmitPosRef burstWorld) t) pal)
                group) /\
    length (FireworksLoop.particlesRef
              (FireworksLoop.update sparkHost burstWorld))
    = (length (omap FireworksLoop.survive
                 (FireworksLoop.particlesRef burstWorld))
       + (if FireworksLoop.emits burstWorld
          then FireworksLoop.groupSize else 0))%nat.
Proof.
  apply FireworksLoopFacts.firework_frame_pool. exact sparkHost_random.
Defined.

(** X2 on the burst world: the particle in flight and the 18 emitted in the
    frame. *)
Lemma firework_particles_well_aged_witness :
  Forall (fun q => FireworksLoop.wellAged q
                   /\ (1 <= length (Fireworks.history q))%nat)
         (FireworksLoop.particlesRef (FireworksLoop.update sparkHost burstWorld)).
Proof.
  apply FireworksLoopFacts.firework_particles_well_aged.
  - exact sparkHost_random.
  - constructor; [| constructor].
    split; [unfold Qle; simpl; lia | simpl; lia].
Defined.

(** X3 on the burst world. *)
Lemma createGroup_spec_witness :
  exists (pal : Fireworks.Palette) (group : list Fireworks.FireworkParticle),
    pal ∈ Fireworks.PALETTES /\
    FireworksLoop.particlesRef
      (FireworksLoop.createGroup sparkHost burstTarget burstWorld)
    = FireworksLoop.particlesRef burstWorld ++ group /\
    length group = 18%nat /\
    Forall (FireworksLoop.spawnedAt burstTarget pal) group /\
    FireworksLoop.randomCalls
      (FireworksLoop.createGroup sparkHost burstTarget burstWorld)
    = (FireworksLoop.randomCalls burstWorld + 91)%nat.
Proof.
  apply FireworksLoopFacts.createGroup_spec. exact sparkHost_random.
Defined.

(** X4 on the burst world: three frames take the emission point from
    (60, 140) to an eighth of that offset from the target. *)
Lemma emission_smoothing_witness :
  (FireworksLoop.isActiveRef burstWorld = false ->
   FireworksLoop.lastEmitPosRef (FireworksLoop.update sparkHost burstWorld)
   = None) /\
  (FireworksLoop.isActiveRef burstWorld = true ->
   exists e : Types.Point,
     FireworksLoop.lastEmitPosRef (FireworksLoop.frames sparkHost 3 burstWorld)
     = Some e /\
     Types.x e - Types.x burstTarget == (60 - Types.x burstTarget) * (1 # 2) ^ 3 /\
     Types.y e - Types.y burstTarget == (140 - Types.y burstTarget) * (1 # 2) ^ 3).
Proof.
  apply (FireworksLoopFacts.emission_smoothing sparkHost burstWorld burstTarget 2).
  reflexivity.
Defined.

(** X5 on the idle world: the one particle, with 50 frames to live, is gone
    after 50 frames. *)
Lemma firework_pool_drains_witness :
  FireworksLoop.particlesRef (FireworksLoop.frames sparkHost 50 idleWorld) = [].
Proof.
  apply FireworksLoopFacts.firework_pool_drains.
  - left. reflexivity.
  - constructor; [| constructor].
    split; [reflexivity | unfold Qle; simpl; lia].
Defined.

(** X8 on a gesture through three points. *)
Lemma gesture_draws_chain_witness :
  let s' := foldl (Frost.react (randomOf sampleDraws) 600) Frost.initial
              (map (fun q => Frost.Draw (Some q)) [pointA; pointB; pointC]) in
  Frost.maskCanvas s'
  = Frost.maskCanvas Frost.initial ++ Frost.strokeChain pointA [pointB; pointC] /\
  length (Frost.strokes pointA [pointB; pointC]) = 2%nat /\
  Frost.lastPointRef s' = Some pointC /\
  Frost.dripsRef s' = [] /\ Frost.randomCalls s' = 0%nat.
Proof.
  apply (FrostLoopFacts.gesture_draws_chain (randomOf sampleDraws) 600
           Frost.initial pointA [pointB; pointC]).
  reflexivity.
Defined.

(** X11 on the dripping frost: the drip is gone after three frames. *)
Lemma drips_drain_witness :
  Frost.dripsRef
    (Nat.iter 3 (Frost.render (randomOf sampleDraws) 600) drippingFrost) = [].
Proof.
  apply FrostLoopFacts.drips_drain.
  constructor; [| constructor].
  split; [reflexivity | unfold Qle; simpl; lia].
Defined.

(** X12 on the pile field: column 0, which holds 5, is lowered. *)
Lemma decay_sweep_witness :
  exists v' : Q,
    Snow.decay 8 pileField !! 0%nat = Some v' /\
    (5 - 0.021 <= v' /\ v' <= 5 - 0.019 /\ 0 < v').
Proof.
  apply (SnowShapeFacts.decay_sweep 8 pileField 0 5). reflexivity.
Defined.

(** X13 on the ramp. *)
Lemma smooth_settled_witness :
  Snow.smoothPass 4 rampField = rampField /\ Snow.smooth 4 rampField = rampField.
Proof.
  apply SnowShapeFacts.smooth_settled. exact rampField_settled.
Defined.

(** X14 on an empty field: a particle of size 2 landing in column 50
    raises that column by 1 times the falloff at distance 0. *)
Lemma deposit_exact_witness :
  Snow.deposit sampleHost 100 50 2 (replicate 100 0) !! 50%nat
  = Some (0 + 2 * 0.5 * Snow.falloff sampleHost 0).
Proof.
  apply (SnowShapeFacts.deposit_exact sampleHost 100 50 2 (replicate 100 0) 50 0).
  reflexivity.
Defined.

(** X16 on the plateau world. *)
Lemma particles_stay_on_screen_witness :
  Forall (SnowShapes.onScreen plateauProps)
         (Snow.particlesRef (Snow.update sampleHost plateauProps plateauWorld)).
Proof.
  apply SnowShapeFacts.particles_stay_on_screen.
  - exact sampleHost_random.
  - unfold Qle. simpl. lia.
Defined.

(** X17 on the empty sparkler, active with a target. *)
Lemma sparkler_frame_pool_witness :
  exists group : list Sparkler.Particle,
    Sparkler.particlesRef
      (Sparkler.update sparkHost true (Some burstTarget) sparklerWorld)
    = omap Sparkler.survive (Sparkler.particlesRef sparklerWorld)
      ++ map Sparkler.age group /\
    length group = Sparkler.particlesToEmit /\
    (forall t : Types.Point,
       Some burstTarget = Some t -> Forall (Sparkler.emittedAt t) group).
Proof.
  apply (SparklerFacts.sparkler_frame_pool sparkHost sparkHost_random
           true (Some burstTarget) sparklerWorld).
Defined.

(** X19 on a dark frame followed by a bright one. *)
Lemma motion_score_range_witness :
  exists q : Q,
    fst (App.analyzeMotion (Some darkFrame) brightFrame) = Some (App.num q) /\
    0 <= q /\ q <= 1 /\
    (0.3 < q <->
     9 * inject_Z (Z.of_nat (length brightFrame))
     < 32 * inject_Z (App.diffSum brightFrame darkFrame)) /\
    (darkFrame = brightFrame -> q == 0).
Proof.
  apply AppFacts.motion_score_range.
  - reflexivity.
  - vm_compute. discriminate.
Defined.

(** X21 on the frost button followed by a press. *)
Lemma drawing_point_needs_frost_witness :
  App.isFrosty
    (foldl App.handle App.initialPointer
       [App.ToggleFrost; App.pointer (App.Start 10 10)]) = true /\
  App.isDrawing
    (foldl App.handle App.initialPointer
       [App.ToggleFrost; App.pointer (App.Start 10 10)]) = true.
Proof.
  apply (AppFacts.drawing_point_needs_frost
           [App.ToggleFrost; App.pointer (App.Start 10 10)]).
  vm_compute. discriminate.
Defined.

(** X22 on a gesture through three points over a fresh frost overlay. *)
Lemma shell_gesture_erases_witness :
  let st := foldl (App.drive (randomOf sampleDraws))
              (frostyPointer, Frost.initial)
              (App.gesture pointA [pointB; pointC]) in
  Frost.maskCanvas (snd st)
  = Frost.maskCanvas Frost.initial ++ Frost.strokeChain pointA [pointB; pointC] /\
  Frost.lastPointRef (snd st) = None /\
  App.drawingPoint (fst st) = None /\ App.isDrawing (fst st) = false /\
  (length (Frost.dripsRef Frost.initial) <= length (Frost.dripsRef (snd st))
   <= length (Frost.dripsRef Frost.initial) + 1)%nat.
Proof.
  apply (AppFacts.shell_gesture_erases (randomOf sampleDraws) pointA
           [pointB; pointC] frostyPointer Frost.initial);
    reflexivity.
Defined.

(** X23 on a response with two detections: the pen, the more confident of
    the two, is returned. *)
Lemma analyzeFrame_picks_witness :
  exists data : list Gemini.Detection,
    Gemini.detections [chopstick; pen] = Gemini.detections data /\
    In pen data /\ Gemini.valid pen = true /\
    (Forall (fun v => Gemini.valid v = true
                      -> exists c, Gemini.confidence v = Some c) data ->
     exists cr : Q,
       Gemini.confidence pen = Some cr /\
       forall (v : Gemini.Detection) (c : Q),
         In v data -> Gemini.valid v = true ->
         Gemini.confidence v = Some c -> c <= cr).
Proof.
  apply (GeminiFacts.analyzeFrame_picks (Gemini.detections [chopstick; pen]) pen).
  reflexivity.
Defined.

(** X25 on a response that ends with a detection without confidence. *)
Lemma analyzeFrame_last_wins_witness :
  Gemini.analyzeFrame (Gemini.detections ([chopstick; pen] ++ [straw]))
  = Some straw.
Proof.
  apply GeminiFacts.analyzeFrame_last_wins.
  - reflexivity.
  - constructor; [| constructor; [| constructor]]; intros _; reflexivity.
Defined.

(** X26 on the overlay just after mount: the second particle of the pool
    moves to the ground line and freezes. *)
Lemma frozen_layer_frame_witness :
  (Snow.isActive calmProps = false ->
   SnowAccumulated.accumulatedCanvasRef
     (SnowAccumulated.update sampleHost calmProps freshLayerWorld)
   = Some (if SnowLayer.clears calmProps freshLayerWorld then [] else [])) /\
  (Snow.isActive calmProps = true ->
   exists landed : list Snow.SnowParticle,
     SnowAccumulated.accumulatedCanvasRef
       (SnowAccumulated.update sampleHost calmProps freshLayerWorld)
     = Some ((if SnowLayer.clears calmProps freshLayerWorld then [] else [])
             ++ map SnowLayer.flake landed) /\
     (length landed
      <= length (SnowAccumulated.particlesRef
                   (SnowAccumulated.replenish sampleHost calmProps
                      (SnowAccumulated.clearPhase calmProps freshLayerWorld))))%nat /\
     (forall q : Snow.SnowParticle,
        In q landed ->
        (exists p : Snow.SnowParticle,
           In p (SnowAccumulated.particlesRef
                   (SnowAccumulated.replenish sampleHost calmProps
                      (SnowAccumulated.clearPhase calmProps freshLayerWorld)))
           /\ q = Snow.moved sampleHost calmProps p) /\
        SnowLayer.lands calmProps
          (SnowAccumulated.heightMapRef
             (SnowAccumulated.update sampleHost calmProps freshLayerWorld)) q
        = true) /\
     (forall p : Snow.SnowParticle,
        In p (SnowAccumulated.particlesRef
                (SnowAccumulated.replenish sampleHost calmProps
                   (SnowAccumulated.clearPhase calmProps freshLayerWorld))) ->
        SnowLayer.lands calmProps
          (SnowAccumulated.heightMapRef
             (SnowAccumulated.replenish sampleHost calmProps
                (SnowAccumulated.clearPhase calmProps freshLayerWorld)))
          (Snow.moved sampleHost calmProps p) = true ->
        In (Snow.moved sampleHost calmProps p) landed)).
Proof.
  apply (SnowLayerFacts.frozen_layer_frame sampleHost calmProps
           (fun n => proj1 (sampleHost_random n)) freshLayerWorld []
           (replicate 100 0)).
  - reflexivity.
  - reflexivity.
  - repeat constructor; unfold Qle; simpl; lia.
Defined.

(** X27 on the overlay just after mount, over three frames. *)
Lemma no_height_without_flake_witness :
  SnowLayer.flat
    (Nat.iter 3 (SnowAccumulated.update sampleHost calmProps) freshLayerWorld).
Proof.
  apply SnowLayerFacts.no_height_without_flake.
  intros _. simpl. apply (Forall_replicate (fun v => v = 0) 100 0). reflexivity.
Defined.

End Instances.
